(** * kdoc: the comment/element extraction engine of [parser]

    A shallow embedding of the line scanner of [parser.go]
    ([extractTopComment], [extractElements], [extractIDFromSig],
    [ProcessBacklinks]) together with the parts of the Go standard library
    it calls ([strings.TrimSpace], [strings.HasPrefix], [strings.Index],
    [strings.Join], [strings.Fields], [regexp], [fmt.Sprintf]).

    Around it: [ParseFile], which feeds the scanner; of the package [git],
    the reading of the remote address and of the log ([parseRemoteURL],
    [detectRepoInfo], [GetFileInfo]) and the links to the hosting site
    ([GetCommitURL], [GetFileURL], [GetAvatarURL]); of the command
    [generate], the name of a page ([outputFilename]), the index of the
    links and the pass that resolves them. What a [git] command prints,
    the file system and the functions of [path/filepath] are parameters.

    A Go [string] is a sequence of bytes; it is modelled as [list ascii]. *)

From Stdlib Require Import Ascii String DecimalString DecimalNat.
From stdpp Require Import base list gmap strings.

Local Open Scope list_scope.
Local Open Scope nat_scope.

(** Go string literals: a Rocq string literal read as its list of bytes. *)
Abbreviation gostring := (list ascii).
Coercion list_ascii_of_string : string >-> list.

(** ** The [strings] package *)
Module Strings.

(** [asciiSpace] of [strings/strings.go]: '\t', '\n', '\v', '\f', '\r', ' '. *)
Definition asciiSpace (c : ascii) : bool :=
  let n := nat_of_ascii c in
  (n =? 9) || (n =? 10) || (n =? 11) || (n =? 12) || (n =? 13) || (n =? 32).

Definition byte_is (c : ascii) (n : nat) : bool := nat_of_ascii c =? n.

(** The runes above U+007F for which [unicode.IsSpace] holds, by their
    UTF-8 encodings: U+0085 and U+00A0 take two bytes; U+1680,
    U+2000..U+200A, U+2028, U+2029, U+202F, U+205F and U+3000 take three. *)
Definition space2 (a b : ascii) : bool :=
  byte_is a 194 && (byte_is b 133 || byte_is b 160).

Definition space3 (a b c : ascii) : bool :=
  (byte_is a 225 && byte_is b 154 && byte_is c 128)
  || (byte_is a 226 && byte_is b 128 &&
        ((128 <=? nat_of_ascii c) && (nat_of_ascii c <=? 138)
         || byte_is c 168 || byte_is c 169 || byte_is c 175))
  || (byte_is a 226 && byte_is b 129 && byte_is c 159)
  || (byte_is a 227 && byte_is b 128 && byte_is c 128).

(** [spaceRune s] is what remains of [s] after the white-space rune it
    starts with, if it starts with one. A byte that does not start a valid
    encoding decodes as U+FFFD, which is not white space. *)
Definition spaceRune (s : gostring) : option gostring :=
  match s with
  | a :: t =>
      if asciiSpace a then Some t else
      match t with
      | b :: t2 =>
          if space2 a b then Some t2 else
          match t2 with
          | c :: t3 => if space3 a b c then Some t3 else None
          | [] => None
          end
      | [] => None
      end
  | [] => None
  end.

(** [strings.TrimLeftFunc(s, unicode.IsSpace)]. *)
Fixpoint trimLeft (s : gostring) : gostring :=
  match s with
  | a :: t =>
      if asciiSpace a then trimLeft t else
      match t with
      | b :: t2 =>
          if space2 a b then trimLeft t2 else
          match t2 with
          | c :: t3 => if space3 a b c then trimLeft t3 else s
          | [] => s
          end
      | [] => s
      end
  | [] => []
  end.

(** The same scan from the end, on the reversed string:
    [utf8.DecodeLastRuneInString] finds a white-space rune exactly when the
    string ends with its encoding. *)
Fixpoint trimLeftRev (r : gostring) : gostring :=
  match r with
  | a :: t =>
      if asciiSpace a then trimLeftRev t else
      match t with
      | b :: t2 =>
          if space2 b a then trimLeftRev t2 else
          match t2 with
          | c :: t3 => if space3 c b a then trimLeftRev t3 else r
          | [] => r
          end
      | [] => r
      end
  | [] => []
  end.

(** [strings.TrimRightFunc(s, unicode.IsSpace)]. *)
Definition trimRight (s : gostring) : gostring := rev (trimLeftRev (rev s)).

(** [strings.TrimSpace]: leading white space goes first, then trailing
    white space of what is left. *)
Definition TrimSpace (s : gostring) : gostring := trimRight (trimLeft s).

(** [strings.HasPrefix(s, prefix)]. *)
Fixpoint HasPrefix (s prefix : gostring) {struct prefix} : bool :=
  match prefix, s with
  | [], _ => true
  | p :: prefix', c :: s' => Ascii.eqb c p && HasPrefix s' prefix'
  | _ :: _, [] => false
  end.

(** [strings.Index(s, substr)]: the byte index of the first occurrence of
    [substr] in [s], or -1. *)
Fixpoint Index (s substr : gostring) : Z :=
  if HasPrefix s substr then 0%Z else
  match s with
  | [] => (-1)%Z
  | _ :: s' =>
      let i := Index s' substr in
      if (i <? 0)%Z then (-1)%Z else (i + 1)%Z
  end.

(** [strings.Join(elems, sep)]. *)
Fixpoint Join (elems : list gostring) (sep : gostring) : gostring :=
  match elems with
  | [] => []
  | [e] => e
  | e :: rest => e ++ sep ++ Join rest sep
  end.

(** [strings.Fields(s)]: the maximal runs of bytes that are not part of a
    white-space rune. [cur] is the field being read, if any. *)
Fixpoint fieldsFrom (fuel : nat) (s : gostring) (cur : option gostring)
  : list gostring :=
  match fuel with
  | 0 => match cur with Some w => [w] | None => [] end
  | S fuel' =>
      match s with
      | [] => match cur with Some w => [w] | None => [] end
      | c :: s' =>
          match spaceRune s with
          | Some rest =>
              match cur with
              | Some w => w :: fieldsFrom fuel' rest None
              | None => fieldsFrom fuel' rest None
              end
          | None => fieldsFrom fuel' s' (Some (default [] cur ++ [c]))
          end
      end
  end.

Definition Fields (s : gostring) : list gostring :=
  fieldsFrom (length s) s None.

(** [strings.Split(s, sep)] for a separator that is not empty, as in all
    the calls of the program: the text between the occurrences of [sep],
    read from left to right. [skip] counts the bytes of a separator still
    to pass over and [cur] is the piece being read. *)
Fixpoint splitFrom (s sep : gostring) (skip : nat) (cur : gostring)
  : list gostring :=
  match s with
  | [] => [cur]
  | c :: s' =>
      if 0 <? skip then splitFrom s' sep (skip - 1) cur
      else if HasPrefix s sep
      then cur :: splitFrom s' sep (length sep - 1) []
      else splitFrom s' sep 0 (cur ++ [c])
  end.

Definition Split (s sep : gostring) : list gostring := splitFrom s sep 0 [].

(** [strings.ReplaceAll(s, old, new)] for an [old] that is not empty: the
    occurrences of [old], read from left to right, become [new]. *)
Fixpoint replaceFrom (s old new : gostring) (skip : nat) : gostring :=
  match s with
  | [] => []
  | c :: s' =>
      if 0 <? skip then replaceFrom s' old new (skip - 1)
      else if HasPrefix s old
      then new ++ replaceFrom s' old new (length old - 1)
      else c :: replaceFrom s' old new 0
  end.

Definition ReplaceAll (s old new : gostring) : gostring :=
  replaceFrom s old new 0.

(** [strings.Contains(s, substr)]. *)
Definition Contains (s substr : gostring) : bool := (0 <=? Index s substr)%Z.

(** [strings.HasSuffix(s, suffix)]. *)
Definition HasSuffix (s suffix : gostring) : bool :=
  (length suffix <=? length s)
  && bool_decide (drop (length s - length suffix) s = suffix).

(** [strings.TrimSuffix(s, suffix)]. *)
Definition TrimSuffix (s suffix : gostring) : gostring :=
  if HasSuffix s suffix then take (length s - length suffix) s else s.

End Strings.

(** ** [fmt.Sprintf] with the two formats of the parser *)
Module Fmt.

(** ["%d"] of a non-negative [int]. *)
Definition decimal (n : nat) : gostring :=
  list_ascii_of_string (NilEmpty.string_of_uint (Nat.to_uint n)).

(** [fmt.Sprintf("unnamed_%d", n)]. *)
Definition unnamed (n : nat) : gostring := "unnamed_" ++ decimal n.

(** [fmt.Sprintf("[%s](%s)", id, link)]. *)
Definition link (id target : gostring) : gostring :=
  "[" ++ id ++ "](" ++ target ++ ")".

(** ["%d"] of an [int]. *)
Definition decimalZ (n : Z) : gostring :=
  if (n <? 0)%Z then "-" ++ decimal (Z.to_nat (- n)) else decimal (Z.to_nat n).

End Fmt.

(** "\n", the line separator. *)
Definition nl : gostring := [ascii_of_nat 10].

(** ** The [regexp] package

    The four patterns of the parser are built from single-byte classes,
    concatenation, alternation, greedy repetition, one capturing group and
    the anchors [^] and [$]. All their classes and literals are ASCII, so
    matching bytes and matching runes agree. Go's matcher returns the
    leftmost match and, among the matches that start there, the one a
    backtracking matcher reaches first: [exec] is that backtracking
    matcher, written with a success continuation. *)
Module Regexp.

Inductive regex : Type :=
| Empty
| Class (p : ascii → bool)
| Cat (r1 r2 : regex)
| Alt (r1 r2 : regex)
| Star (r : regex)
| Group (r : regex)
| Bol
| Eol.

Definition Lit (c : ascii) : regex := Class (Ascii.eqb c).
Definition Plus (r : regex) : regex := Cat r (Star r).
Definition Str (s : gostring) : regex := foldr (λ c r, Cat (Lit c) r) Empty s.

(** A match in progress: the input still to read and the text of the
    capturing group, once it has closed. *)
Definition result : Type := gostring * option gostring.
Definition cont : Type := gostring → option gostring → option result.

(** Greedy repetition of [body]: one more round first, provided the round
    consumed input; the continuation when that fails. *)
Fixpoint starLoop (body : gostring → option gostring → cont → option result)
    (fuel : nat) (s : gostring) (cap : option gostring) (k : cont)
  : option result :=
  match fuel with
  | 0 => k s cap
  | S fuel' =>
      match body s cap (λ s' cap',
              if length s' <? length s then starLoop body fuel' s' cap' k
              else None) with
      | Some m => Some m
      | None => k s cap
      end
  end.

(** [exec r n0 s cap k]: match [r] at the head of [s], then go on with [k].
    [n0] is the length of the whole text, for [^]. *)
Fixpoint exec (r : regex) (n0 : nat) (s : gostring) (cap : option gostring)
    (k : cont) : option result :=
  match r with
  | Empty => k s cap
  | Class p =>
      match s with
      | c :: s' => if p c then k s' cap else None
      | [] => None
      end
  | Cat r1 r2 => exec r1 n0 s cap (λ s' cap', exec r2 n0 s' cap' k)
  | Alt r1 r2 =>
      match exec r1 n0 s cap k with
      | Some m => Some m
      | None => exec r2 n0 s cap k
      end
  | Star r' => starLoop (exec r' n0) (S (length s)) s cap k
  | Group r' =>
      exec r' n0 s cap (λ s' _, k s' (Some (take (length s - length s') s)))
  | Bol => if length s =? n0 then k s cap else None
  | Eol => match s with [] => k s cap | _ :: _ => None end
  end.

Definition matchAt (r : regex) (n0 : nat) (s : gostring) : option result :=
  exec r n0 s None (λ s' cap, Some (s', cap)).

(** A match found in a text: the text before it, the match, the text of
    the group and the text after the match. *)
Record found : Type := Found {
  before : gostring;
  matched : gostring;
  group : option gostring;
  after : gostring
}.

Definition skipByte (c : ascii) (f : found) : found :=
  Found (c :: before f) (matched f) (group f) (after f).

(** The leftmost match at or after the head of [s]. *)
Fixpoint search (r : regex) (n0 : nat) (s : gostring) : option found :=
  match matchAt r n0 s with
  | Some (rest, cap) =>
      Some (Found [] (take (length s - length rest) s) cap rest)
  | None =>
      match s with
      | [] => None
      | c :: s' => skipByte c <$> search r n0 s'
      end
  end.

(** [re.FindStringSubmatch(s)] for a pattern with one group: [nil] without
    a match, else the match and the text of the group. *)
Definition FindStringSubmatch (re : regex) (s : gostring) : list gostring :=
  match search re (length s) s with
  | None => []
  | Some f => [matched f; default [] (group f)]
  end.

(** The loop of [regexp.replaceAll]: the text before each match is copied,
    the match is replaced, and the search resumes after the match. An empty
    match is not replaced right after the previous match, and the search
    moves on by one byte after it. [s] is the text from the search
    position on; [afterMatch] tells that a match ended there. *)
Fixpoint replaceLoop (fuel : nat) (re : regex) (n0 : nat) (s : gostring)
    (afterMatch : bool) (repl : gostring → gostring) : gostring :=
  match fuel with
  | 0 => s
  | S fuel' =>
      match search re n0 s with
      | None => s
      | Some f =>
          match matched f with
          | [] =>
              before f
              ++ (if afterMatch && bool_decide (before f = []) then []
                  else repl [])
              ++ match after f with
                 | [] => []
                 | c :: rest => c :: replaceLoop fuel' re n0 rest false repl
                 end
          | _ :: _ =>
              before f ++ repl (matched f)
              ++ replaceLoop fuel' re n0 (after f) true repl
          end
      end
  end.

(** [re.ReplaceAllStringFunc(src, repl)]. *)
Definition ReplaceAllStringFunc (re : regex) (src : gostring)
    (repl : gostring → gostring) : gostring :=
  replaceLoop (S (length src)) re (length src) src false repl.

(** [re.ReplaceAllString(src, repl)] for a replacement text without [$]. *)
Definition ReplaceAllString (re : regex) (src repl : gostring) : gostring :=
  ReplaceAllStringFunc re src (λ _, repl).

(** The Perl classes of RE2: [\s] is [\t\n\f\r ] and [\w] is [0-9A-Za-z_]. *)
Definition perlSpace (c : ascii) : bool :=
  let n := nat_of_ascii c in
  (n =? 9) || (n =? 10) || (n =? 12) || (n =? 13) || (n =? 32).

Definition perlWord (c : ascii) : bool :=
  let n := nat_of_ascii c in
  ((48 <=? n) && (n <=? 57)) || ((65 <=? n) && (n <=? 90))
  || ((97 <=? n) && (n <=? 122)) || (n =? 95).

End Regexp.

(** ** Patterns with several groups

    The two patterns of [parseRemoteURL] have three capturing groups, a
    lazy repetition and an optional part; their classes and literals are
    ASCII. [exec] is the backtracking matcher again, with the texts of all
    the groups. *)
Module Submatch.

Inductive regex : Type :=
| Empty
| Class (p : ascii → bool)
| Cat (r1 r2 : regex)
| Star (r : regex)
| LazyStar (r : regex)
| Opt (r : regex)
| Group (n : nat) (r : regex)
| Eol.

Definition Lit (c : ascii) : regex := Class (Ascii.eqb c).
Definition Plus (r : regex) : regex := Cat r (Star r).
Definition LazyPlus (r : regex) : regex := Cat r (LazyStar r).
Definition Str (s : gostring) : regex := foldr (λ c r, Cat (Lit c) r) Empty s.

(** The texts of the groups that have closed, the latest first. *)
Definition groups : Type := list (nat * gostring).

Definition result : Type := gostring * groups.
Definition cont : Type := gostring → groups → option result.

(** Greedy repetition of [body]: one more round first, provided the round
    consumed input; the continuation when that fails. *)
Fixpoint starLoop (body : gostring → groups → cont → option result)
    (fuel : nat) (s : gostring) (caps : groups) (k : cont) : option result :=
  match fuel with
  | 0 => k s caps
  | S fuel' =>
      match body s caps (λ s' caps',
              if length s' <? length s then starLoop body fuel' s' caps' k
              else None) with
      | Some m => Some m
      | None => k s caps
      end
  end.

(** Lazy repetition of [body]: the continuation first; one more round when
    that fails. *)
Fixpoint lazyLoop (body : gostring → groups → cont → option result)
    (fuel : nat) (s : gostring) (caps : groups) (k : cont) : option result :=
  match fuel with
  | 0 => k s caps
  | S fuel' =>
      match k s caps with
      | Some m => Some m
      | None =>
          body s caps (λ s' caps',
            if length s' <? length s then lazyLoop body fuel' s' caps' k
            else None)
      end
  end.

(** [exec r s caps k]: match [r] at the head of [s], then go on with [k]. *)
Fixpoint exec (r : regex) (s : gostring) (caps : groups) (k : cont)
  : option result :=
  match r with
  | Empty => k s caps
  | Class p =>
      match s with
      | c :: s' => if p c then k s' caps else None
      | [] => None
      end
  | Cat r1 r2 => exec r1 s caps (λ s' caps', exec r2 s' caps' k)
  | Star r' => starLoop (exec r') (S (length s)) s caps k
  | LazyStar r' => lazyLoop (exec r') (S (length s)) s caps k
  | Opt r' =>
      match exec r' s caps k with
      | Some m => Some m
      | None => k s caps
      end
  | Group n r' =>
      exec r' s caps
        (λ s' caps', k s' ((n, take (length s - length s') s) :: caps'))
  | Eol => match s with [] => k s caps | _ :: _ => None end
  end.

Definition matchAt (r : regex) (s : gostring) : option result :=
  exec r s [] (λ s' caps, Some (s', caps)).

(** The leftmost match at or after the head of [s]: the text matched and
    the groups. *)
Fixpoint search (r : regex) (s : gostring) : option (gostring * groups) :=
  match matchAt r s with
  | Some (rest, caps) => Some (take (length s - length rest) s, caps)
  | None =>
      match s with
      | [] => None
      | _ :: s' => search r s'
      end
  end.

(** The text of group [n], empty for a group that took no part. *)
Fixpoint group (caps : groups) (n : nat) : gostring :=
  match caps with
  | [] => []
  | (m, t) :: caps' => if m =? n then t else group caps' n
  end.

(** [re.NumSubexp()] *)
Fixpoint NumSubexp (r : regex) : nat :=
  match r with
  | Empty | Class _ | Eol => 0
  | Cat r1 r2 => NumSubexp r1 + NumSubexp r2
  | Star r' | LazyStar r' | Opt r' => NumSubexp r'
  | Group _ r' => S (NumSubexp r')
  end.

(** [re.FindStringSubmatch(s)]: [nil] without a match, else the match and
    the texts of the groups [1], [2], ... *)
Definition FindStringSubmatch (re : regex) (s : gostring) : list gostring :=
  match search re s with
  | None => []
  | Some (m, caps) => m :: (group caps <$> seq 1 (NumSubexp re))
  end.

End Submatch.

(** ** The [git] package: the records and the links to the hosting site *)
Module Git.
Import Strings.

Record Author : Type := mkAuthor {
  Name : gostring;
  Email : gostring
}.

Record FileInfo : Type := mkFileInfo {
  LastCommitHash : gostring;
  LastCommitDate : gostring;
  LastCommitMessage : gostring;
  LastAuthorName : gostring;
  LastAuthorEmail : gostring;
  Authors : list Author;
  TotalCommits : Z
}.

Record RepoInfo : Type := mkRepoInfo {
  IsRepo : bool;
  RemoteURL : gostring;
  Provider : gostring;
  RepoOwner : gostring;
  RepoName : gostring;
  CurrentBranch : gostring;
  GitRoot : gostring
}.

Definition notSlash (c : ascii) : bool := negb (Ascii.eqb c "/").
Definition notColon (c : ascii) : bool := negb (Ascii.eqb c ":").

(** [`https?://([^/]+)/([^/]+)/([^/]+?)(?:\.git)?$`] *)
Definition httpsRe : Submatch.regex :=
  Submatch.Cat (Submatch.Str "http")
    (Submatch.Cat (Submatch.Opt (Submatch.Lit "s"))
       (Submatch.Cat (Submatch.Str "://")
          (Submatch.Cat
             (Submatch.Group 1 (Submatch.Plus (Submatch.Class notSlash)))
             (Submatch.Cat (Submatch.Lit "/")
                (Submatch.Cat
                   (Submatch.Group 2 (Submatch.Plus (Submatch.Class notSlash)))
                   (Submatch.Cat (Submatch.Lit "/")
                      (Submatch.Cat
                         (Submatch.Group 3
                            (Submatch.LazyPlus (Submatch.Class notSlash)))
                         (Submatch.Cat (Submatch.Opt (Submatch.Str ".git"))
                            Submatch.Eol)))))))).

(** [`git@([^:]+):([^/]+)/([^/]+?)(?:\.git)?$`] *)
Definition sshRe : Submatch.regex :=
  Submatch.Cat (Submatch.Str "git@")
    (Submatch.Cat
       (Submatch.Group 1 (Submatch.Plus (Submatch.Class notColon)))
       (Submatch.Cat (Submatch.Lit ":")
          (Submatch.Cat
             (Submatch.Group 2 (Submatch.Plus (Submatch.Class notSlash)))
             (Submatch.Cat (Submatch.Lit "/")
                (Submatch.Cat
                   (Submatch.Group 3
                      (Submatch.LazyPlus (Submatch.Class notSlash)))
                   (Submatch.Cat (Submatch.Opt (Submatch.Str ".git"))
                      Submatch.Eol)))))).

(** [parseRemoteURL]: the provider, the owner and the repository. *)
Definition parseRemoteURL (url : gostring)
  : gostring * gostring * gostring :=
  let matches := Submatch.FindStringSubmatch httpsRe url in
  if length matches =? 4 then
    let host := default [] (matches !! 1) in
    let owner := default [] (matches !! 2) in
    let repo := default [] (matches !! 3) in
    if Contains host "github.com" then ("github" : gostring, owner, repo)
    else if Contains host "gitlab.com" then ("gitlab" : gostring, owner, repo)
    else if Contains host "gitea" then ("gitea" : gostring, owner, repo)
    else ("other" : gostring, owner, repo)
  else
  let matches := Submatch.FindStringSubmatch sshRe url in
  if length matches =? 4 then
    let host := default [] (matches !! 1) in
    let owner := default [] (matches !! 2) in
    let repo := default [] (matches !! 3) in
    if Contains host "github.com" then ("github" : gostring, owner, repo)
    else if Contains host "gitlab.com" then ("gitlab" : gostring, owner, repo)
    else if Contains host "gitea" then ("gitea" : gostring, owner, repo)
    else ("other" : gostring, owner, repo)
  else ("unknown" : gostring, [], []).

(** [detectRepoInfo]. [gitDir] tells that [git rev-parse --git-dir] ran
    without error; [toplevel], [branch] and [remote] stand for the outputs
    of the three other commands, [None] where a command fails. *)
Definition detectRepoInfo (gitDir : bool)
    (toplevel branch remote : option gostring) (repoPath : gostring)
  : RepoInfo :=
  if negb gitDir then mkRepoInfo false [] [] [] [] [] [] else
  let root :=
    match toplevel with
    | Some out => TrimSpace out
    | None => repoPath
    end in
  let currentBranch :=
    match branch with
    | Some out => TrimSpace out
    | None => []
    end in
  match remote with
  | None => mkRepoInfo true [] [] [] [] currentBranch root
  | Some out =>
      let url := TrimSpace out in
      let '(provider, owner, repo) := parseRemoteURL url in
      mkRepoInfo true url provider owner repo currentBranch root
  end.

(** Equality of two Go strings, as a test. *)
Definition streq (a b : gostring) : bool := bool_decide (a = b).

(** [GetCommitURL] *)
Definition GetCommitURL (repoInfo : RepoInfo) (commitHash : gostring)
  : gostring :=
  if streq (Provider repoInfo) "unknown" || streq (RepoOwner repoInfo) ""
     || streq (RepoName repoInfo) ""
  then []
  else if streq (Provider repoInfo) "github" then
    "https://github.com/" ++ RepoOwner repoInfo ++ "/" ++ RepoName repoInfo
    ++ "/commit/" ++ commitHash
  else if streq (Provider repoInfo) "gitlab" then
    "https://gitlab.com/" ++ RepoOwner repoInfo ++ "/" ++ RepoName repoInfo
    ++ "/-/commit/" ++ commitHash
  else if streq (Provider repoInfo) "gitea" then
    "https://" ++ "gitea.com" ++ "/" ++ RepoOwner repoInfo ++ "/"
    ++ RepoName repoInfo ++ "/commit/" ++ commitHash
  else [].

(** [GetFileURL] *)
Definition GetFileURL (repoInfo : RepoInfo) (commitHash filePath : gostring)
  : gostring :=
  if streq (Provider repoInfo) "unknown" || streq (RepoOwner repoInfo) ""
     || streq (RepoName repoInfo) ""
  then []
  else if streq (Provider repoInfo) "github" then
    "https://github.com/" ++ RepoOwner repoInfo ++ "/" ++ RepoName repoInfo
    ++ "/blob/" ++ commitHash ++ "/" ++ filePath
  else if streq (Provider repoInfo) "gitlab" then
    "https://gitlab.com/" ++ RepoOwner repoInfo ++ "/" ++ RepoName repoInfo
    ++ "/-/blob/" ++ commitHash ++ "/" ++ filePath
  else [].

Section Avatar.
(** [strings.ToLower] and the hexadecimal MD5 digest
    [fmt.Sprintf("%x", md5.Sum([]byte(s)))] are taken as they are. *)
Variable ToLower : gostring → gostring.
Variable md5hex : gostring → gostring.

(** [getGravatarURL] *)
Definition getGravatarURL (email : gostring) (size : Z) : gostring :=
  let email := ToLower (TrimSpace email) in
  let hash := md5hex email in
  "https://www.gravatar.com/avatar/" ++ hash ++ "?s=" ++ Fmt.decimalZ size
  ++ "&d=identicon".

(** [GetAvatarURL]; the three cases of its [switch] end in the same call. *)
Definition GetAvatarURL (repoInfo : RepoInfo) (author : Author) (size : Z)
  : gostring :=
  if streq (Provider repoInfo) "github" then
    if HasSuffix (Email author) "@users.noreply.github.com" then
      let parts := Split (Email author) "@" in
      if 0 <? length parts then
        let userPart := default [] (parts !! 0) in
        let idx := Index userPart "+" in
        if negb (idx =? -1)%Z then
          let username := drop (Z.to_nat (idx + 1)) userPart in
          "https://github.com/" ++ username ++ ".png?size=" ++ Fmt.decimalZ size
        else getGravatarURL (Email author) size
      else getGravatarURL (Email author) size
    else getGravatarURL (Email author) size
  else if streq (Provider repoInfo) "gitlab" then
    getGravatarURL (Email author) size
  else getGravatarURL (Email author) size.

End Avatar.

(** The two errors of [GetFileInfo]. *)
Inductive FileInfoError : Type :=
  | LastCommitFailed
  | NoHistory.

Section Log.
(** The authors that the last loop of [GetFileInfo] reads from the output
    of [git shortlog], by its pattern and through a map whose order of
    iteration Go leaves open, are taken as they are. *)
Variable authorsOf : gostring → list Author.

(** [GetFileInfo]. [lastCommit], [followLog] and [shortLog] stand for the
    outputs of the three [git] commands, [None] where a command fails. *)
Definition GetFileInfo (lastCommit followLog shortLog : option gostring)
  : FileInfoError + FileInfo :=
  match lastCommit with
  | None => inl LastCommitFailed
  | Some out =>
      if length out =? 0 then inl NoHistory else
      let parts := Split (TrimSpace out) "|" in
      let info :=
        if 5 <=? length parts
        then mkFileInfo (default [] (parts !! 0)) (default [] (parts !! 3))
               (default [] (parts !! 4)) (default [] (parts !! 1))
               (default [] (parts !! 2)) [] 0
        else mkFileInfo [] [] [] [] [] [] 0 in
      let info :=
        match followLog with
        | Some out =>
            let lines := Split (TrimSpace out) nl in
            mkFileInfo (LastCommitHash info) (LastCommitDate info)
              (LastCommitMessage info) (LastAuthorName info)
              (LastAuthorEmail info) (Authors info) (Z.of_nat (length lines))
        | None => info
        end in
      let info :=
        match shortLog with
        | Some out =>
            mkFileInfo (LastCommitHash info) (LastCommitDate info)
              (LastCommitMessage info) (LastAuthorName info)
              (LastAuthorEmail info) (Authors info ++ authorsOf out)
              (TotalCommits info)
        | None => info
        end in
      inr info
  end.

End Log.

End Git.

(** ** The parser *)
Module Parser.
Import Strings Regexp.

Record Element : Type := mkElement {
  ID : gostring;
  Description : gostring;
  Signature : gostring
}.

(** [`\s*{$`] *)
Definition braceRe : regex :=
  Cat (Star (Class perlSpace)) (Cat (Lit "{") Eol).

(** [`^(?:class|struct)\s+(\w+)`] *)
Definition classRe : regex :=
  Cat Bol (Cat (Alt (Str "class") (Str "struct"))
             (Cat (Plus (Class perlSpace)) (Group (Plus (Class perlWord))))).

(** [`(\w+)\s*\(`] *)
Definition funcRe : regex :=
  Cat (Group (Plus (Class perlWord)))
      (Cat (Star (Class perlSpace)) (Lit "(")).

(** [`\[([^\]]+)\]`] *)
Definition linkRe : regex :=
  Cat (Lit "[")
      (Cat (Group (Plus (Class (λ c, negb (Ascii.eqb c "]"))))) (Lit "]")).

(** [extractIDFromSig] *)
Definition extractIDFromSig (sig : gostring) : gostring :=
  let matches := FindStringSubmatch classRe sig in
  if 1 <? length matches then default [] (matches !! 1) else
  let matches := FindStringSubmatch funcRe sig in
  if 1 <? length matches then default [] (matches !! 1) else
  let words := Fields sig in
  if 0 <? length words then default [] (words !! 0) else
  [].

(** [ProcessBacklinks]; [prefix] is not used by the function. *)
Definition ProcessBacklinks (desc : gostring)
    (linkIndex : gmap gostring gostring) (prefix : gostring) : gostring :=
  ReplaceAllStringFunc linkRe desc (λ match_,
    let submatch := FindStringSubmatch linkRe match_ in
    if length submatch =? 2 then
      let targetID := default [] (submatch !! 1) in
      match linkIndex !! targetID with
      | Some link => Fmt.link targetID link
      | None => match_
      end
    else match_).

(** The test [strings.HasPrefix(strings.TrimSpace(line), prefix)]. *)
Definition isDoc (prefix line : gostring) : bool :=
  HasPrefix (TrimSpace line) prefix.

(** The test under [if ignoreIndented]:
    [prefixPos > 0 && strings.TrimSpace(line[:prefixPos]) == ""]. *)
Definition indented (prefix line : gostring) : bool :=
  let prefixPos := Index line prefix in
  (0 <? prefixPos)%Z
  && bool_decide (TrimSpace (take (Z.to_nat prefixPos) line) = []).

(** [content]: the trimmed line after the prefix, less one leading space. *)
Definition content (prefix line : gostring) : gostring :=
  let content := drop (length prefix) (TrimSpace line) in
  match content with
  | c :: content' => if Ascii.eqb c " " then content' else content
  | [] => content
  end.

(** The test [strings.TrimSpace(line) == ""]. *)
Definition blank (line : gostring) : bool :=
  bool_decide (TrimSpace line = []).

(** The loop of [extractTopComment]; [lines] stands for [lines[i:]]. *)
Fixpoint topLoop (lines : list gostring) (prefix : gostring)
    (ignoreIndented : bool) (desc : list gostring)
  : list gostring * list gostring :=
  match lines with
  | [] => (desc, [])
  | line :: rest =>
      if negb (isDoc prefix line) then (desc, lines)
      else if ignoreIndented && indented prefix line
      then topLoop rest prefix ignoreIndented desc
      else topLoop rest prefix ignoreIndented (desc ++ [content prefix line])
  end.

(** [extractTopComment] *)
Definition extractTopComment (lines : list gostring) (prefix : gostring)
    (ignoreIndented : bool) : gostring * list gostring :=
  let (desc, rest) := topLoop lines prefix ignoreIndented [] in
  (Join desc nl, rest).

(** The inner loop of [extractElements] that collects a description. *)
Fixpoint collectDesc (lines : list gostring) (prefix : gostring)
    (desc : list gostring) : list gostring * list gostring :=
  match lines with
  | [] => (desc, [])
  | line :: rest =>
      if negb (isDoc prefix line) then (desc, lines)
      else collectDesc rest prefix (desc ++ [content prefix line])
  end.

(** The loop that skips blank and comment lines before the signature. *)
Fixpoint skipGap (lines : list gostring) (prefix : gostring)
  : list gostring :=
  match lines with
  | [] => []
  | line :: rest =>
      if blank line || isDoc prefix line then skipGap rest prefix else lines
  end.

(** The signature and what follows it. *)
Definition captureSig (lines : list gostring) : gostring * list gostring :=
  match lines with
  | line :: rest =>
      if negb (blank line)
      then (ReplaceAllString braceRe (TrimSpace line) [], rest)
      else ([], lines)
  | [] => ([], [])
  end.

(** One round of the outer loop of [extractElements], entered with
    [i < len(lines)]. *)
Definition iteration (lines : list gostring) (prefix : gostring)
    (ignoreIndented : bool) (elements : list Element)
  : list Element * list gostring :=
  match lines with
  | [] => (elements, [])
  | line :: rest =>
      if negb (isDoc prefix line) then (elements, rest)
      else if ignoreIndented && indented prefix line then (elements, rest)
      else
        let (desc, lines1) := collectDesc lines prefix [] in
        if length desc =? 0 then (elements, lines1) else
        let descMD := Join desc nl in
        let lines2 := skipGap lines1 prefix in
        let (sig, lines3) := captureSig lines2 in
        let id := extractIDFromSig sig in
        let id := if bool_decide (id = [])
                  then Fmt.unnamed (length elements) else id in
        (elements ++ [mkElement id descMD sig], lines3)
  end.

(** The outer loop; it stops when the input is used up. *)
Fixpoint elementsLoop (fuel : nat) (lines : list gostring)
    (prefix : gostring) (ignoreIndented : bool) (elements : list Element)
  : list Element * list gostring :=
  match fuel with
  | 0 => (elements, lines)
  | S fuel' =>
      match lines with
      | [] => (elements, [])
      | _ :: _ =>
          let (elements', rest) :=
            iteration lines prefix ignoreIndented elements in
          elementsLoop fuel' rest prefix ignoreIndented elements'
      end
  end.

(** [extractElements]; every round uses up a line, so [len(lines)] rounds
    are enough (see [extractElements_terminates]). *)
Definition extractElements (lines : list gostring) (prefix : gostring)
    (ignoreIndented : bool) : list Element * list gostring :=
  elementsLoop (length lines) lines prefix ignoreIndented [].

(** [File]; [GitInfo] is [nil] as long as no metadata was found. *)
Record File : Type := mkFile {
  Language : gostring;
  Path : gostring;
  ModuleDesc : gostring;
  Elements : list Element;
  GitInfo : option Git.FileInfo
}.

(** [ParseFile]. [readFile] stands for [os.ReadFile]: the text of the file
    or, with [None], an error. The file record is updated in place, so the
    function returns it with the error, [true] for [err != nil]. *)
Definition ParseFile (readFile : gostring → option gostring)
    (filePath : gostring) (f : File) (docPrefix : gostring)
    (ignoreIndented : bool) : File * bool :=
  let f := mkFile (Language f) filePath (ModuleDesc f) (Elements f) (GitInfo f) in
  match readFile filePath with
  | None => (f, true)
  | Some data =>
      let lines := Split data nl in
      let (desc, lines) := extractTopComment lines docPrefix ignoreIndented in
      let (elements, _) := extractElements lines docPrefix ignoreIndented in
      (mkFile (Language f) (Path f) desc elements (GitInfo f), false)
  end.

End Parser.

(** ** The command [generate]: the index of the links and the pass over
    the descriptions *)
Module Generate.
Import Strings Parser.

Section Paths.
(** [filepath.Rel] (its error is dropped by the caller), [filepath.Join],
    [filepath.ToSlash], [filepath.Ext], [filepath.Base] and
    [strings.ToLower] are taken as they are. *)
Variable Rel : gostring → gostring → gostring.
Variable JoinPath : gostring → gostring → gostring.
Variable ToSlash : gostring → gostring.
Variable Ext : gostring → gostring.
Variable Base : gostring → gostring.
Variable ToLower : gostring → gostring.

(** [outputFilename] *)
Definition outputFilename (scan_root file_path out_path ext : gostring)
  : gostring :=
  let rel := Rel scan_root file_path in
  let rel_no_ext := TrimSuffix rel ext in
  let out_rel := JoinPath out_path (rel_no_ext ++ ".md") in
  ToSlash out_rel.

(** The loop that fills [linkIndex]: one entry for every element of every
    file, a later entry replacing an earlier one with the same identifier. *)
Definition indexElement (outFile : gostring)
    (linkIndex : gmap gostring gostring) (e : Element)
  : gmap gostring gostring :=
  let headerID := ToLower (ReplaceAll (ID e) " " "-") in
  <[ID e := Base outFile ++ "#" ++ headerID]> linkIndex.

Definition indexFile (scan_root out : gostring)
    (linkIndex : gmap gostring gostring) (f : File)
  : gmap gostring gostring :=
  let outFile := outputFilename scan_root (Path f) out (Ext (Path f)) in
  foldl (indexElement outFile) linkIndex (Elements f).

Definition buildLinkIndex (scan_root out : gostring) (files : list File)
  : gmap gostring gostring :=
  foldl (indexFile scan_root out) ∅ files.

End Paths.

(** The loop that resolves the links of every description. *)
Definition resolveElement (linkIndex : gmap gostring gostring)
    (docComment : gostring) (e : Element) : Element :=
  mkElement (ID e)
    (ProcessBacklinks (Description e) linkIndex docComment) (Signature e).

Definition resolveFile (linkIndex : gmap gostring gostring)
    (docComment : gostring) (f : File) : File :=
  mkFile (Language f) (Path f)
    (ProcessBacklinks (ModuleDesc f) linkIndex docComment)
    (resolveElement linkIndex docComment <$> Elements f) (GitInfo f).

Definition resolveBacklinks (linkIndex : gmap gostring gostring)
    (docComment : gostring) (files : list File) : list File :=
  resolveFile linkIndex docComment <$> files.

End Generate.

Import Strings Regexp Parser.

(** * Vocabulary of the statements *)

(** Lines given as Rocq string literals. *)
Definition golines (l : list string) : list gostring :=
  list_ascii_of_string <$> l.

(** ** Lists *)

(** The longest prefix of [l] whose elements satisfy [p], and the rest. *)
Fixpoint takeWhile {A} (p : A → bool) (l : list A) : list A :=
  match l with
  | x :: l' => if p x then x :: takeWhile p l' else []
  | [] => []
  end.

Fixpoint dropWhile {A} (p : A → bool) (l : list A) : list A :=
  match l with
  | x :: l' => if p x then dropWhile p l' else l
  | [] => []
  end.

(** [startsWith p l]: [l] is not empty and its first element satisfies [p]. *)
Definition startsWith {A} (p : A → bool) (l : list A) : bool :=
  match l with
  | x :: _ => p x
  | [] => false
  end.

(** A comment line that the indentation policy leaves out. *)
Definition excluded (prefix : gostring) (ignoreIndented : bool)
    (line : gostring) : bool :=
  ignoreIndented && indented prefix line.

(** ** One round of the outer loop of [extractElements] *)

(** What a round does when it finds the first line of a run: the run is
    collected whole, the gap is skipped, the signature is read and an
    element is appended. *)
Definition emitted (lines : list gostring) (prefix : gostring)
    (elements : list Element) : list Element * list gostring :=
  let run := takeWhile (isDoc prefix) lines in
  let sigRest := captureSig (skipGap (dropWhile (isDoc prefix) lines) prefix) in
  let id := extractIDFromSig sigRest.1 in
  (elements ++ [mkElement
                  (if bool_decide (id = [])
                   then Fmt.unnamed (length elements) else id)
                  (Join (content prefix <$> run) nl)
                  sigRest.1],
   sigRest.2).

(** ** The outer loop *)

(** The loop run from [lines] with the elements found so far, with the
    fuel [extractElements] gives it. *)
Definition loopFrom (lines : list gostring) (prefix : gostring)
    (ignoreIndented : bool) (elements : list Element)
  : list Element * list gostring :=
  elementsLoop (length lines) lines prefix ignoreIndented elements.

(** [fromRun prefix all e]: the element [e] comes from a non-empty run of
    comment lines of [all] that ends where the comment lines end; its
    description is made of the lines of the run and its signature is read
    after the run. *)
Definition fromRun (prefix : gostring) (all : list gostring) (e : Element)
  : Prop :=
  ∃ pre run post,
    all = pre ++ run ++ post
    ∧ run ≠ []
    ∧ Forall (λ l, isDoc prefix l = true) run
    ∧ startsWith (isDoc prefix) post = false
    ∧ Description e = Join (content prefix <$> run) nl
    ∧ Signature e = (captureSig (skipGap post prefix)).1.

(** ** The matcher *)

(** A continuation that cannot go on with a byte of the class [p]. *)
Definition exclusive (p : ascii → bool) (k : cont) : Prop :=
  ∀ c s cap, p c = true → k (c :: s) cap = None.

(** ** Bracketed tokens: the pattern of [ProcessBacklinks] *)

(** The class [[^\]]]. *)
Definition notClose (c : ascii) : bool := negb (Ascii.eqb c "]").

(** The text of a bracketed token: not empty, without a closing bracket. *)
Definition token (t : gostring) : Prop := t ≠ [] ∧ "]"%char ∉ t.

(** [s] starts with a bracketed token. *)
Definition startsToken (s : gostring) : Prop :=
  ∃ t rest, token t ∧ s = "["%char :: t ++ "]"%char :: rest.

(** No bracketed token starts inside [out] when [next] follows it. *)
Definition outside (out next : gostring) : Prop :=
  ∀ a b, out = a ++ b → b ≠ [] → ¬ startsToken (b ++ next).

(** The pattern at the head of [s], computed directly: an opening
    bracket, the longest run of bytes other than the closing bracket, not
    empty, and a closing bracket. *)
Definition linkAt (s : gostring) : option result :=
  match s with
  | c :: s' =>
      if Ascii.eqb "[" c then
        if startsWith notClose s' then
          match dropWhile notClose s' with
          | d :: rest =>
              if Ascii.eqb "]" d
              then Some (rest, Some (takeWhile notClose s')) else None
          | [] => None
          end
        else None
      else None
  | [] => None
  end.

(** [outside], as a test. *)
Fixpoint outsideb (out next : gostring) : bool :=
  match out with
  | [] => true
  | c :: out' =>
      match linkAt (out ++ next) with
      | None => outsideb out' next
      | Some _ => false
      end
  end.

(** The function [ProcessBacklinks] hands to [ReplaceAllStringFunc]. *)
Definition backlink (linkIndex : gmap gostring gostring) (match_ : gostring)
  : gostring :=
  let submatch := FindStringSubmatch linkRe match_ in
  if length submatch =? 2 then
    let targetID := default [] (submatch !! 1) in
    match linkIndex !! targetID with
    | Some link => Fmt.link targetID link
    | None => match_
    end
  else match_.

(** ** A pattern that ends with a repetition *)

(** A continuation that accepts whatever is left. *)
Definition total (k : cont) : Prop := ∀ s cap, k s cap ≠ None.

(** ** The pattern that removes the opening brace *)

(** The pattern at the head of [s], computed directly: white space or
    none, then an opening brace that ends the text. *)
Definition braceAt (s : gostring) : option result :=
  match dropWhile perlSpace s with
  | [d] => if Ascii.eqb "{" d then Some ([], None) else None
  | _ => None
  end.

(** ** The pattern for [class] and [struct] *)

(** After the keyword: white space, then a word, which is captured. *)
Definition spaceWord (s : gostring) : option result :=
  if startsWith perlSpace s then
    let s' := dropWhile perlSpace s in
    if startsWith perlWord s'
    then Some (dropWhile perlWord s', Some (takeWhile perlWord s'))
    else None
  else None.

(** The pattern at the head of [s], computed directly. *)
Definition classAt (s : gostring) : option result :=
  if HasPrefix s "class" then spaceWord (drop 5 s)
  else if HasPrefix s "struct" then spaceWord (drop 6 s)
  else None.

(** ** The leftmost match, for a pattern whose match at the head of a
    text is computed by [at_] *)

(** [at_] finds nothing at the positions inside [out] when [next] follows. *)
Definition noMatch (at_ : gostring → option result) (out next : gostring)
  : Prop :=
  ∀ a b, out = a ++ b → b ≠ [] → at_ (b ++ next) = None.

(** [noMatch], as a test. *)
Fixpoint noMatchb (at_ : gostring → option result) (out next : gostring)
  : bool :=
  match out with
  | [] => true
  | _ :: out' =>
      match at_ (out ++ next) with
      | None => noMatchb at_ out' next
      | Some _ => false
      end
  end.

(** ** The pattern for a call: a word, white space, an opening parenthesis *)

(** The pattern at the head of [s], computed directly: the longest run
    of word bytes, not empty, white space or none, an opening parenthesis. *)
Definition funcAt (s : gostring) : option result :=
  if startsWith perlWord s then
    match dropWhile perlSpace (dropWhile perlWord s) with
    | d :: rest =>
        if Ascii.eqb "(" d then Some (rest, Some (takeWhile perlWord s))
        else None
    | [] => None
    end
  else None.

(** ** The rules of [extractIDFromSig] *)

(** [sig] starts like [class Name] or [struct Name]; [id] is the name. *)
Definition classMatch (sig id : gostring) : Prop :=
  ∃ kw ws rest,
    (kw = ("class" : gostring) ∨ kw = ("struct" : gostring))
    ∧ ws ≠ [] ∧ Forall (λ c, perlSpace c = true) ws
    ∧ id ≠ [] ∧ Forall (λ c, perlWord c = true) id
    ∧ startsWith perlWord rest = false
    ∧ sig = kw ++ ws ++ id ++ rest.

(** [s] starts with the word [id], white space or none, and an opening
    parenthesis. *)
Definition callAt (s id : gostring) : Prop :=
  ∃ ws rest,
    id ≠ [] ∧ Forall (λ c, perlWord c = true) id
    ∧ Forall (λ c, perlSpace c = true) ws
    ∧ s = id ++ ws ++ "(" ++ rest.

(** [id] is the word of the first call in [sig]: no call starts before. *)
Definition firstCall (sig id : gostring) : Prop :=
  ∃ pre tail,
    sig = pre ++ tail ∧ callAt tail id
    ∧ ∀ a b, pre = a ++ b → b ≠ [] → ¬ ∃ id', callAt (b ++ tail) id'.

(** ** Removing the opening brace *)

(** [endsWith p l]: [l] is not empty and its last element satisfies [p]. *)
Definition endsWith {A} (p : A → bool) (l : list A) : bool :=
  match last l with
  | Some x => p x
  | None => false
  end.

(** ** Runs of comment lines in a file *)

(** A run of comment lines, the line of the signature and the lines up to
    the next run. *)
Record docPair : Type := DocPair {
  run : list gostring;
  sigLine : gostring;
  trailing : list gostring
}.

(** The lines of a file made of such pairs after the lines [leading]. *)
Definition layout (leading : list gostring) (pairs : list docPair)
  : list gostring :=
  leading ++ concat ((λ b, run b ++ sigLine b :: trailing b) <$> pairs).

(** The run is not empty and made of comment lines, the line of the
    signature is neither blank nor a comment line, and no comment line
    follows before the next pair. *)
Definition wellFormed (prefix : gostring) (b : docPair) : Prop :=
  run b ≠ []
  ∧ Forall (λ l, isDoc prefix l = true) (run b)
  ∧ isDoc prefix (sigLine b) = false
  ∧ blank (sigLine b) = false
  ∧ Forall (λ l, isDoc prefix l = false) (trailing b).

(** The description and the signature the pair stands for. *)
Definition pairDescription (prefix : gostring) (b : docPair) : gostring :=
  Join (content prefix <$> run b) nl.

Definition pairSignature (b : docPair) : gostring :=
  ReplaceAllString braceRe (TrimSpace (sigLine b)) [].

Definition pairElement (prefix : gostring) (k : nat) (b : docPair) : Element :=
  let id := extractIDFromSig (pairSignature b) in
  mkElement (if bool_decide (id = []) then Fmt.unnamed k else id)
            (pairDescription prefix b) (pairSignature b).

Definition emitAll (prefix : gostring) (elements : list Element)
    (pairs : list docPair) : list Element :=
  foldl (λ els b, els ++ [pairElement prefix (length els) b]) elements pairs.

(** ** Fields *)

(** A byte that can start the encoding of a white-space rune. *)
Definition spaceLead (c : ascii) : bool :=
  asciiSpace c || byte_is c 194 || byte_is c 225 || byte_is c 226
  || byte_is c 227.

(** [sp] is made of white-space runes. *)
Definition whitespace (sp : gostring) : Prop :=
  ∃ runes, Forall (λ r, spaceRune r = Some []) runes ∧ sp = concat runes.

(** ** Elements of a file made of runs and signatures *)

(** The claim C1 as it is stated, whatever the indentation policy. *)
Definition pairs_yield_elements : Prop :=
  ∀ (prefix : gostring) (ign : bool) (leading : list gostring)
    (pairs : list docPair),
    Forall (λ l, isDoc prefix l = false) leading →
    Forall (wellFormed prefix) pairs →
    (λ e, (Description e, Signature e))
      <$> (extractElements (layout leading pairs) prefix ign).1
    = (λ b, (pairDescription prefix b, pairSignature b)) <$> pairs.

(** ** The text kept from a comment line *)

(** The line as the claim C8 describes its stored form: the source line
    without the prefix and without the one space that may follow the
    prefix, everything else as it is. *)
Definition withoutPrefix (prefix line : gostring) : gostring :=
  let pos := Z.to_nat (Index line prefix) in
  let after := drop (pos + length prefix) line in
  take pos line
  ++ match after with
     | c :: after' => if Ascii.eqb c " " then after' else after
     | [] => []
     end.

(** The claim C8 as it is stated, for both loops that collect lines. *)
Definition stored_line_verbatim : Prop :=
  ∀ prefix line : gostring,
    isDoc prefix line = true →
    topLoop [line] prefix false [] = ([withoutPrefix prefix line], [])
    ∧ collectDesc [line] prefix [] = ([withoutPrefix prefix line], []).

(** ** Runs without a signature *)

(** The claim C9 as it is stated: a run followed by blank or comment lines
    only, up to the end of the input, gives no element. *)
Definition run_without_signature_yields_nothing : Prop :=
  ∀ (prefix : gostring) (ign : bool) (comments rest : list gostring),
    comments ≠ [] →
    Forall (λ l, isDoc prefix l = true) comments →
    Forall (λ l, blank l || isDoc prefix l = true) rest →
    (extractElements (comments ++ rest) prefix ign).1 = [].

(** A line the seek stage of [extractElements] passes over: it is not a
    comment line, or it is an indented comment line and the policy
    excludes these. *)
Definition skipped (prefix : gostring) (ign : bool) (line : gostring)
  : bool :=
  negb (isDoc prefix line && negb (excluded prefix ign line)).

(** A line of code: neither blank nor a comment line. *)
Definition codeLine (prefix line : gostring) : bool :=
  negb (blank line) && negb (isDoc prefix line).

(** After the lines [before] the outer loop starts a round: they are
    lines the seek stage passes over, or they hold a line of code after
    which only such lines follow. *)
Definition roundStart (prefix : gostring) (ign : bool)
    (before : list gostring) : Prop :=
  ∃ pre junk,
    before = pre ++ junk
    ∧ Forall (λ l, skipped prefix ign l = true) junk
    ∧ (pre = [] ∨ ∃ p code, pre = p ++ [code] ∧ codeLine prefix code = true).

(** ** The identifiers of the elements *)

(** The identifier the loop gives to the element at position [k] with the
    signature [sig]. *)
Definition identifierAt (k : nat) (sig : gostring) : gostring :=
  if bool_decide (extractIDFromSig sig = [])
  then Fmt.unnamed k else extractIDFromSig sig.

(** ** The shape of an identifier *)

(** [id] is a contiguous part of [s]. *)
Definition partOf (id s : gostring) : Prop := ∃ a b, s = a ++ id ++ b.

(** A text without any of the six ASCII white-space bytes. *)
Definition spaceFree (s : gostring) : Prop :=
  Forall (λ c, asciiSpace c = false) s.

(** ** What [GetFileInfo] reads from the log *)

(** The bytes other than the separator [c]. *)
Definition notSep (c d : ascii) : bool := negb (Ascii.eqb d c).

(** ** The matcher with several groups *)

(** A continuation that cannot go on with a byte of the class [p]. *)
Definition exclusiveOf (p : ascii → bool) (k : Submatch.cont) : Prop :=
  ∀ c s caps, p c = true → k (c :: s) caps = None.

(** The continuation that accepts. *)
Definition accept : Submatch.cont := λ s caps, Some (s, caps).

(** The lazy repetition of a class, computed directly: the first place,
    after bytes of the class, where what follows matches. *)
Fixpoint lazyAt (p : ascii → bool) (k : gostring → option Submatch.result)
    (s : gostring) : option Submatch.result :=
  match k s with
  | Some m => Some m
  | None =>
      match s with
      | c :: s' => if p c then lazyAt p k s' else None
      | [] => None
      end
  end.

(** ** The two patterns of [parseRemoteURL] *)

(** What both patterns end with: [([^/]+)/([^/]+?)(?:\.git)?$]. *)
Definition pathRe : Submatch.regex :=
  Submatch.Cat
    (Submatch.Group 2 (Submatch.Plus (Submatch.Class Git.notSlash)))
    (Submatch.Cat (Submatch.Lit "/")
       (Submatch.Cat
          (Submatch.Group 3 (Submatch.LazyPlus (Submatch.Class Git.notSlash)))
          (Submatch.Cat (Submatch.Opt (Submatch.Str ".git")) Submatch.Eol))).

(** A part of a path: not empty, without slash. *)
Definition segment (t : gostring) : Prop := t ≠ [] ∧ "/"%char ∉ t.

(** The host, its separator and the path: [([^/]+)/...] after the scheme,
    [([^:]+):...] after [git@]. *)
Definition authorityRe (p : ascii → bool) (sep : ascii) : Submatch.regex :=
  Submatch.Cat (Submatch.Group 1 (Submatch.Plus (Submatch.Class p)))
    (Submatch.Cat (Submatch.Lit sep) pathRe).

(** ** The leftmost match *)

(** A colon with a slash after it, somewhere in the text. *)
Fixpoint colonSlash (s : gostring) : bool :=
  match s with
  | c :: s' =>
      (Ascii.eqb c ":" && match s' with
                          | d :: _ => Ascii.eqb d "/"
                          | [] => false
                          end)
      || colonSlash s'
  | [] => false
  end.

(** ** [parseRemoteURL] *)

(** The provider [parseRemoteURL] reads from the name of the host. *)
Definition hostProvider (host : gostring) : gostring :=
  if Contains host "github.com" then "github"
  else if Contains host "gitlab.com" then "gitlab"
  else if Contains host "gitea" then "gitea"
  else "other".

(** * Facts *)

(** ** Lists *)

Section ListFacts.
Context {A : Type} (p : A → bool).

Lemma takeWhile_dropWhile (l : list A) : takeWhile p l ++ dropWhile p l = l.
Proof. induction l as [|x l IH]; simpl; [done|]. destruct (p x); simpl; congruence. Qed.

Lemma takeWhile_Forall (l : list A) : Forall (λ x, p x = true) (takeWhile p l).
Proof.
  induction l as [|x l IH]; simpl; [constructor|].
  destruct (p x) eqn:E; constructor; done.
Qed.

Lemma dropWhile_head (l : list A) : startsWith p (dropWhile p l) = false.
Proof.
  induction l as [|x l IH]; simpl; [done|].
  destruct (p x) eqn:E; simpl; [done|]. by rewrite E.
Qed.

Lemma takeWhile_app_stop (run rest : list A) :
  Forall (λ x, p x = true) run → startsWith p rest = false →
  takeWhile p (run ++ rest) = run ∧ dropWhile p (run ++ rest) = rest.
Proof.
  intros Hrun Hrest. induction Hrun as [|x run Hx _ [IH1 IH2]]; simpl.
  - destruct rest as [|y rest]; simpl in *; [done|]. by rewrite Hrest.
  - rewrite Hx. by rewrite IH1, IH2.
Qed.

Lemma take_length_dropWhile (l : list A) :
  take (length l - length (dropWhile p l)) l = takeWhile p l.
Proof.
  rewrite <- (takeWhile_dropWhile l) at 1 3.
  rewrite length_app.
  replace (length (takeWhile p l) + length (dropWhile p l)
           - length (dropWhile p l)) with (length (takeWhile p l)) by lia.
  by rewrite take_app_length.
Qed.
End ListFacts.

(** ** The two inner loops and the loop of [extractTopComment] *)

Lemma topLoop_spec (lines : list gostring) prefix ign desc :
  topLoop lines prefix ign desc
  = (desc ++ (content prefix <$>
                List.filter (λ l, negb (excluded prefix ign l))
                            (takeWhile (isDoc prefix) lines)),
     dropWhile (isDoc prefix) lines).
Proof.
  revert desc. induction lines as [|line rest IH]; intros desc; simpl.
  - by rewrite app_nil_r.
  - destruct (isDoc prefix line) eqn:Hdoc; simpl.
    + unfold excluded at 1.
      destruct (ign && indented prefix line) eqn:Hex; simpl.
      * apply IH.
      * rewrite IH. by rewrite <- app_assoc.
    + by rewrite app_nil_r.
Qed.

Lemma collectDesc_spec (lines : list gostring) prefix desc :
  collectDesc lines prefix desc
  = (desc ++ (content prefix <$> takeWhile (isDoc prefix) lines),
     dropWhile (isDoc prefix) lines).
Proof.
  revert desc. induction lines as [|line rest IH]; intros desc; simpl.
  - by rewrite app_nil_r.
  - destruct (isDoc prefix line) eqn:Hdoc; simpl.
    + rewrite IH. by rewrite <- app_assoc.
    + by rewrite app_nil_r.
Qed.

Lemma skipGap_suffix (lines : list gostring) prefix :
  ∃ gap, lines = gap ++ skipGap lines prefix
         ∧ Forall (λ l, blank l || isDoc prefix l = true) gap.
Proof.
  induction lines as [|line rest (gap & Heq & Hgap)]; simpl.
  - by exists [].
  - destruct (blank line || isDoc prefix line) eqn:E.
    + exists (line :: gap). split; [simpl; congruence|by constructor].
    + by exists [].
Qed.

Lemma skipGap_all (lines : list gostring) prefix :
  Forall (λ l, blank l || isDoc prefix l = true) lines →
  skipGap lines prefix = [].
Proof. induction 1 as [|l lines Hl _ IH]; simpl; [done|]. by rewrite Hl. Qed.

Lemma skipGap_stop (lines : list gostring) prefix :
  startsWith (λ l, blank l || isDoc prefix l) lines = false →
  skipGap lines prefix = lines.
Proof. destruct lines as [|l lines]; simpl; [done|]. by intros ->. Qed.

(** ** Prefixes and the stored text of a comment line *)

Lemma HasPrefix_app (p t : gostring) : HasPrefix (p ++ t) p = true.
Proof. induction p as [|c p IH]; simpl; [done|]. by rewrite Ascii.eqb_refl. Qed.

Lemma HasPrefix_inv (s p : gostring) :
  HasPrefix s p = true → ∃ t, s = p ++ t.
Proof.
  revert s. induction p as [|c p IH]; intros s H; simpl in *.
  - by exists s.
  - destruct s as [|d s]; [done|].
    apply andb_true_iff in H as [Hc Hp]. apply Ascii.eqb_eq in Hc as ->.
    destruct (IH _ Hp) as [t ->]. by exists t.
Qed.

(** The text kept from a comment line is its trimmed form without the
    prefix and without the one space that may follow the prefix. *)
Lemma content_spec (prefix line : gostring) :
  isDoc prefix line = true →
  ∃ sp, (sp = [] ∨ sp = [" "%char])
        ∧ TrimSpace line = prefix ++ sp ++ content prefix line
        ∧ (sp = [] → startsWith (Ascii.eqb " ") (content prefix line) = false).
Proof.
  unfold isDoc, content. intros H.
  destruct (HasPrefix_inv _ _ H) as [t Ht]. rewrite Ht.
  rewrite drop_app_length. destruct t as [|c t].
  - exists []. simpl. rewrite !app_nil_r. auto.
  - destruct (Ascii.eqb c " ") eqn:E.
    + apply Ascii.eqb_eq in E as ->. exists [" "%char].
      split; [auto|]. split; [done|]. intros; discriminate.
    + exists []. split; [auto|]. split; [done|]. intros _.
      unfold startsWith. by rewrite Ascii.eqb_sym.
Qed.

(** ** One round of the outer loop of [extractElements] *)

Lemma dropWhile_suffix {A} (p : A → bool) (l : list A) :
  dropWhile p l `suffix_of` l.
Proof. exists (takeWhile p l). by rewrite takeWhile_dropWhile. Qed.

Lemma skipGap_suffix_of (lines : list gostring) prefix :
  skipGap lines prefix `suffix_of` lines.
Proof. destruct (skipGap_suffix lines prefix) as (gap & Heq & _). by exists gap. Qed.

Lemma captureSig_suffix (lines : list gostring) :
  (captureSig lines).2 `suffix_of` lines.
Proof.
  destruct lines as [|l lines]; simpl; [done|].
  destruct (blank l); simpl; [done|]. by apply suffix_cons_r.
Qed.

Lemma iteration_cases (line : gostring) rest prefix ign elements :
  iteration (line :: rest) prefix ign elements
  = if isDoc prefix line && negb (excluded prefix ign line)
    then emitted (line :: rest) prefix elements
    else (elements, rest).
Proof.
  unfold iteration, excluded, emitted.
  destruct (isDoc prefix line) eqn:Hdoc; simpl; [|done].
  destruct (ign && indented prefix line) eqn:Hex; simpl; [done|].
  rewrite collectDesc_spec. simpl. rewrite Hdoc. simpl.
  destruct (captureSig _) as [sig lines3]. done.
Qed.

Lemma emitted_suffix (line : gostring) rest prefix elements :
  isDoc prefix line = true →
  (emitted (line :: rest) prefix elements).2 `suffix_of` rest.
Proof.
  intros Hdoc. unfold emitted. simpl. rewrite Hdoc.
  etrans; [apply captureSig_suffix|].
  etrans; [apply skipGap_suffix_of|]. apply dropWhile_suffix.
Qed.

Lemma iteration_suffix (line : gostring) rest prefix ign elements :
  (iteration (line :: rest) prefix ign elements).2 `suffix_of` rest.
Proof.
  rewrite iteration_cases.
  destruct (isDoc prefix line) eqn:Hdoc; simpl; [|done].
  destruct (negb _); [by apply emitted_suffix|done].
Qed.

Lemma iteration_length (line : gostring) rest prefix ign elements :
  length (iteration (line :: rest) prefix ign elements).2 ≤ length rest.
Proof. apply suffix_length, iteration_suffix. Qed.

(** ** The outer loop *)

Lemma elementsLoop_step fuel (line : gostring) rest prefix ign elements :
  elementsLoop (S fuel) (line :: rest) prefix ign elements
  = elementsLoop fuel (iteration (line :: rest) prefix ign elements).2
      prefix ign (iteration (line :: rest) prefix ign elements).1.
Proof.
  cbn [elementsLoop]. by destruct (iteration _ _ _ _).
Qed.

Lemma elementsLoop_fuel fuel1 fuel2 (lines : list gostring) prefix ign elements :
  length lines ≤ fuel1 → length lines ≤ fuel2 →
  elementsLoop fuel1 lines prefix ign elements
  = elementsLoop fuel2 lines prefix ign elements.
Proof.
  revert fuel2 lines elements.
  induction fuel1 as [|fuel1 IH]; intros fuel2 lines elements H1 H2.
  - destruct lines; [|simpl in H1; lia]. by destruct fuel2.
  - destruct lines as [|line rest]; [by destruct fuel2|].
    destruct fuel2 as [|fuel2]; [simpl in H2; lia|].
    rewrite !elementsLoop_step. simpl in H1, H2.
    pose proof (iteration_length line rest prefix ign elements).
    apply IH; lia.
Qed.

Lemma elementsLoop_exhausts fuel (lines : list gostring) prefix ign elements :
  length lines ≤ fuel →
  (elementsLoop fuel lines prefix ign elements).2 = [].
Proof.
  revert lines elements.
  induction fuel as [|fuel IH]; intros lines elements H.
  - by destruct lines; [|simpl in H; lia].
  - destruct lines as [|line rest]; [done|].
    rewrite elementsLoop_step. simpl in H.
    pose proof (iteration_length line rest prefix ign elements).
    apply IH; lia.
Qed.

Lemma loopFrom_cons (line : gostring) rest prefix ign elements :
  loopFrom (line :: rest) prefix ign elements
  = loopFrom (iteration (line :: rest) prefix ign elements).2 prefix ign
             (iteration (line :: rest) prefix ign elements).1.
Proof.
  unfold loopFrom. cbn [length]. rewrite elementsLoop_step.
  pose proof (iteration_length line rest prefix ign elements).
  apply elementsLoop_fuel; lia.
Qed.

Lemma loopFrom_skip (line : gostring) rest prefix ign elements :
  isDoc prefix line && negb (excluded prefix ign line) = false →
  loopFrom (line :: rest) prefix ign elements
  = loopFrom rest prefix ign elements.
Proof. intros H. by rewrite loopFrom_cons, iteration_cases, H. Qed.

Lemma loopFrom_emit (line : gostring) rest prefix ign elements :
  isDoc prefix line = true → excluded prefix ign line = false →
  loopFrom (line :: rest) prefix ign elements
  = loopFrom (emitted (line :: rest) prefix elements).2 prefix ign
             (emitted (line :: rest) prefix elements).1.
Proof. intros H1 H2. by rewrite loopFrom_cons, iteration_cases, H1, H2. Qed.

Lemma loopFrom_junk (junk rest : list gostring) prefix ign elements :
  Forall (λ l, isDoc prefix l = false) junk →
  loopFrom (junk ++ rest) prefix ign elements
  = loopFrom rest prefix ign elements.
Proof.
  induction 1 as [|l junk Hl _ IH]; simpl; [done|].
  rewrite loopFrom_skip; [done|]. by rewrite Hl.
Qed.

Lemma emitted_fromRun (line : gostring) rest prefix elements pre :
  isDoc prefix line = true →
  ∃ e, (emitted (line :: rest) prefix elements).1 = elements ++ [e]
       ∧ fromRun prefix (pre ++ line :: rest) e.
Proof.
  intros Hdoc. unfold emitted. eexists. split; [done|].
  exists pre, (takeWhile (isDoc prefix) (line :: rest)),
         (dropWhile (isDoc prefix) (line :: rest)).
  rewrite takeWhile_dropWhile. split; [done|].
  split; [simpl; by rewrite Hdoc|].
  split; [apply takeWhile_Forall|].
  split; [apply dropWhile_head|]. done.
Qed.

Lemma loopFrom_origin (lines : list gostring) prefix ign elements all :
  lines `suffix_of` all →
  Forall (fromRun prefix all) elements →
  Forall (fromRun prefix all) (loopFrom lines prefix ign elements).1.
Proof.
  remember (length lines) as n eqn:Hn. revert lines Hn elements.
  induction (lt_wf n) as [n _ IH]. intros lines -> elements Hsuf Hels.
  destruct lines as [|line rest]; [done|].
  rewrite loopFrom_cons, iteration_cases.
  assert (rest `suffix_of` all) as Hrest by (by eapply suffix_cons_l).
  destruct (isDoc prefix line) eqn:Hdoc; cbn [andb negb];
    [|apply (IH (length rest)); [simpl; lia|done|done|done]].
  destruct (excluded prefix ign line); cbn [andb negb];
    [apply (IH (length rest)); [simpl; lia|done|done|done]|].
  pose proof (emitted_suffix line rest prefix elements Hdoc) as Hsuf'.
  destruct Hsuf as [pre ->].
  destruct (emitted_fromRun line rest prefix elements pre Hdoc) as (e & He & Hfrom).
  apply (IH (length (emitted (line :: rest) prefix elements).2)).
  - apply suffix_length in Hsuf'.
    change (length (line :: rest)) with (S (length rest)). lia.
  - done.
  - etrans; [exact Hsuf'|]. apply suffix_app_r. by apply suffix_cons_r.
  - rewrite He. apply Forall_app. split; [done|]. by constructor.
Qed.

(** ** The matcher *)

Lemma exec_cat r1 r2 n0 (s : gostring) cap k :
  exec (Cat r1 r2) n0 s cap k
  = exec r1 n0 s cap (λ s' cap', exec r2 n0 s' cap' k).
Proof. done. Qed.

(** Greedy repetition of a class, followed by something that cannot start
    with a byte of the class, takes the whole run: no shorter repetition
    lets the rest match. *)
Lemma starLoop_class p n0 fuel (s : gostring) cap k :
  length s < fuel → exclusive p k →
  starLoop (exec (Class p) n0) fuel s cap k = k (dropWhile p s) cap.
Proof.
  intros Hfuel Hk. revert fuel Hfuel.
  induction s as [|c s IH]; intros fuel Hfuel.
  - destruct fuel; [simpl in Hfuel; lia|]. done.
  - destruct fuel as [|fuel]; [lia|]. cbn [starLoop exec dropWhile].
    destruct (p c) eqn:Hc; [|done].
    assert ((length s <? length (c :: s)) = true) as ->
      by (apply Nat.ltb_lt; simpl; lia).
    rewrite IH by (simpl in Hfuel; lia).
    destruct (k (dropWhile p s) cap) eqn:E; [done|].
    by apply Hk.
Qed.

Lemma exec_star_class p n0 (s : gostring) cap k :
  exclusive p k →
  exec (Star (Class p)) n0 s cap k = k (dropWhile p s) cap.
Proof.
  intros Hk.
  change (exec (Star (Class p)) n0 s cap k)
    with (starLoop (exec (Class p) n0) (S (length s)) s cap k).
  apply starLoop_class; [lia|done].
Qed.

Lemma exec_plus_class p n0 (s : gostring) cap k :
  exclusive p k →
  exec (Plus (Class p)) n0 s cap k
  = if startsWith p s then k (dropWhile p s) cap else None.
Proof.
  intros Hk. unfold Plus. rewrite exec_cat.
  destruct s as [|c s]; [done|]. cbn [exec startsWith dropWhile].
  destruct (p c); [|done].
  change (starLoop _ _ _ _ _) with (exec (Star (Class p)) n0 s cap k).
  by apply exec_star_class.
Qed.

Lemma exec_group_plus_class p n0 (s : gostring) cap k :
  exclusive p k →
  exec (Group (Plus (Class p))) n0 s cap k
  = if startsWith p s
    then k (dropWhile p s) (Some (takeWhile p s)) else None.
Proof.
  intros Hk.
  change (exec (Group (Plus (Class p))) n0 s cap k)
    with (exec (Plus (Class p)) n0 s cap
            (λ s' _, k s' (Some (take (length s - length s') s)))).
  rewrite exec_plus_class.
  - by rewrite take_length_dropWhile.
  - intros c s' cap' Hc. by apply Hk.
Qed.

Lemma exec_lit c n0 (s : gostring) cap k :
  exec (Lit c) n0 s cap k
  = match s with
    | d :: s' => if Ascii.eqb c d then k s' cap else None
    | [] => None
    end.
Proof. done. Qed.

(** A literal text matches when the input starts with it. *)
Lemma exec_str (w : gostring) n0 (s : gostring) cap k :
  exec (Str w) n0 s cap k
  = if HasPrefix s w then k (drop (length w) s) cap else None.
Proof.
  revert s. induction w as [|c w IH]; intros s; [done|].
  cbn [Str foldr]. rewrite exec_cat, exec_lit.
  destruct s as [|d s]; [done|]. cbn [HasPrefix length drop].
  rewrite Ascii.eqb_sym. destruct (Ascii.eqb d c); [|done]. apply IH.
Qed.

Lemma take_suffix {A} (s rest : list A) :
  rest `suffix_of` s → take (length s - length rest) s ++ rest = s.
Proof.
  intros [k ->]. rewrite length_app.
  replace (length k + length rest - length rest) with (length k) by lia.
  by rewrite take_app_length.
Qed.

(** ** Bracketed tokens: the pattern of [ProcessBacklinks] *)

Lemma matchAt_linkRe n0 (s : gostring) : matchAt linkRe n0 s = linkAt s.
Proof.
  unfold matchAt, linkRe. rewrite exec_cat, exec_lit.
  destruct s as [|c s]; [done|]. cbn [linkAt].
  destruct (Ascii.eqb "[" c); [|done].
  rewrite exec_cat, exec_group_plus_class.
  - fold notClose. destruct (startsWith notClose s); [|done]. by rewrite exec_lit.
  - intros d s' cap' Hd. rewrite exec_lit.
    apply negb_true_iff in Hd. by rewrite Ascii.eqb_sym, Hd.
Qed.

Lemma notClose_Forall (t : gostring) :
  "]"%char ∉ t ↔ Forall (λ c, notClose c = true) t.
Proof.
  rewrite Forall_forall. unfold notClose. split.
  - intros Hn c Hc. apply negb_true_iff, Ascii.eqb_neq. by intros ->.
  - intros H Hin. apply H in Hin. by rewrite Ascii.eqb_refl in Hin.
Qed.

Lemma linkAt_Some (s rest : gostring) cap :
  linkAt s = Some (rest, cap)
  ↔ ∃ t, cap = Some t ∧ token t ∧ s = "["%char :: t ++ "]"%char :: rest.
Proof.
  split.
  - destruct s as [|c s]; [done|]. cbn [linkAt].
    destruct (Ascii.eqb "[" c) eqn:Hc; [|done]. apply Ascii.eqb_eq in Hc as <-.
    destruct (startsWith notClose s) eqn:Hs; [|done].
    destruct (dropWhile notClose s) as [|d rest'] eqn:Hd; [done|].
    destruct (Ascii.eqb "]" d) eqn:Hd'; [|done]. apply Ascii.eqb_eq in Hd' as <-.
    intros [= <- <-]. exists (takeWhile notClose s). split; [done|]. split.
    + split.
      * destruct s as [|c s]; [done|]. simpl in *. by rewrite Hs.
      * apply notClose_Forall, takeWhile_Forall.
    + rewrite <- Hd. by rewrite takeWhile_dropWhile.
  - intros (t & -> & [Hne Hno] & ->). cbn [linkAt].
    rewrite Ascii.eqb_refl.
    apply notClose_Forall in Hno.
    destruct (takeWhile_app_stop notClose t ("]"%char :: rest) Hno eq_refl)
      as [-> ->].
    rewrite Ascii.eqb_refl.
    destruct t as [|c t]; [done|]. cbn [app startsWith].
    by apply Forall_cons in Hno as [-> _].
Qed.

Lemma linkAt_None (s : gostring) : linkAt s = None ↔ ¬ startsToken s.
Proof.
  split.
  - intros H (t & rest & Ht & Hs).
    assert (linkAt s = Some (rest, Some t)) as H'
      by (apply linkAt_Some; eauto).
    congruence.
  - intros H. destruct (linkAt s) as [[rest cap]|] eqn:E; [|done].
    apply linkAt_Some in E as (t & _ & Ht & Hs). destruct H. by exists t, rest.
Qed.

Lemma outside_cons c (out next : gostring) :
  outside (c :: out) next → ¬ startsToken (c :: out ++ next) ∧ outside out next.
Proof.
  intros H. split.
  - by apply (H [] (c :: out)).
  - intros a b -> Hb. by apply (H (c :: a) b).
Qed.

Lemma outside_nil (next : gostring) : outside [] next.
Proof. intros a b H Hb. symmetry in H. by apply app_eq_nil in H as [_ ->]. Qed.

Lemma take_match {A} (m rest : list A) :
  take (length (m ++ rest) - length rest) (m ++ rest) = m.
Proof.
  rewrite length_app.
  replace (length m + length rest - length rest) with (length m) by lia.
  by rewrite take_app_length.
Qed.

Lemma bracket_snoc (t rest : gostring) :
  "["%char :: t ++ "]"%char :: rest = ("["%char :: t ++ ["]"%char]) ++ rest.
Proof. by rewrite <- app_comm_cons, <- app_assoc. Qed.

Lemma search_eq r n0 (s : gostring) :
  search r n0 s
  = match matchAt r n0 s with
    | Some (rest, cap) =>
        Some (Found [] (take (length s - length rest) s) cap rest)
    | None =>
        match s with
        | [] => None
        | c :: s' => skipByte c <$> search r n0 s'
        end
    end.
Proof. by destruct s. Qed.

(** The leftmost match is the first bracketed token. *)
Lemma search_linkRe_found n0 (out t rest : gostring) :
  token t → outside out ("["%char :: t ++ "]"%char :: rest) →
  search linkRe n0 (out ++ "["%char :: t ++ "]"%char :: rest)
  = Some (Found out ("["%char :: t ++ ["]"%char]) (Some t) rest).
Proof.
  intros Ht. induction out as [|c out IH]; intros Hout; rewrite search_eq.
  - cbn [app]. rewrite matchAt_linkRe.
    assert (linkAt ("["%char :: t ++ "]"%char :: rest) = Some (rest, Some t))
      as -> by (apply linkAt_Some; eauto).
    do 2 f_equal.
    by rewrite bracket_snoc, take_match.
  - apply outside_cons in Hout as [Hc Hout].
    rewrite matchAt_linkRe.
    apply linkAt_None in Hc. cbn [app]. rewrite Hc.
    by rewrite IH.
Qed.

Lemma search_linkRe_none n0 (s : gostring) :
  outside s [] → search linkRe n0 s = None.
Proof.
  induction s as [|c s IH]; intros Hout; rewrite search_eq, matchAt_linkRe.
  - done.
  - apply outside_cons in Hout as [Hc Hout]. rewrite app_nil_r in Hc.
    apply linkAt_None in Hc. rewrite Hc. by rewrite IH.
Qed.

(** Conversely, what [search] finds is the first bracketed token. *)
Lemma search_linkRe_inv n0 (s : gostring) f :
  search linkRe n0 s = Some f →
  ∃ t, token t
       ∧ f = Found (before f) ("["%char :: t ++ ["]"%char]) (Some t) (after f)
       ∧ s = before f ++ "["%char :: t ++ "]"%char :: after f
       ∧ outside (before f) ("["%char :: t ++ "]"%char :: after f).
Proof.
  revert f. induction s as [|c s IH]; intros f; rewrite search_eq, matchAt_linkRe.
  - done.
  - destruct (linkAt (c :: s)) as [[rest cap]|] eqn:E.
    + apply linkAt_Some in E as (t & -> & Ht & Hs).
      intros [= <-]. exists t. cbn [before after]. split; [done|].
      split; [|split; [done|apply outside_nil]].
      change (S (length s)) with (length (c :: s)).
      by rewrite Hs, bracket_snoc, take_match.
    + destruct (search linkRe n0 s) as [f'|] eqn:E'; [|done].
      intros [= <-]. destruct (IH f' eq_refl) as (t & Ht & Hf & Hs & Hout).
      exists t. cbn [skipByte before after matched group].
      split; [done|]. split; [by rewrite Hf|]. split; [by rewrite Hs at 1|].
      intros a b Hab Hb. destruct a as [|a0 a].
      * cbn [app] in Hab. subst b. cbn [app]. rewrite <- Hs.
        by apply linkAt_None.
      * injection Hab as -> Hab. by apply (Hout a b).
Qed.

Lemma outsideb_spec (out next : gostring) :
  outsideb out next = true ↔ outside out next.
Proof.
  induction out as [|c out IH]; cbn [outsideb].
  - split; [intros _; apply outside_nil|done].
  - split.
    + destruct (linkAt ((c :: out) ++ next)) eqn:E; [done|].
      intros H%IH a b Hab Hb. destruct a as [|a0 a].
      * cbn [app] in Hab. subst b. by apply linkAt_None.
      * injection Hab as -> Hab. by apply (H a b).
    + intros [Hc H]%outside_cons. apply linkAt_None in Hc.
      cbn [app]. rewrite Hc. by apply IH.
Qed.

Lemma search_linkRe_n n1 n2 (s : gostring) :
  search linkRe n1 s = search linkRe n2 s.
Proof.
  induction s as [|c s IH]; rewrite (search_eq _ n1), (search_eq _ n2),
    !matchAt_linkRe; [done|]. by rewrite IH.
Qed.

(** The pattern never matches the empty text, so the loop of
    [replaceAll] neither depends on its fuel, once there is enough of it,
    nor on the flag that guards empty matches. *)
Lemma replaceLoop_linkRe_indep fuel1 fuel2 n1 n2 b1 b2 (s : gostring) repl :
  length s < fuel1 → length s < fuel2 →
  replaceLoop fuel1 linkRe n1 s b1 repl = replaceLoop fuel2 linkRe n2 s b2 repl.
Proof.
  revert fuel2 s b1 b2.
  induction fuel1 as [|fuel1 IH]; intros fuel2 s b1 b2 H1 H2; [lia|].
  destruct fuel2 as [|fuel2]; [lia|]. cbn [replaceLoop].
  rewrite (search_linkRe_n n1 n2).
  destruct (search linkRe n2 s) as [f|] eqn:E; [|done].
  apply search_linkRe_inv in E as (t & Ht & Hf & Hs & _).
  rewrite Hf. cbn [matched before after]. do 2 f_equal.
  assert (length (after f) + 2 ≤ length s).
  { rewrite Hs. rewrite length_app. cbn [length].
    rewrite length_app. cbn [length]. lia. }
  apply IH; lia.
Qed.

Lemma replaceLoop_S fuel re n0 (s : gostring) afterMatch repl :
  replaceLoop (S fuel) re n0 s afterMatch repl
  = match search re n0 s with
    | None => s
    | Some f =>
        match matched f with
        | [] =>
            before f
            ++ (if afterMatch && bool_decide (before f = []) then []
                else repl [])
            ++ match after f with
               | [] => []
               | c :: rest => c :: replaceLoop fuel re n0 rest false repl
               end
        | _ :: _ =>
            before f ++ repl (matched f)
            ++ replaceLoop fuel re n0 (after f) true repl
        end
    end.
Proof. done. Qed.

Lemma ProcessBacklinks_eq desc linkIndex prefix :
  ProcessBacklinks desc linkIndex prefix
  = replaceLoop (S (length desc)) linkRe (length desc) desc false
      (backlink linkIndex).
Proof. done. Qed.

Lemma backlink_token linkIndex (t : gostring) :
  token t →
  backlink linkIndex ("["%char :: t ++ ["]"%char])
  = match linkIndex !! t with
    | Some link => Fmt.link t link
    | None => "["%char :: t ++ ["]"%char]
    end.
Proof.
  intros Ht. unfold backlink, FindStringSubmatch.
  pose proof (search_linkRe_found (length ("["%char :: t ++ ["]"%char]))
                [] t [] Ht (outside_nil _)) as H.
  cbn [app] in H. by rewrite H.
Qed.

Lemma ProcessBacklinks_found linkIndex prefix (out t rest : gostring) :
  token t → outside out ("["%char :: t ++ "]"%char :: rest) →
  ProcessBacklinks (out ++ "["%char :: t ++ "]"%char :: rest) linkIndex prefix
  = out ++ match linkIndex !! t with
           | Some link => Fmt.link t link
           | None => "["%char :: t ++ ["]"%char]
           end
        ++ ProcessBacklinks rest linkIndex prefix.
Proof.
  intros Ht Hout. rewrite !ProcessBacklinks_eq.
  rewrite (replaceLoop_S (length (out ++ _))).
  rewrite search_linkRe_found by done. cbn [matched before after].
  rewrite backlink_token by done. do 2 f_equal.
  apply replaceLoop_linkRe_indep; [|lia].
  rewrite length_app. cbn [length]. rewrite length_app. cbn [length]. lia.
Qed.

Lemma ProcessBacklinks_none linkIndex prefix (s : gostring) :
  outside s [] → ProcessBacklinks s linkIndex prefix = s.
Proof.
  intros Hout. rewrite ProcessBacklinks_eq, replaceLoop_S.
  by rewrite search_linkRe_none.
Qed.

(** ** A pattern that ends with a repetition *)

Lemma starLoop_class_total p n0 fuel (s : gostring) cap k :
  length s < fuel → total k →
  starLoop (exec (Class p) n0) fuel s cap k = k (dropWhile p s) cap.
Proof.
  intros Hfuel Hk. revert fuel Hfuel.
  induction s as [|c s IH]; intros fuel Hfuel.
  - destruct fuel; [simpl in Hfuel; lia|]. done.
  - destruct fuel as [|fuel]; [lia|]. cbn [starLoop exec dropWhile].
    destruct (p c) eqn:Hc; [|done].
    assert ((length s <? length (c :: s)) = true) as ->
      by (apply Nat.ltb_lt; simpl; lia).
    rewrite IH by (simpl in Hfuel; lia).
    destruct (k (dropWhile p s) cap) eqn:E; [done|]. by apply Hk in E.
Qed.

Lemma exec_star_class_total p n0 (s : gostring) cap k :
  total k →
  exec (Star (Class p)) n0 s cap k = k (dropWhile p s) cap.
Proof.
  intros Hk.
  change (exec (Star (Class p)) n0 s cap k)
    with (starLoop (exec (Class p) n0) (S (length s)) s cap k).
  apply starLoop_class_total; [lia|done].
Qed.

Lemma exec_plus_class_total p n0 (s : gostring) cap k :
  total k →
  exec (Plus (Class p)) n0 s cap k
  = if startsWith p s then k (dropWhile p s) cap else None.
Proof.
  intros Hk. unfold Plus. rewrite exec_cat.
  destruct s as [|c s]; [done|]. cbn [exec startsWith dropWhile].
  destruct (p c); [|done].
  change (starLoop _ _ _ _ _) with (exec (Star (Class p)) n0 s cap k).
  by apply exec_star_class_total.
Qed.

Lemma exec_group_plus_class_total p n0 (s : gostring) cap k :
  total k →
  exec (Group (Plus (Class p))) n0 s cap k
  = if startsWith p s
    then k (dropWhile p s) (Some (takeWhile p s)) else None.
Proof.
  intros Hk.
  change (exec (Group (Plus (Class p))) n0 s cap k)
    with (exec (Plus (Class p)) n0 s cap
            (λ s' _, k s' (Some (take (length s - length s') s)))).
  rewrite exec_plus_class_total.
  - by rewrite take_length_dropWhile.
  - intros s' cap'. apply Hk.
Qed.

Lemma total_final : total (λ s cap, Some (s, cap)).
Proof. by intros s cap. Qed.

(** The classes [\s] and [\w] and the literals next to them. *)
Lemma perlSpace_not_word c : perlSpace c = true → perlWord c = false.
Proof. by destruct c as [[] [] [] [] [] [] [] []]. Qed.

Lemma perlWord_not_space c : perlWord c = true → perlSpace c = false.
Proof. by destruct c as [[] [] [] [] [] [] [] []]. Qed.

Lemma perlSpace_not_brace c : perlSpace c = true → Ascii.eqb "{" c = false.
Proof. by destruct c as [[] [] [] [] [] [] [] []]. Qed.

Lemma perlSpace_not_paren c : perlSpace c = true → Ascii.eqb "(" c = false.
Proof. by destruct c as [[] [] [] [] [] [] [] []]. Qed.

Lemma perlWord_not_paren c : perlWord c = true → Ascii.eqb "(" c = false.
Proof. by destruct c as [[] [] [] [] [] [] [] []]. Qed.

(** ** The pattern that removes the opening brace *)

Lemma matchAt_braceRe n0 (s : gostring) : matchAt braceRe n0 s = braceAt s.
Proof.
  unfold matchAt, braceRe, braceAt. rewrite exec_cat, exec_star_class.
  - rewrite exec_cat, exec_lit.
    destruct (dropWhile perlSpace s) as [|d [|e rest]]; [done| |].
    + by destruct (Ascii.eqb "{" d).
    + by destruct (Ascii.eqb "{" d).
  - intros c s' cap' Hc. rewrite exec_cat, exec_lit.
    by rewrite perlSpace_not_brace.
Qed.

(** ** The pattern for [class] and [struct] *)

Lemma exec_spaceWord n0 (s : gostring) cap :
  exec (Cat (Plus (Class perlSpace)) (Group (Plus (Class perlWord))))
       n0 s cap (λ s' cap', Some (s', cap'))
  = spaceWord s.
Proof.
  rewrite exec_cat, exec_plus_class.
  - unfold spaceWord. destruct (startsWith perlSpace s); [|done].
    by rewrite exec_group_plus_class_total by apply total_final.
  - intros c s' cap' Hc.
    rewrite exec_group_plus_class_total by apply total_final.
    cbn [startsWith]. by rewrite perlSpace_not_word.
Qed.

Lemma exec_bol n0 (s : gostring) cap k :
  exec Bol n0 s cap k = if length s =? n0 then k s cap else None.
Proof. done. Qed.

Lemma exec_alt r1 r2 n0 (s : gostring) cap k :
  exec (Alt r1 r2) n0 s cap k
  = match exec r1 n0 s cap k with
    | Some m => Some m
    | None => exec r2 n0 s cap k
    end.
Proof. done. Qed.

Lemma matchAt_classRe n0 (s : gostring) :
  matchAt classRe n0 s = if length s =? n0 then classAt s else None.
Proof.
  unfold matchAt, classRe. rewrite exec_cat, exec_bol.
  destruct (length s =? n0); [|done].
  rewrite exec_cat, exec_alt, !exec_str. unfold classAt.
  change (length ("class" : gostring)) with 5.
  change (length ("struct" : gostring)) with 6.
  rewrite !exec_spaceWord.
  destruct (HasPrefix s "class") eqn:E1, (HasPrefix s "struct") eqn:E2;
    try done.
  - apply HasPrefix_inv in E1 as [t1 ->].
    by apply HasPrefix_inv in E2 as [t2 ?].
  - by destruct (spaceWord (drop 5 s)).
Qed.

(** ** The leftmost match, for a pattern whose match at the head of a
    text is computed by [at_] *)

Section Leftmost.
Variables (r : regex) (n0 : nat) (at_ : gostring → option result).
Hypothesis matchAt_at : ∀ s, matchAt r n0 s = at_ s.

Lemma noMatch_nil next : noMatch at_ [] next.
Proof. intros a b H Hb. symmetry in H. by apply app_eq_nil in H as [_ ->]. Qed.

Lemma noMatch_cons c out next :
  noMatch at_ (c :: out) next
  ↔ at_ (c :: out ++ next) = None ∧ noMatch at_ out next.
Proof.
  split.
  - intros H. split; [by apply (H [] (c :: out))|].
    intros a b -> Hb. by apply (H (c :: a) b).
  - intros [Hc H] a b Hab Hb. destruct a as [|a0 a].
    + cbn [app] in Hab. by subst b.
    + injection Hab as -> Hab. by apply (H a b).
Qed.

Lemma noMatchb_spec out next :
  noMatchb at_ out next = true ↔ noMatch at_ out next.
Proof.
  induction out as [|c out IH]; cbn [noMatchb].
  - split; [intros _; apply noMatch_nil|done].
  - rewrite noMatch_cons. cbn [app].
    destruct (at_ (c :: out ++ next)); [|by rewrite IH; intuition].
    split; [done|]. by intros [? _].
Qed.

Lemma search_found out m rest cap :
  noMatch at_ out (m ++ rest) → at_ (m ++ rest) = Some (rest, cap) →
  search r n0 (out ++ m ++ rest) = Some (Found out m cap rest).
Proof.
  intros Hout Hm. induction out as [|c out IH]; rewrite search_eq, matchAt_at.
  - cbn [app]. rewrite Hm. by rewrite take_match.
  - apply noMatch_cons in Hout as [Hc Hout]. cbn [app]. rewrite Hc.
    by rewrite IH.
Qed.

Lemma search_none s :
  noMatch at_ s [] → at_ [] = None → search r n0 s = None.
Proof.
  intros Hout Hnil. induction s as [|c s IH]; rewrite search_eq, matchAt_at.
  - by rewrite Hnil.
  - apply noMatch_cons in Hout as [Hc Hout]. rewrite app_nil_r in Hc.
    rewrite Hc. by rewrite IH.
Qed.
End Leftmost.

(** ** The pattern for a call: a word, white space, an opening parenthesis *)

Lemma matchAt_funcRe n0 (s : gostring) : matchAt funcRe n0 s = funcAt s.
Proof.
  unfold matchAt, funcRe, funcAt.
  assert (exclusive perlSpace
            (λ s' cap', exec (Lit "(") n0 s' cap' (λ s cap, Some (s, cap))))
    as Hparen.
  { intros c s' cap' Hc. rewrite exec_lit. by rewrite perlSpace_not_paren. }
  rewrite exec_cat, exec_group_plus_class.
  - destruct (startsWith perlWord s); [|done].
    rewrite exec_cat, exec_star_class by done. by rewrite exec_lit.
  - intros c s' cap' Hc. rewrite exec_cat, exec_star_class by done.
    cbn [dropWhile]. rewrite (perlWord_not_space c Hc), exec_lit.
    by rewrite perlWord_not_paren.
Qed.

(** ** The rules of [extractIDFromSig] *)

Lemma Forall_startsWith {A} (p : A → bool) (l : list A) :
  l ≠ [] → Forall (λ x, p x = true) l → ∀ k, startsWith p (l ++ k) = true.
Proof. intros Hne H k. destruct H; [done|]. done. Qed.

Lemma spaceWord_spec (s rest : gostring) cap :
  spaceWord s = Some (rest, cap)
  ↔ ∃ ws id,
      cap = Some id
      ∧ ws ≠ [] ∧ Forall (λ c, perlSpace c = true) ws
      ∧ id ≠ [] ∧ Forall (λ c, perlWord c = true) id
      ∧ startsWith perlWord rest = false
      ∧ s = ws ++ id ++ rest.
Proof.
  unfold spaceWord. split.
  - destruct (startsWith perlSpace s) eqn:Hs; [|done].
    destruct (startsWith perlWord (dropWhile perlSpace s)) eqn:Hw; [|done].
    intros [= <- <-].
    exists (takeWhile perlSpace s),
           (takeWhile perlWord (dropWhile perlSpace s)).
    split; [done|].
    split; [destruct s as [|c s]; [done|]; simpl in *; by rewrite Hs|].
    split; [apply takeWhile_Forall|].
    split; [destruct (dropWhile perlSpace s) as [|c s']; [done|];
            simpl in *; by rewrite Hw|].
    split; [apply takeWhile_Forall|].
    split; [apply dropWhile_head|].
    by rewrite !takeWhile_dropWhile.
  - intros (ws & id & -> & Hws & Hsp & Hid & Hwd & Hrest & ->).
    rewrite Forall_startsWith by done.
    assert (startsWith perlSpace (id ++ rest) = false) as Hstop.
    { destruct Hwd as [|c id Hc _]; [done|]. cbn [app startsWith].
      by apply perlWord_not_space. }
    destruct (takeWhile_app_stop perlSpace ws (id ++ rest) Hsp Hstop)
      as [_ ->].
    rewrite Forall_startsWith by done.
    by destruct (takeWhile_app_stop perlWord id rest Hwd Hrest) as [-> ->].
Qed.

Lemma classAt_spec (sig : gostring) id :
  (∃ rest, classAt sig = Some (rest, Some id)) ↔ classMatch sig id.
Proof.
  unfold classAt, classMatch. split.
  - intros [rest H].
    destruct (HasPrefix sig "class") eqn:E1;
      [|destruct (HasPrefix sig "struct") eqn:E2; [|done]].
    + apply HasPrefix_inv in E1 as [t ->]. rewrite drop_app_length' in H by done.
      apply spaceWord_spec in H
        as (ws & id' & [= <-] & ? & ? & ? & ? & ? & ->).
      exists ("class" : gostring), ws, rest. eauto 10.
    + apply HasPrefix_inv in E2 as [t ->]. rewrite drop_app_length' in H by done.
      apply spaceWord_spec in H
        as (ws & id' & [= <-] & ? & ? & ? & ? & ? & ->).
      exists ("struct" : gostring), ws, rest. eauto 10.
  - intros (kw & ws & rest & [-> | ->] & Hws & Hsp & Hid & Hwd & Hrest & ->);
      exists rest.
    + rewrite HasPrefix_app, drop_app_length' by done.
      apply spaceWord_spec. eauto 12.
    + assert (HasPrefix (("struct" : gostring) ++ ws ++ id ++ rest) "class"
              = false) as -> by done.
      rewrite HasPrefix_app, drop_app_length' by done.
      apply spaceWord_spec. eauto 12.
Qed.

Lemma funcAt_spec (s rest : gostring) cap :
  funcAt s = Some (rest, cap)
  ↔ ∃ id ws,
      cap = Some id
      ∧ id ≠ [] ∧ Forall (λ c, perlWord c = true) id
      ∧ Forall (λ c, perlSpace c = true) ws
      ∧ s = id ++ ws ++ "("%char :: rest.
Proof.
  unfold funcAt. split.
  - destruct (startsWith perlWord s) eqn:Hs; [|done].
    destruct (dropWhile perlSpace (dropWhile perlWord s)) as [|d rest'] eqn:Hd;
      [done|].
    destruct (Ascii.eqb "(" d) eqn:Hp; [|done]. apply Ascii.eqb_eq in Hp as <-.
    intros [= <- <-].
    exists (takeWhile perlWord s), (takeWhile perlSpace (dropWhile perlWord s)).
    split; [done|].
    split; [destruct s as [|c s]; [done|]; simpl in *; by rewrite Hs|].
    split; [apply takeWhile_Forall|].
    split; [apply takeWhile_Forall|].
    by rewrite <- Hd, !takeWhile_dropWhile.
  - intros (id & ws & -> & Hid & Hwd & Hsp & ->).
    rewrite Forall_startsWith by done.
    assert (startsWith perlWord (ws ++ "("%char :: rest) = false) as Hstop.
    { destruct Hsp as [|c ws Hc _]; [done|]. cbn [app startsWith].
      by apply perlSpace_not_word. }
    destruct (takeWhile_app_stop perlWord id _ Hwd Hstop) as [-> ->].
    destruct (takeWhile_app_stop perlSpace ws ("("%char :: rest) Hsp eq_refl)
      as [_ ->].
    done.
Qed.

Lemma funcAt_callAt (s : gostring) id :
  (∃ rest, funcAt s = Some (rest, Some id)) ↔ callAt s id.
Proof.
  unfold callAt. split.
  - intros [rest H]. apply funcAt_spec in H as (id' & ws & [= <-] & ? & ? & ? & ->).
    by exists ws, rest.
  - intros (ws & rest & ? & ? & ? & ->). exists rest.
    apply funcAt_spec. by exists id, ws.
Qed.

Lemma funcAt_None (s : gostring) : funcAt s = None ↔ ¬ ∃ id, callAt s id.
Proof.
  split.
  - intros H [id [rest H']%funcAt_callAt]. congruence.
  - intros H. destruct (funcAt s) as [[rest cap]|] eqn:E; [|done].
    destruct H. pose proof E as E'.
    apply funcAt_spec in E' as (id & ws & -> & _). exists id.
    apply funcAt_callAt. by exists rest.
Qed.

(** [FindStringSubmatch] with the pattern for [class] and [struct]: the
    pattern is anchored, so only the head of the signature is tried. *)
Lemma search_classRe_later n0 (s : gostring) :
  length s < n0 → search classRe n0 s = None.
Proof.
  induction s as [|c s IH]; intros H; rewrite search_eq, matchAt_classRe.
  - by assert ((length (@nil ascii) =? n0) = false) as ->
      by (apply Nat.eqb_neq; simpl in *; lia).
  - assert ((length (c :: s) =? n0) = false) as ->
      by (apply Nat.eqb_neq; lia).
    rewrite IH; [done|]. simpl in H. lia.
Qed.

Lemma FindStringSubmatch_classRe (sig : gostring) :
  FindStringSubmatch classRe sig
  = match classAt sig with
    | Some (rest, cap) =>
        [take (length sig - length rest) sig; default [] cap]
    | None => []
    end.
Proof.
  unfold FindStringSubmatch. rewrite search_eq, matchAt_classRe, Nat.eqb_refl.
  destruct (classAt sig) as [[rest cap]|]; [done|].
  destruct sig as [|c s]; [done|].
  rewrite search_classRe_later; [done|]. simpl. lia.
Qed.

(** [extractIDFromSig], rule by rule. *)
Lemma extractIDFromSig_class (sig id : gostring) :
  classMatch sig id → extractIDFromSig sig = id.
Proof.
  intros [rest H]%classAt_spec. unfold extractIDFromSig.
  by rewrite FindStringSubmatch_classRe, H.
Qed.

Lemma classAt_None (sig : gostring) :
  (¬ ∃ id, classMatch sig id) → classAt sig = None.
Proof.
  intros H. destruct (classAt sig) as [[rest cap]|] eqn:E; [|done].
  destruct H. unfold classAt in E.
  assert (∃ s', spaceWord s' = Some (rest, cap)) as [s' Hs'].
  { destruct (HasPrefix sig "class"); [eauto|].
    destruct (HasPrefix sig "struct"); [eauto|done]. }
  apply spaceWord_spec in Hs' as (ws & id & -> & _).
  exists id. apply classAt_spec. by exists rest.
Qed.

Lemma extractIDFromSig_call (sig id : gostring) :
  (¬ ∃ id', classMatch sig id') → firstCall sig id →
  extractIDFromSig sig = id.
Proof.
  intros Hclass (pre & tail & -> & Hcall & Hfirst).
  unfold extractIDFromSig.
  rewrite FindStringSubmatch_classRe, (classAt_None _ Hclass). cbn [length].
  apply funcAt_callAt in Hcall as [rest Hcall].
  pose proof Hcall as Hsuf.
  apply funcAt_spec in Hsuf as (id' & ws & [= <-] & _ & _ & _ & Htail).
  unfold FindStringSubmatch.
  assert (tail = (id ++ ws ++ ["("%char]) ++ rest) as Hm
    by (rewrite Htail; by rewrite <- !app_assoc).
  rewrite Hm in Hcall |- *.
  rewrite (search_found funcRe _ funcAt (matchAt_funcRe _) pre
             (id ++ ws ++ ["("%char]) rest (Some id)); [done| |done].
  intros a b Hab Hb. rewrite <- Hm. apply funcAt_None. by apply (Hfirst a b).
Qed.

Lemma search_inv r n0 at_ :
  (∀ s, matchAt r n0 s = at_ s) →
  (∀ s rest cap, at_ s = Some (rest, cap) → rest `suffix_of` s) →
  ∀ (s : gostring) f,
    search r n0 s = Some f →
    s = before f ++ matched f ++ after f
    ∧ at_ (matched f ++ after f) = Some (after f, group f)
    ∧ noMatch at_ (before f) (matched f ++ after f).
Proof.
  intros Hat Hsuf s. induction s as [|c s IH]; intros f;
    rewrite search_eq, Hat.
  - destruct (at_ []) as [[rest cap]|] eqn:E; [|done].
    intros [= <-]. cbn [before matched after group app].
    pose proof (Hsuf _ _ _ E) as ->%suffix_nil_inv. cbn [length take app].
    split; [done|]. split; [done|]. apply noMatch_nil.
  - destruct (at_ (c :: s)) as [[rest cap]|] eqn:E.
    + intros [= <-]. cbn [before matched after group].
      change (S (length s)) with (length (c :: s)).
      rewrite (take_suffix _ _ (Hsuf _ _ _ E)).
      split; [done|]. split; [done|]. apply noMatch_nil.
    + destruct (search r n0 s) as [f'|] eqn:E'; [|done].
      intros [= <-]. destruct (IH f' eq_refl) as (Hs & Hm & Hout).
      cbn [skipByte before matched after group app].
      split; [by rewrite <- Hs|]. split; [done|].
      apply noMatch_cons. split; [by rewrite <- Hs|done].
Qed.

Lemma funcAt_suffix (s rest : gostring) cap :
  funcAt s = Some (rest, cap) → rest `suffix_of` s.
Proof.
  intros (id & ws & _ & _ & _ & _ & ->)%funcAt_spec.
  exists (id ++ ws ++ ["("%char]). by rewrite <- !app_assoc.
Qed.

Lemma extractIDFromSig_fields (sig : gostring) :
  (¬ ∃ id, classMatch sig id) → (¬ ∃ id, firstCall sig id) →
  extractIDFromSig sig = default [] (head (Fields sig)).
Proof.
  intros Hclass Hcall. unfold extractIDFromSig.
  rewrite FindStringSubmatch_classRe, (classAt_None _ Hclass). cbn [length].
  unfold FindStringSubmatch.
  destruct (search funcRe (length sig) sig) as [f|] eqn:E.
  - destruct Hcall.
    apply (search_inv _ _ funcAt (matchAt_funcRe _) funcAt_suffix) in E
      as (Hs & Hm & Hout).
    pose proof Hm as (id & ws & Hg & _)%funcAt_spec.
    exists id, (before f), (matched f ++ after f). split; [done|].
    split; [apply funcAt_callAt; exists (after f); by rewrite Hm, Hg|].
    intros a b Hab Hb. apply funcAt_None. by apply (Hout a b).
  - cbn [length]. by destruct (Fields sig).
Qed.

(** Ways to establish the hypotheses of the rules on a given signature. *)
Lemma no_classMatch (sig : gostring) :
  classAt sig = None → ¬ ∃ id, classMatch sig id.
Proof. intros H [id [rest H']%classAt_spec]. congruence. Qed.

Lemma firstCall_intro (pre tail rest id : gostring) :
  funcAt tail = Some (rest, Some id) → noMatchb funcAt pre tail = true →
  firstCall (pre ++ tail) id.
Proof.
  intros Hcall Hpre. exists pre, tail. split; [done|].
  split; [apply funcAt_callAt; by exists rest|].
  intros a b Hab Hb. apply funcAt_None.
  by apply (proj1 (noMatchb_spec funcAt pre tail) Hpre a b).
Qed.

Lemma no_firstCall (sig : gostring) :
  noMatchb funcAt sig [] = true → ¬ ∃ id, firstCall sig id.
Proof.
  intros H%noMatchb_spec (id & pre & tail & -> & Hcall & _).
  pose proof Hcall as [rest Hf]%funcAt_callAt.
  assert (tail ≠ []) as Hne by (by intros ->).
  specialize (H pre tail eq_refl Hne). rewrite app_nil_r in H. congruence.
Qed.

(** ** Removing the opening brace *)

Lemma endsWith_snoc {A} (p : A → bool) (l : list A) x :
  endsWith p (l ++ [x]) = p x.
Proof. unfold endsWith. by rewrite last_snoc. Qed.

Lemma endsWith_app {A} (p : A → bool) (a b : list A) :
  b ≠ [] → endsWith p (a ++ b) = endsWith p b.
Proof.
  intros Hb. destruct (exists_last Hb) as (b' & x & ->).
  by rewrite app_assoc, !endsWith_snoc.
Qed.

Lemma braceAt_Some (s rest : gostring) cap :
  braceAt s = Some (rest, cap)
  ↔ rest = [] ∧ cap = None
    ∧ ∃ ws, Forall (λ c, perlSpace c = true) ws ∧ s = ws ++ ["{"%char].
Proof.
  unfold braceAt. split.
  - destruct (dropWhile perlSpace s) as [|d [|e r]] eqn:Hd; [done| |done].
    destruct (Ascii.eqb "{" d) eqn:E; [|done]. apply Ascii.eqb_eq in E as <-.
    intros [= <- <-]. split; [done|]. split; [done|].
    exists (takeWhile perlSpace s). split; [apply takeWhile_Forall|].
    by rewrite <- Hd, takeWhile_dropWhile.
  - intros (-> & -> & ws & Hws & ->).
    by destruct (takeWhile_app_stop perlSpace ws ["{"%char] Hws eq_refl)
      as [_ ->].
Qed.

Lemma braceAt_after_text (b ws : gostring) :
  b ≠ [] → endsWith perlSpace b = false →
  braceAt (b ++ (ws ++ ["{"%char]) ++ []) = None.
Proof.
  intros Hb Hend. destruct (exists_last Hb) as (b' & x & ->).
  rewrite endsWith_snoc in Hend.
  destruct (braceAt _) as [[rest cap]|] eqn:E; [|done].
  apply braceAt_Some in E as (_ & _ & ws' & Hws' & E).
  rewrite app_nil_r, !app_assoc in E.
  apply app_inj_tail in E as [E _]. rewrite <- E in Hws'.
  apply Forall_app in Hws' as [Hws' _].
  apply Forall_app in Hws' as [_ Hx]. apply Forall_cons in Hx as [Hx _].
  congruence.
Qed.

Lemma replaceLoop_braceRe_nil fuel n0 afterMatch repl :
  replaceLoop fuel braceRe n0 [] afterMatch repl = [].
Proof. destruct fuel; [done|]. by rewrite replaceLoop_S, search_eq, matchAt_braceRe. Qed.

(** White space and an opening brace at the end of the text are removed. *)
Lemma ReplaceAllString_braceRe_strip (body ws : gostring) :
  Forall (λ c, perlSpace c = true) ws → endsWith perlSpace body = false →
  ReplaceAllString braceRe (body ++ ws ++ ["{"%char]) [] = body.
Proof.
  intros Hws Hend. unfold ReplaceAllString, ReplaceAllStringFunc.
  rewrite replaceLoop_S.
  replace (body ++ ws ++ ["{"%char]) with (body ++ (ws ++ ["{"%char]) ++ [])
    by (by rewrite app_nil_r).
  rewrite (search_found braceRe _ braceAt (matchAt_braceRe _) body
             (ws ++ ["{"%char]) [] None).
  - cbn [matched before after]. rewrite replaceLoop_braceRe_nil.
    destruct ws; cbn [app]; by rewrite app_nil_r.
  - intros a b -> Hb. apply braceAt_after_text; [done|].
    by rewrite endsWith_app in Hend.
  - apply braceAt_Some. rewrite app_nil_r. eauto.
Qed.

(** A text that does not end with an opening brace is left as it is. *)
Lemma ReplaceAllString_braceRe_keep (sig : gostring) :
  endsWith (Ascii.eqb "{") sig = false →
  ReplaceAllString braceRe sig [] = sig.
Proof.
  intros Hend. unfold ReplaceAllString, ReplaceAllStringFunc.
  rewrite replaceLoop_S.
  rewrite (search_none braceRe _ braceAt (matchAt_braceRe _)); [done| |done].
  intros a b -> Hb. rewrite app_nil_r.
  destruct (braceAt b) as [[rest cap]|] eqn:E; [|done].
  apply braceAt_Some in E as (_ & _ & ws & _ & ->).
  by rewrite !app_assoc, endsWith_snoc in Hend.
Qed.

(** Every text is of one of the two kinds. *)
Lemma brace_cases (t : gostring) :
  endsWith (Ascii.eqb "{") t = true →
  ∃ body ws,
    t = body ++ ws ++ ["{"%char]
    ∧ Forall (λ c, perlSpace c = true) ws
    ∧ endsWith perlSpace body = false.
Proof.
  unfold endsWith at 1. destruct (last t) as [x|] eqn:Hl; [|done].
  intros <-%Ascii.eqb_eq. apply last_Some in Hl as [t' ->].
  exists (rev (dropWhile perlSpace (rev t'))),
         (rev (takeWhile perlSpace (rev t'))).
  split; [|split].
  - rewrite app_assoc, <- rev_app_distr, takeWhile_dropWhile.
    by rewrite rev_involutive.
  - apply Forall_rev, takeWhile_Forall.
  - pose proof (dropWhile_head perlSpace (rev t')) as H.
    destruct (dropWhile perlSpace (rev t')) as [|y l]; [done|].
    cbn [rev]. by rewrite endsWith_snoc.
Qed.

(** ** Runs of comment lines in a file *)

Lemma takeWhile_app_all {A} (p : A → bool) (pre l : list A) :
  Forall (λ x, p x = true) pre →
  takeWhile p (pre ++ l) = pre ++ takeWhile p l
  ∧ dropWhile p (pre ++ l) = dropWhile p l.
Proof.
  induction 1 as [|x pre Hx _ [IH1 IH2]]; cbn [app takeWhile dropWhile];
    [done|]. rewrite Hx. by rewrite IH1, IH2.
Qed.

Lemma emitAll_proj prefix elements pairs :
  (λ e, (Description e, Signature e)) <$> emitAll prefix elements pairs
  = ((λ e, (Description e, Signature e)) <$> elements)
    ++ ((λ b, (pairDescription prefix b, pairSignature b)) <$> pairs).
Proof.
  revert elements. induction pairs as [|b pairs IH]; intros elements;
    cbn [emitAll foldl fmap list_fmap].
  - by rewrite app_nil_r.
  - unfold emitAll in IH. rewrite IH, fmap_app. by rewrite <- app_assoc.
Qed.

Lemma layout_cons leading b pairs :
  layout leading (b :: pairs)
  = leading ++ run b ++ sigLine b :: layout (trailing b) pairs.
Proof.
  unfold layout. cbn [fmap list_fmap concat].
  by rewrite <- !app_assoc.
Qed.

Lemma emitted_pair prefix b (rest : list gostring) elements :
  wellFormed prefix b →
  emitted (run b ++ sigLine b :: rest) prefix elements
  = (elements ++ [pairElement prefix (length elements) b], rest).
Proof.
  intros (Hne & Hrun & Hsig & Hblank & _). unfold emitted.
  assert (startsWith (isDoc prefix) (sigLine b :: rest) = false) as Hstop
    by done.
  destruct (takeWhile_app_stop _ _ _ Hrun Hstop) as [-> ->].
  rewrite skipGap_stop by (cbn [startsWith]; by rewrite Hblank, Hsig).
  cbn [captureSig]. by rewrite Hblank.
Qed.

Lemma loopFrom_layout prefix ign leading pairs elements :
  Forall (λ l, isDoc prefix l = false) leading →
  Forall (wellFormed prefix) pairs →
  Forall (λ b, startsWith (excluded prefix ign) (run b) = false) pairs →
  loopFrom (layout leading pairs) prefix ign elements
  = (emitAll prefix elements pairs, []).
Proof.
  intros Hlead Hwf. revert leading Hlead elements.
  induction Hwf as [|b pairs Hb _ IH]; intros leading Hlead elements Hin.
  - unfold layout. cbn [fmap list_fmap concat]. rewrite app_nil_r.
    rewrite <- (app_nil_r leading), loopFrom_junk by done. done.
  - apply Forall_cons in Hin as [Hfirst Hin].
    rewrite layout_cons, loopFrom_junk by done.
    pose proof Hb as (Hne & Hrun & _ & _ & Htrail).
    pose proof (emitted_pair prefix b (layout (trailing b) pairs)
                  elements Hb) as Hem.
    destruct (run b) as [|l r] eqn:Er; [done|].
    apply Forall_cons in Hrun as [Hl _]. cbn [startsWith] in Hfirst.
    cbn [app] in Hem |- *. rewrite loopFrom_emit, Hem by done.
    cbn [fst snd]. by rewrite IH.
Qed.

(** ** Fields *)

Lemma spaceRune_app (r x : gostring) :
  spaceRune r = Some [] → spaceRune (r ++ x) = Some x.
Proof.
  destruct r as [|a [|b [|c [|d r]]]]; cbn [spaceRune app]; try done.
  - by destruct (asciiSpace a).
  - destruct (asciiSpace a); [done|]. by destruct (space2 a b).
  - destruct (asciiSpace a); [done|]. destruct (space2 a b); [done|].
    by destruct (space3 a b c).
  - destruct (asciiSpace a); [done|]. destruct (space2 a b); [done|].
    by destruct (space3 a b c).
Qed.

Lemma spaceRune_lead c (s : gostring) :
  spaceLead c = false → spaceRune (c :: s) = None.
Proof.
  unfold spaceLead. intros H.
  do 4 (apply orb_false_iff in H as [H ?]).
  cbn [spaceRune]. rewrite H.
  destruct s as [|b [|d s]]; [done| |].
  - unfold space2. by replace (byte_is c 194) with false.
  - unfold space2, space3.
    by replace (byte_is c 194) with false; replace (byte_is c 225) with false;
      replace (byte_is c 226) with false; replace (byte_is c 227) with false.
Qed.

Lemma spaceRune_length (s rest : gostring) :
  spaceRune s = Some rest → length rest < length s.
Proof.
  destruct s as [|a [|b [|c s]]]; cbn [spaceRune]; try done.
  - destruct (asciiSpace a); [|done]. intros [= <-]. simpl. lia.
  - destruct (asciiSpace a); [intros [= <-]; simpl; lia|].
    destruct (space2 a b); [|done]. intros [= <-]. simpl. lia.
  - destruct (asciiSpace a); [intros [= <-]; simpl; lia|].
    destruct (space2 a b); [intros [= <-]; simpl; lia|].
    destruct (space3 a b c); [|done]. intros [= <-]. simpl. lia.
Qed.

Lemma fieldsFrom_fuel fuel1 fuel2 (s : gostring) cur :
  length s ≤ fuel1 → length s ≤ fuel2 →
  fieldsFrom fuel1 s cur = fieldsFrom fuel2 s cur.
Proof.
  revert fuel2 s cur.
  induction fuel1 as [|fuel1 IH]; intros fuel2 s cur H1 H2.
  - destruct s; [|simpl in H1; lia]. by destruct fuel2.
  - destruct s as [|c s]; [by destruct fuel2|].
    destruct fuel2 as [|fuel2]; [simpl in H2; lia|].
    cbn [fieldsFrom]. simpl in H1, H2.
    destruct (spaceRune (c :: s)) as [rest|] eqn:E.
    + apply spaceRune_length in E. simpl in E.
      destruct cur; [f_equal|]; apply IH; lia.
    + apply IH; lia.
Qed.

Lemma fieldsFrom_spaces fuel (sp x : gostring) :
  whitespace sp → length (sp ++ x) ≤ fuel →
  fieldsFrom fuel (sp ++ x) None = fieldsFrom (length x) x None.
Proof.
  intros (runes & Hrunes & ->). revert fuel.
  induction Hrunes as [|r runes Hr _ IH]; intros fuel Hfuel.
  - by apply fieldsFrom_fuel.
  - cbn [concat] in *. rewrite <- app_assoc in *.
    pose proof (spaceRune_app r (concat runes ++ x) Hr) as Hsp.
    pose proof (spaceRune_length _ _ Hsp) as Hlen.
    destruct fuel as [|fuel]; [lia|].
    remember (r ++ concat runes ++ x) as t eqn:E.
    destruct t as [|c s]; [simpl in Hlen; lia|].
    cbn [fieldsFrom]. rewrite Hsp. apply IH. simpl in Hfuel, Hlen. lia.
Qed.

Lemma fieldsFrom_token fuel (tok rest : gostring) cur :
  Forall (λ c, spaceLead c = false) tok → length (tok ++ rest) ≤ fuel →
  fieldsFrom fuel (tok ++ rest) (Some cur)
  = fieldsFrom (length rest) rest (Some (cur ++ tok)).
Proof.
  intros Htok. revert fuel cur.
  induction Htok as [|c tok Hc _ IH]; intros fuel cur Hfuel.
  - rewrite app_nil_r. by apply fieldsFrom_fuel.
  - destruct fuel as [|fuel]; [simpl in Hfuel; lia|].
    cbn [app fieldsFrom]. rewrite spaceRune_lead by done.
    cbn [default]. rewrite IH by (simpl in Hfuel; lia).
    by rewrite <- app_assoc.
Qed.

(** The first field: what stands between the leading white space and the
    next white-space rune, or the end of the text. *)
Lemma Fields_first (sp tok rest : gostring) :
  whitespace sp → tok ≠ [] → Forall (λ c, spaceLead c = false) tok →
  rest = [] ∨ is_Some (spaceRune rest) →
  head (Fields (sp ++ tok ++ rest)) = Some tok.
Proof.
  intros Hsp Hne Htok Hrest. unfold Fields.
  rewrite fieldsFrom_spaces by done.
  destruct tok as [|c tok]; [done|].
  apply Forall_cons in Htok as [Hc Htok].
  cbn [app length fieldsFrom]. rewrite spaceRune_lead by done. cbn [default app].
  rewrite fieldsFrom_token by done.
  destruct Hrest as [-> | [rest' Hrest]]; [done|].
  destruct rest as [|d rest]; [done|]. cbn [length fieldsFrom].
  by rewrite Hrest.
Qed.

Lemma Fields_none (sp : gostring) : whitespace sp → Fields sp = [].
Proof.
  intros Hsp. unfold Fields.
  pose proof (fieldsFrom_spaces (length sp) sp [] Hsp) as H.
  rewrite app_nil_r in H. by rewrite H.
Qed.

(** ** Lines indented with ASCII white space *)

Lemma Index_here (s p : gostring) : HasPrefix s p = true → Index s p = 0%Z.
Proof. intros H. destruct s; cbn [Index]; by rewrite H. Qed.

Lemma Index_after_spaces (ws s p : gostring) :
  Forall (λ c, asciiSpace c = true) ws →
  startsWith (λ c, negb (asciiSpace c)) p = true →
  HasPrefix s p = true →
  Index (ws ++ s) p = Z.of_nat (length ws).
Proof.
  intros Hws Hp Hs. induction Hws as [|a ws Ha _ IH]; cbn [app length].
  - by apply Index_here.
  - destruct p as [|c p]; [done|]. cbn [startsWith] in Hp.
    apply negb_true_iff in Hp. cbn [Index HasPrefix].
    assert (Ascii.eqb a c = false) as ->.
    { apply Ascii.eqb_neq. intros ->. congruence. }
    cbn [andb]. rewrite IH.
    assert ((Z.of_nat (length ws) <? 0)%Z = false) as -> by lia. lia.
Qed.

Lemma trimLeft_spaces (ws : gostring) :
  Forall (λ c, asciiSpace c = true) ws → trimLeft ws = [].
Proof. induction 1 as [|a ws Ha _ IH]; cbn [trimLeft]; [done|]. by rewrite Ha. Qed.

(** A comment line that starts with ASCII white space passes the test of
    the source for indented comment lines. *)
Lemma indented_ascii (ws prefix tail : gostring) :
  ws ≠ [] → Forall (λ c, asciiSpace c = true) ws →
  startsWith (λ c, negb (asciiSpace c)) prefix = true →
  indented prefix (ws ++ prefix ++ tail) = true.
Proof.
  intros Hne Hws Hp. unfold indented.
  rewrite Index_after_spaces by (done || apply HasPrefix_app).
  rewrite Nat2Z.id, take_app_length.
  unfold TrimSpace. rewrite trimLeft_spaces by done.
  apply andb_true_iff. split; [|done].
  apply Z.ltb_lt. destruct ws; [done|]. simpl. lia.
Qed.

(** ** A second pass over a link *)

Lemma outside_no_bracket (s next : gostring) :
  "["%char ∉ s → outside s next.
Proof.
  intros Hs a b -> Hb (t & rest & _ & Heq). apply Hs.
  destruct b as [|c b]; [done|]. injection Heq as -> _.
  apply elem_of_app. right. by left.
Qed.

Lemma ProcessBacklinks_nil linkIndex prefix :
  ProcessBacklinks [] linkIndex prefix = [].
Proof. apply ProcessBacklinks_none, outside_nil. Qed.

(** A bracketed key alone becomes a link; in the link the bracketed key is
    found again and the location is appended to it once more. *)
Lemma ProcessBacklinks_twice linkIndex prefix (text location : gostring) :
  token text → linkIndex !! text = Some location → "["%char ∉ location →
  ProcessBacklinks ("["%char :: text ++ ["]"%char]) linkIndex prefix
  = Fmt.link text location
  ∧ ProcessBacklinks (Fmt.link text location) linkIndex prefix
    = Fmt.link text location ++ "("%char :: location ++ [")"%char].
Proof.
  intros Htok Hkey Hloc. split.
  - pose proof (ProcessBacklinks_found linkIndex prefix [] text [] Htok
                  (outside_nil _)) as H.
    cbn [app] in H. rewrite H, Hkey, ProcessBacklinks_nil.
    by rewrite app_nil_r.
  - pose proof (ProcessBacklinks_found linkIndex prefix [] text
                  ("("%char :: location ++ [")"%char]) Htok (outside_nil _))
      as H.
    cbn [app] in H. unfold Fmt.link at 1.
    cbn [list_ascii_of_string app].
    rewrite H, Hkey. f_equal.
    apply ProcessBacklinks_none, outside_no_bracket.
    intros [Hin|Hin]%elem_of_cons; [done|].
    apply elem_of_app in Hin as [Hin|Hin]; [done|].
    by apply list_elem_of_singleton in Hin.
Qed.

Lemma no_open_bracket (t : gostring) :
  Forall (λ c, Ascii.eqb c "[" = false) t → "["%char ∉ t.
Proof.
  rewrite Forall_forall. intros H Hin. apply H in Hin.
  by rewrite Ascii.eqb_refl in Hin.
Qed.

(** ** Elements of a file made of runs and signatures *)

(** With the exclusion of indented comment lines switched on, a run whose
    lines are all indented is passed over and its signature gives no
    element. *)
Lemma pairs_yield_elements_indented : ¬ pairs_yield_elements.
Proof.
  intros H.
  specialize (H ("///" : gostring) true []
                [DocPair (golines ["  /// Adds two numbers."])
                       ("int add(int a, int b) {" : gostring) []]).
  assert (extractElements
            (layout [] [DocPair (golines ["  /// Adds two numbers."])
                              ("int add(int a, int b) {" : gostring) []])
            "///" true = ([], [])) as Hrun by (vm_compute; reflexivity).
  rewrite Hrun in H. cbn [fst fmap list_fmap] in H.
  assert ([] = [(pairDescription "///"
                   (DocPair (golines ["  /// Adds two numbers."])
                          ("int add(int a, int b) {" : gostring) []),
                 pairSignature
                   (DocPair (golines ["  /// Adds two numbers."])
                          ("int add(int a, int b) {" : gostring) []))])
    as Hbad; [|discriminate Hbad].
  apply H; [constructor|].
  constructor; [|constructor].
  split; [done|]. split; [by repeat constructor|].
  split; [vm_compute; reflexivity|]. split; [vm_compute; reflexivity|]. constructor.
Qed.

(** C1, amended. For a file made of N runs of comment lines, each followed
    by the line of its signature, with lines that are not comment lines
    before, between and after them, [extractElements] returns N elements in
    the order of the file, provided that the exclusion of indented comment
    lines is off or that the first line of every run is not an indented
    comment line. The k-th element has the lines of the k-th run, each
    without the prefix and without the one space after it, joined with
    newlines, as its description, and the k-th line of signature, trimmed
    and without the white space and opening brace at its end, as its
    signature. *)
Theorem extractElements_pairs :
  ∀ (prefix : gostring) (ign : bool) (leading : list gostring)
    (pairs : list docPair),
    Forall (λ l, isDoc prefix l = false) leading →
    Forall (wellFormed prefix) pairs →
    Forall (λ b, startsWith (excluded prefix ign) (run b) = false) pairs →
    length (extractElements (layout leading pairs) prefix ign).1
    = length pairs
    ∧ (λ e, (Description e, Signature e))
        <$> (extractElements (layout leading pairs) prefix ign).1
      = (λ b, (pairDescription prefix b, pairSignature b)) <$> pairs.
Proof.
  intros prefix ign leading pairs Hlead Hwf Hfirst.
  assert ((λ e, (Description e, Signature e))
            <$> (extractElements (layout leading pairs) prefix ign).1
          = (λ b, (pairDescription prefix b, pairSignature b)) <$> pairs)
    as Heq.
  { change (extractElements (layout leading pairs) prefix ign)
      with (loopFrom (layout leading pairs) prefix ign []).
    rewrite loopFrom_layout by done. cbn [fst]. by rewrite emitAll_proj. }
  split; [|done].
  apply (f_equal length) in Heq. by rewrite !length_fmap in Heq.
Qed.

Lemma extractElements_pairs_witness :
  let pairs :=
    [DocPair (golines ["/// Adds two numbers."; "  ///  Never overflows. "])
           ("  int add(int a, int b) {" : gostring)
           (golines ["  return a + b;"; "}"; ""]);
     DocPair (golines ["/// A point."])
           ("struct Point" : gostring)
           (golines ["{ int x; int y; };"])] in
  length (extractElements (layout (golines ["#include <x.h>"; ""]) pairs)
            "///" true).1 = 2
  ∧ (λ e, (Description e, Signature e))
      <$> (extractElements (layout (golines ["#include <x.h>"; ""]) pairs)
             "///" true).1
    = [("Adds two numbers." ++ nl ++ " Never overflows.",
        ("int add(int a, int b)" : gostring));
       (("A point." : gostring), ("struct Point" : gostring))].
Proof.
  intros pairs.
  destruct (extractElements_pairs "///" true (golines ["#include <x.h>"; ""])
              pairs) as [Hlen Hels].
  - by repeat constructor.
  - repeat constructor; first [vm_compute; reflexivity | discriminate].
  - by repeat constructor.
  - split; [exact Hlen|]. etrans; [exact Hels|]. vm_compute; reflexivity.
Defined.

(** ** The description of the module *)

(** C2. [extractTopComment] splits the lines into the leading comment
    lines and the rest, which starts at the first line that is not a
    comment line and is returned as it is. The description is made of the
    leading comment lines that the indentation policy keeps, each without
    the prefix and without the one space that may follow it, joined with
    newlines; it is empty when there is no such line. For the prefix
    ["///"] and the lines ["/// File does X."], ["/// More info."],
    ["code line 1"] the result is ["File does X.\nMore info."] and
    ["code line 1"]. *)
Theorem extractTopComment_spec :
  (∀ (lines : list gostring) (prefix : gostring) (ign : bool),
      ∃ leading rest,
        lines = leading ++ rest
        ∧ Forall (λ l, isDoc prefix l = true) leading
        ∧ startsWith (isDoc prefix) rest = false
        ∧ extractTopComment lines prefix ign
          = (Join (content prefix
                     <$> List.filter (λ l, negb (excluded prefix ign l))
                                     leading) nl,
             rest))
  ∧ (∀ prefix line : gostring,
      isDoc prefix line = true →
      ∃ sp : gostring,
        (sp = [] ∨ sp = " ")
        ∧ TrimSpace line = prefix ++ sp ++ content prefix line
        ∧ (sp = [] → startsWith (Ascii.eqb " ") (content prefix line) = false))
  ∧ (∀ (lines : list gostring) (prefix : gostring) (ign : bool),
      startsWith (isDoc prefix) lines = false →
      extractTopComment lines prefix ign = ([], lines))
  ∧ (∀ ign : bool,
      extractTopComment
        (golines ["/// File does X."; "/// More info."; "code line 1"])
        "///" ign
      = ("File does X." ++ nl ++ "More info.", golines ["code line 1"])).
Proof.
  split; [|split; [|split]].
  - intros lines prefix ign.
    exists (takeWhile (isDoc prefix) lines), (dropWhile (isDoc prefix) lines).
    split; [by rewrite takeWhile_dropWhile|].
    split; [apply takeWhile_Forall|].
    split; [apply dropWhile_head|].
    unfold extractTopComment. by rewrite topLoop_spec.
  - exact content_spec.
  - intros lines prefix ign Hstop. unfold extractTopComment.
    rewrite topLoop_spec.
    destruct lines as [|l lines]; [done|]. cbn [startsWith] in Hstop.
    cbn [takeWhile dropWhile]. by rewrite Hstop.
  - intros [|]; (vm_compute; reflexivity).
Qed.

Lemma extractTopComment_spec_witness :
  (∃ sp : gostring,
      (sp = [] ∨ sp = " ")
      ∧ TrimSpace "  /// File does  X.  "
        = "///" ++ sp ++ content "///" "  /// File does  X.  ")
  ∧ extractTopComment (golines ["int main() {"; "/// Not a header."]) "///" true
    = ([], golines ["int main() {"; "/// Not a header."]).
Proof.
  destruct extractTopComment_spec as (_ & Hcontent & Hnone & _).
  split.
  - destruct (Hcontent ("///" : gostring) ("  /// File does  X.  " : gostring)
                eq_refl) as (sp & Hsp & Htrim & _).
    by exists sp.
  - by apply Hnone.
Defined.

(** ** Indented comment lines *)

(** C3. With the exclusion of indented comment lines switched on, a
    comment line whose prefix comes after white space only is passed over:
    the loop of [extractTopComment] goes on with the next line and collects
    nothing, so the line leaves no trace in the description of the module,
    and a round of [extractElements] that looks for the start of a run uses
    up the line and emits nothing. Inside a run that has started the same
    line is collected into the description. The test of the source for
    such a line, [indented], holds in particular for every comment line
    that starts with ASCII white space. *)
Theorem indented_comment_asymmetry :
  (∀ ws prefix tail : gostring,
      ws ≠ [] → Forall (λ c, asciiSpace c = true) ws →
      startsWith (λ c, negb (asciiSpace c)) prefix = true →
      indented prefix (ws ++ prefix ++ tail) = true)
  ∧ ∀ prefix line : gostring,
    isDoc prefix line = true → indented prefix line = true →
    (∀ rest desc,
        topLoop (line :: rest) prefix true desc
        = topLoop rest prefix true desc)
    ∧ (∀ before rest,
        Forall (λ l, isDoc prefix l = true) before →
        extractTopComment (before ++ line :: rest) prefix true
        = (extractTopComment (before ++ rest) prefix true))
    ∧ (∀ rest elements,
        iteration (line :: rest) prefix true elements = (elements, rest))
    ∧ (∀ rest,
        extractElements (line :: rest) prefix true
        = extractElements rest prefix true)
    ∧ (∀ rest desc,
        collectDesc (line :: rest) prefix desc
        = collectDesc rest prefix (desc ++ [content prefix line]))
    ∧ (∀ (first : gostring) rest elements,
        isDoc prefix first = true → indented prefix first = false →
        ∃ id sig rest',
          iteration (first :: line :: rest) prefix true elements
          = (elements
             ++ [mkElement id
                   (Join (content prefix first :: content prefix line
                          :: (content prefix
                                <$> takeWhile (isDoc prefix) rest)) nl)
                   sig],
             rest')).
Proof.
  split; [exact indented_ascii|].
  intros prefix line Hdoc Hind.
  split; [|split; [|split; [|split; [|split]]]].
  - intros rest desc. cbn [topLoop]. by rewrite Hdoc, Hind.
  - intros before rest Hbefore. unfold extractTopComment.
    rewrite !topLoop_spec.
    destruct (takeWhile_app_all (isDoc prefix) before (line :: rest) Hbefore)
      as [-> ->].
    destruct (takeWhile_app_all (isDoc prefix) before rest Hbefore)
      as [-> ->].
    cbn [takeWhile dropWhile]. rewrite Hdoc.
    rewrite !List.filter_app. cbn [List.filter].
    unfold excluded at 2. by rewrite Hind.
  - intros rest elements. rewrite iteration_cases. unfold excluded.
    by rewrite Hdoc, Hind.
  - intros rest.
    change (loopFrom (line :: rest) prefix true []
            = loopFrom rest prefix true []).
    apply loopFrom_skip. unfold excluded. by rewrite Hdoc, Hind.
  - intros rest desc. cbn [collectDesc]. by rewrite Hdoc.
  - intros first rest elements Hfirst Hnot.
    rewrite iteration_cases. unfold excluded. rewrite Hfirst, Hnot.
    cbn [andb negb]. unfold emitted. cbn [takeWhile].
    rewrite Hfirst, Hdoc. by eexists _, _, _.
Qed.

Lemma indented_comment_asymmetry_witness :
  extractTopComment
    (golines ["/// Header."; "    /// inner note"; "/// More."; "int x;"])
    "///" true
  = extractTopComment (golines ["/// Header."; "/// More."; "int x;"])
      "///" true
  ∧ extractElements (golines ["    /// inner note"; "int y;"]) "///" true
    = extractElements (golines ["int y;"]) "///" true
  ∧ ∃ id sig rest',
      iteration
        (golines ["/// Adds."; "    /// inner note"; "int add(int a);"])
        "///" true []
      = ([] ++ [mkElement id ("Adds." ++ nl ++ "inner note") sig], rest').
Proof.
  destruct indented_comment_asymmetry as [Hascii Hskip].
  assert (indented "///" ("    " ++ "///" ++ " inner note") = true) as Hind.
  { apply Hascii; [done|by repeat constructor|done]. }
  destruct (Hskip ("///" : gostring) ("    /// inner note" : gostring)
              eq_refl Hind)
    as (_ & Htop & _ & Hseek & _ & Hinside).
  split; [|split].
  - apply (Htop (golines ["/// Header."])
                (golines ["/// More."; "int x;"])).
    by repeat constructor.
  - apply Hseek.
  - destruct (Hinside ("/// Adds." : gostring) (golines ["int add(int a);"]) []
                eq_refl eq_refl) as (id & sig & rest' & H).
    by exists id, sig, rest'.
Defined.

(** ** Termination *)

(** C10. [extractElements] terminates on every input: each round of its
    outer loop leaves strictly fewer lines than it found, a suffix of them,
    so the loop reaches the end of the input within as many rounds as there
    are lines, and more rounds change nothing. A round that collects an
    empty description emits nothing and still moves on. *)
Theorem extractElements_terminates :
  (∀ (line : gostring) rest prefix ign elements,
      (iteration (line :: rest) prefix ign elements).2 `suffix_of` rest
      ∧ length (iteration (line :: rest) prefix ign elements).2
        < length (line :: rest))
  ∧ (∀ (line : gostring) rest prefix ign elements,
      (collectDesc (line :: rest) prefix []).1 = [] →
      (iteration (line :: rest) prefix ign elements).1 = elements)
  ∧ (∀ (lines : list gostring) prefix ign,
      (extractElements lines prefix ign).2 = [])
  ∧ (∀ (lines : list gostring) prefix ign fuel,
      length lines ≤ fuel →
      elementsLoop fuel lines prefix ign []
      = extractElements lines prefix ign).
Proof.
  split; [|split; [|split]].
  - intros line rest prefix ign elements.
    split; [apply iteration_suffix|].
    pose proof (iteration_length line rest prefix ign elements).
    cbn [length]. lia.
  - intros line rest prefix ign elements Hempty. unfold iteration.
    destruct (negb (isDoc prefix line)); [done|].
    destruct (ign && indented prefix line); [done|].
    destruct (collectDesc (line :: rest) prefix []) as [desc lines1].
    cbn [fst] in Hempty. by rewrite Hempty.
  - intros lines prefix ign. by apply elementsLoop_exhausts.
  - intros lines prefix ign fuel Hfuel. by apply elementsLoop_fuel.
Qed.

Lemma extractElements_terminates_witness :
  (iteration (golines ["int x;"; "/// Doc."; "int y;"]) "///" false []).1 = []
  ∧ elementsLoop 7 (golines ["/// Doc."; ""; "int y;"; "}"]) "///" false []
    = extractElements (golines ["/// Doc."; ""; "int y;"; "}"]) "///" false.
Proof.
  destruct extractElements_terminates as (_ & Hempty & _ & Hfuel).
  split.
  - by apply (Hempty ("int x;" : gostring)).
  - apply Hfuel. vm_compute. lia.
Defined.

(** ** Identifier derivation *)

(** C4. [extractIDFromSig] tries its rules in order and the first that
    applies gives the identifier: (1) a signature that starts with [class]
    or [struct], white space and a word gives that word; (2) otherwise the
    word of the first call, a word followed by an opening parenthesis with
    or without white space between them, is the identifier; (3) otherwise
    the first field of the signature as [strings.Fields] splits it, that
    is the text between the leading white space and the next white space;
    (4) otherwise, without any field, the empty string, and then the
    element extractor names the element [unnamed_<k>], with [k] the number
    of elements it has emitted so far. ["class Widget"] gives ["Widget"],
    ["int add(int a, int b)"] gives ["add"], and the empty signature after
    one emitted element gives ["unnamed_1"]. *)
Theorem extractIDFromSig_fallback :
  (∀ sig id : gostring, classMatch sig id → extractIDFromSig sig = id)
  ∧ (∀ sig id : gostring,
      (¬ ∃ id', classMatch sig id') → firstCall sig id →
      extractIDFromSig sig = id)
  ∧ (∀ sig : gostring,
      (¬ ∃ id, classMatch sig id) → (¬ ∃ id, firstCall sig id) →
      extractIDFromSig sig
      = match Fields sig with
        | word :: _ => word
        | [] => []
        end)
  ∧ (∀ sp word rest : gostring,
      (¬ ∃ id, classMatch (sp ++ word ++ rest) id) →
      (¬ ∃ id, firstCall (sp ++ word ++ rest) id) →
      whitespace sp → word ≠ [] → Forall (λ c, spaceLead c = false) word →
      rest = [] ∨ is_Some (spaceRune rest) →
      extractIDFromSig (sp ++ word ++ rest) = word)
  ∧ (∀ sig : gostring,
      (¬ ∃ id, classMatch sig id) → (¬ ∃ id, firstCall sig id) →
      whitespace sig → extractIDFromSig sig = [])
  ∧ (∀ (line : gostring) rest prefix ign elements,
      isDoc prefix line = true → excluded prefix ign line = false →
      ∃ e rest',
        iteration (line :: rest) prefix ign elements = (elements ++ [e], rest')
        ∧ ID e = if bool_decide (extractIDFromSig (Signature e) = [])
                 then "unnamed_" ++ Fmt.decimal (length elements)
                 else extractIDFromSig (Signature e))
  ∧ extractIDFromSig "class Widget" = "Widget"
  ∧ extractIDFromSig "int add(int a, int b)" = "add"
  ∧ extractIDFromSig "" = ""
  ∧ (∀ (e : Element) ign,
      iteration (golines ["/// Last words."]) "///" ign [e]
      = ([e; mkElement "unnamed_1" "Last words." ""], [])).
Proof.
  split; [exact extractIDFromSig_class|].
  split; [exact extractIDFromSig_call|].
  split.
  { intros sig Hclass Hcall. rewrite extractIDFromSig_fields by done.
    by destruct (Fields sig). }
  split.
  { intros sp word rest Hclass Hcall Hsp Hne Hword Hrest.
    rewrite extractIDFromSig_fields by done.
    by rewrite Fields_first. }
  split.
  { intros sig Hclass Hcall Hsp. rewrite extractIDFromSig_fields by done.
    by rewrite Fields_none. }
  split.
  { intros line rest prefix ign elements Hdoc Hex.
    rewrite iteration_cases, Hdoc, Hex. cbn [andb negb].
    unfold emitted. by eexists _, _. }
  split; [vm_compute; reflexivity|]. split; [vm_compute; reflexivity|]. split; [vm_compute; reflexivity|].
  intros e [|]; (vm_compute; reflexivity).
Qed.

Lemma extractIDFromSig_fallback_witness :
  extractIDFromSig "struct Point {" = "Point"
  ∧ extractIDFromSig "int add(int a, int b)" = "add"
  ∧ extractIDFromSig "x = 5" = "x"
  ∧ ∃ e rest',
      iteration (golines ["/// Adds."; "int add(int a, int b) {"]) "///" true []
      = ([] ++ [e], rest')
      ∧ ID e = if bool_decide (extractIDFromSig (Signature e) = [])
               then "unnamed_" ++ Fmt.decimal 0
               else extractIDFromSig (Signature e).
Proof.
  destruct extractIDFromSig_fallback as (H1 & H2 & _ & H3 & _ & H4 & _).
  split; [|split; [|split]].
  - apply H1. exists ("struct" : gostring), (" " : gostring), (" {" : gostring).
    split; [by right|]. split; [done|]. split; [by repeat constructor|].
    split; [done|]. split; [by repeat constructor|]. done.
  - apply H2.
    + apply no_classMatch. vm_compute; reflexivity.
    + apply (firstCall_intro "int " "add(int a, int b)" "int a, int b)");
        vm_compute; reflexivity.
  - apply (H3 [] ("x" : gostring) (" = 5" : gostring)).
    + apply no_classMatch. vm_compute; reflexivity.
    + apply no_firstCall. vm_compute; reflexivity.
    + by exists [].
    + done.
    + by repeat constructor.
    + right. by eexists.
  - apply (H4 ("/// Adds." : gostring)); (vm_compute; reflexivity).
Defined.

(** ** Signature capture *)

(** C5. Where the signature is read: when the current line is not blank,
    the signature is that line trimmed, without the white space and the
    single opening brace it may end with, and one line is consumed; when
    the line is blank or the input is used up, the signature is empty and
    no line is consumed. The white space before the brace is that of the
    pattern, [\s]. The element of the round carries this signature and the
    round goes on after the consumed line. *)
Theorem captureSig_spec :
  (∀ (line : gostring) rest,
      blank line = false →
      (captureSig (line :: rest)).2 = rest
      ∧ (∀ body ws : gostring,
           TrimSpace line = body ++ ws ++ "{" →
           Forall (λ c, perlSpace c = true) ws →
           endsWith perlSpace body = false →
           (captureSig (line :: rest)).1 = body)
      ∧ (endsWith (Ascii.eqb "{") (TrimSpace line) = false →
         (captureSig (line :: rest)).1 = TrimSpace line)
      ∧ (endsWith (Ascii.eqb "{") (TrimSpace line) = true →
         ∃ body ws : gostring,
           TrimSpace line = body ++ ws ++ "{"
           ∧ Forall (λ c, perlSpace c = true) ws
           ∧ endsWith perlSpace body = false))
  ∧ (∀ (line : gostring) rest,
      blank line = true → captureSig (line :: rest) = ([], line :: rest))
  ∧ captureSig [] = ([], [])
  ∧ (∀ (line : gostring) rest prefix ign elements,
      isDoc prefix line = true → excluded prefix ign line = false →
      ∃ id desc,
        iteration (line :: rest) prefix ign elements
        = let current :=
            skipGap (dropWhile (isDoc prefix) (line :: rest)) prefix in
          (elements ++ [mkElement id desc (captureSig current).1],
           (captureSig current).2)).
Proof.
  split; [|split; [|split]].
  - intros line rest Hblank. cbn [captureSig]. rewrite Hblank. cbn [negb fst snd].
    split; [done|]. split; [|split].
    + intros body ws -> Hws Hbody.
      by apply ReplaceAllString_braceRe_strip.
    + apply ReplaceAllString_braceRe_keep.
    + apply brace_cases.
  - intros line rest Hblank. cbn [captureSig]. by rewrite Hblank.
  - done.
  - intros line rest prefix ign elements Hdoc Hex.
    rewrite iteration_cases, Hdoc, Hex. cbn [andb negb].
    unfold emitted. by eexists _, _.
Qed.

Lemma captureSig_spec_witness :
  (captureSig (golines ["  int add(int a, int b)  {  "; "  return a + b;"])).2
  = golines ["  return a + b;"]
  ∧ (captureSig (golines ["  int add(int a, int b)  {  "; "  return a + b;"])).1
    = "int add(int a, int b)"
  ∧ (captureSig (golines ["var total = 0;"; ""])).1 = "var total = 0;"
  ∧ captureSig (golines ["   "; "x"]) = ([], golines ["   "; "x"])
  ∧ ∃ id desc,
      iteration (golines ["/// Adds."; ""; "int add(int a, int b) {"; "}"])
        "///" true []
      = ([] ++ [mkElement id desc "int add(int a, int b)"], golines ["}"]).
Proof.
  destruct captureSig_spec as (H1 & H2 & _ & H4).
  destruct (H1 ("  int add(int a, int b)  {  " : gostring)
               (golines ["  return a + b;"]) eq_refl) as (Ha & Hb & _).
  destruct (H1 ("var total = 0;" : gostring) (golines [""]) eq_refl)
    as (_ & _ & Hc & _).
  split; [exact Ha|]. split; [|split; [|split]].
  - apply (Hb ("int add(int a, int b)" : gostring) ("  " : gostring)).
    + vm_compute; reflexivity.
    + by repeat constructor.
    + vm_compute; reflexivity.
  - apply Hc. vm_compute; reflexivity.
  - by apply (H2 ("   " : gostring)).
  - destruct (H4 ("/// Adds." : gostring)
                 (golines [""; "int add(int a, int b) {"; "}"])
                 ("///" : gostring) true [] eq_refl eq_refl) as (id & desc & H).
    exists id, desc. etrans; [exact H|]. vm_compute; reflexivity.
Defined.

(** ** Backlink resolution *)

(** C6. [ProcessBacklinks] rewrites every bracketed token [[text]] whose
    text is a key of the index into [[text](location)], with the location
    the index gives for that key; a bracketed token whose text is not a key
    and all the text outside bracketed tokens stay as they are. A bracketed
    token is what the pattern matches: an opening bracket, a non-empty text
    without closing bracket, a closing bracket; tokens are read from left to
    right and do not overlap. So: up to its first token the text is
    unchanged, the token is rewritten or kept according to the index, and
    the text after the token is processed in the same way; a text in which
    no token starts is unchanged. With the index [{"add": "math.md#add"}],
    ["See [add] and [missing]."] becomes
    ["See [add](math.md#add) and [missing]."]. *)
Theorem ProcessBacklinks_rewrites_tokens :
  (∀ (linkIndex : gmap gostring gostring) (prefix out text rest : gostring),
      token text → outside out ("[" ++ text ++ "]" ++ rest) →
      ProcessBacklinks (out ++ "[" ++ text ++ "]" ++ rest) linkIndex prefix
      = out
        ++ match linkIndex !! text with
           | Some location => "[" ++ text ++ "](" ++ location ++ ")"
           | None => "[" ++ text ++ "]"
           end
        ++ ProcessBacklinks rest linkIndex prefix)
  ∧ (∀ (linkIndex : gmap gostring gostring) (prefix desc : gostring),
      outside desc [] → ProcessBacklinks desc linkIndex prefix = desc)
  ∧ (∀ prefix : gostring,
      ProcessBacklinks "See [add] and [missing]."
        {[ ("add" : gostring) := ("math.md#add" : gostring) ]} prefix
      = "See [add](math.md#add) and [missing].").
Proof.
  split; [|split].
  - intros linkIndex prefix out text rest Htok Hout.
    exact (ProcessBacklinks_found linkIndex prefix out text rest Htok Hout).
  - intros linkIndex prefix desc Hout.
    by apply ProcessBacklinks_none.
  - intros prefix. vm_compute; reflexivity.
Qed.

Lemma ProcessBacklinks_rewrites_tokens_witness :
  let linkIndex : gmap gostring gostring :=
    {[ ("add" : gostring) := ("math.md#add" : gostring) ]} in
  ProcessBacklinks ("See " ++ "[" ++ "add" ++ "]" ++ " and [missing].")
    linkIndex "///"
  = "See " ++ "[add](math.md#add)"
    ++ ProcessBacklinks " and [missing]." linkIndex "///".
Proof.
  intros linkIndex.
  refine (proj1 ProcessBacklinks_rewrites_tokens linkIndex "///" "See " "add"
            " and [missing]." _ _).
  - split; [done|]. by apply notClose_Forall; repeat constructor.
  - apply outsideb_spec. vm_compute; reflexivity.
Defined.

(** C7. [ProcessBacklinks] is not idempotent: run on its own output, it
    matches the bracketed text of a link it wrote before and appends the
    location a second time. This holds for every bracketed key whose
    location holds no opening bracket, and so for the index
    [{"add": "math.md#add"}] and the description ["See [add]."]. *)
Theorem ProcessBacklinks_not_idempotent :
  (∀ (linkIndex : gmap gostring gostring) (prefix text location : gostring),
      token text → linkIndex !! text = Some location →
      "["%char ∉ location →
      let once := ProcessBacklinks ("[" ++ text ++ "]") linkIndex prefix in
      once = "[" ++ text ++ "](" ++ location ++ ")"
      ∧ ProcessBacklinks once linkIndex prefix = once ++ "(" ++ location ++ ")"
      ∧ ProcessBacklinks once linkIndex prefix ≠ once)
  ∧ (let linkIndex : gmap gostring gostring :=
       {[ ("add" : gostring) := ("math.md#add" : gostring) ]} in
     ProcessBacklinks "See [add]." linkIndex "///" = "See [add](math.md#add)."
     ∧ ProcessBacklinks "See [add](math.md#add)." linkIndex "///"
       = "See [add](math.md#add)(math.md#add).")
  ∧ ∃ (desc : gostring) (index : gmap gostring gostring) (prefix : gostring),
      ProcessBacklinks (ProcessBacklinks desc index prefix) index prefix
      ≠ ProcessBacklinks desc index prefix.
Proof.
  split; [|split].
  - intros linkIndex prefix text location Htok Hkey Hloc once.
    destruct (ProcessBacklinks_twice linkIndex prefix text location
                Htok Hkey Hloc) as [Honce Htwice].
    assert (once = Fmt.link text location) as -> by exact Honce.
    split; [done|]. split; [exact Htwice|].
    rewrite Htwice. intros Heq.
    rewrite <- (app_nil_r (Fmt.link text location)) in Heq at 2.
    by apply app_inv_head in Heq.
  - intros linkIndex. split; vm_compute; reflexivity.
  - exists ("See [add]." : gostring),
           ({[ ("add" : gostring) := ("math.md#add" : gostring) ]}),
           ("///" : gostring).
    vm_compute. discriminate.
Qed.

Lemma ProcessBacklinks_not_idempotent_witness :
  let linkIndex : gmap gostring gostring :=
    {[ ("add" : gostring) := ("math.md#add" : gostring) ]} in
  ProcessBacklinks (ProcessBacklinks "[add]" linkIndex "///") linkIndex "///"
  = ProcessBacklinks "[add]" linkIndex "///" ++ "(math.md#add)".
Proof.
  intros linkIndex.
  refine (proj1 (proj2 (proj1 ProcessBacklinks_not_idempotent linkIndex "///"
                          "add" "math.md#add" _ _ _))).
  - split; [done|]. by apply notClose_Forall; repeat constructor.
  - vm_compute; reflexivity.
  - apply no_open_bracket. by repeat constructor.
Defined.

(** ** The text kept from a comment line *)

(** The white space at the end of a comment line is not kept. *)
Lemma stored_line_loses_trailing_space : ¬ stored_line_verbatim.
Proof.
  intros H.
  destruct (H ("///" : gostring) ("/// Ends with spaces.  " : gostring) eq_refl)
    as [Htop _].
  vm_compute in Htop. discriminate Htop.
Qed.

(** C8, amended. A stored description line is the trimmed source line
    without the comment prefix and without the one space that may follow
    the prefix: the white space at both ends of the source line is not
    kept, the white space inside the line is. The description of the
    module and the description of every element are such lines, joined
    with newlines. *)
Theorem stored_line_is_trimmed :
  (∀ prefix line : gostring,
      isDoc prefix line = true →
      (∀ ign, excluded prefix ign line = false →
              topLoop [line] prefix ign [] = ([content prefix line], []))
      ∧ collectDesc [line] prefix [] = ([content prefix line], [])
      ∧ ∃ sp : gostring,
          (sp = [] ∨ sp = " ")
          ∧ TrimSpace line = prefix ++ sp ++ content prefix line
          ∧ (sp = [] →
             startsWith (Ascii.eqb " ") (content prefix line) = false))
  ∧ (∀ (lines : list gostring) prefix ign,
      ∃ leading rest,
        lines = leading ++ rest
        ∧ (extractTopComment lines prefix ign).1
          = Join (content prefix
                    <$> List.filter (λ l, negb (excluded prefix ign l))
                                    leading) nl)
  ∧ (∀ (lines : list gostring) prefix ign e,
      e ∈ (extractElements lines prefix ign).1 →
      ∃ before comments rest,
        lines = before ++ comments ++ rest
        ∧ Description e = Join (content prefix <$> comments) nl).
Proof.
  split; [|split].
  - intros prefix line Hdoc. split; [|split].
    + intros ign Hex. cbn [topLoop]. rewrite Hdoc. cbn [negb].
      unfold excluded in Hex. by rewrite Hex.
    + cbn [collectDesc]. by rewrite Hdoc.
    + by apply content_spec.
  - intros lines prefix ign.
    exists (takeWhile (isDoc prefix) lines), (dropWhile (isDoc prefix) lines).
    split; [by rewrite takeWhile_dropWhile|].
    unfold extractTopComment. by rewrite topLoop_spec.
  - intros lines prefix ign e He.
    assert (Forall (fromRun prefix lines)
              (loopFrom lines prefix ign []).1) as Hall
      by (by apply loopFrom_origin).
    rewrite Forall_forall in Hall.
    destruct (Hall e He) as (before & comments & rest & ? & _ & _ & _ & ? & _).
    by exists before, comments, rest.
Qed.

Lemma stored_line_is_trimmed_witness :
  topLoop (golines ["  /// Ends  with spaces.  "]) "///" false []
  = (golines ["Ends  with spaces."], [])
  ∧ collectDesc (golines ["  /// Ends  with spaces.  "]) "///" []
    = (golines ["Ends  with spaces."], [])
  ∧ ∃ before comments rest,
      golines ["int x;"; "///  Counts.  "; "int n = 0;"]
      = before ++ comments ++ rest
      ∧ (" Counts." : gostring) = Join (content "///" <$> comments) nl.
Proof.
  destruct stored_line_is_trimmed as (Hline & _ & Helem).
  destruct (Hline ("///" : gostring) ("  /// Ends  with spaces.  " : gostring)
              eq_refl) as (Htop & Hcollect & _).
  split; [|split].
  - by apply (Htop false).
  - exact Hcollect.
  - apply (Helem (golines ["int x;"; "///  Counts.  "; "int n = 0;"])
                 ("///" : gostring) false
                 (mkElement "int" " Counts." "int n = 0;")).
    vm_compute. by left.
Defined.

(** ** Runs without a signature *)

(** A comment line at the end of the input gives an element without
    signature, named [unnamed_0]. *)
Lemma run_without_signature_yields_element :
  ¬ run_without_signature_yields_nothing.
Proof.
  intros H.
  specialize (H ("///" : gostring) false (golines ["/// Closing remark."]) []).
  assert ((extractElements (golines ["/// Closing remark."] ++ []) "///" false).1
          = [mkElement "unnamed_0" "Closing remark." ""]) as Hrun
    by (vm_compute; reflexivity).
  rewrite Hrun in H. discriminate H; [done|by repeat constructor|constructor].
Qed.

(** A round that does not reach the end of the lines it is given is not
    changed by what follows them. *)
Lemma skipGap_head (lines : list gostring) prefix :
  startsWith (λ l, blank l || isDoc prefix l) (skipGap lines prefix) = false.
Proof.
  induction lines as [|l lines IH]; cbn [skipGap]; [done|].
  destruct (blank l || isDoc prefix l) eqn:E; [done|].
  cbn [startsWith]. done.
Qed.

Lemma skipGap_dropWhile (lines : list gostring) prefix :
  skipGap lines prefix = dropWhile (λ l, blank l || isDoc prefix l) lines.
Proof.
  induction lines as [|l lines IH]; cbn [skipGap dropWhile]; [done|].
  by destruct (blank l || isDoc prefix l).
Qed.

Lemma dropWhile_app_ne {A} (p : A → bool) (a b : list A) :
  dropWhile p a ≠ [] →
  takeWhile p (a ++ b) = takeWhile p a
  ∧ dropWhile p (a ++ b) = dropWhile p a ++ b.
Proof.
  induction a as [|x a IH]; cbn [app takeWhile dropWhile]; [done|].
  destruct (p x); [|done]. intros [-> ->]%IH. done.
Qed.

Lemma dropWhile_snoc {A} (p : A → bool) (a : list A) x :
  p x = false → ∃ s, dropWhile p (a ++ [x]) = s ++ [x].
Proof.
  intros Hx. induction a as [|y a IH]; cbn [app dropWhile].
  - rewrite Hx. by exists [].
  - destruct (p y); [done|]. by exists (y :: a).
Qed.

Lemma suffix_snoc_cases {A} (g a : list A) x :
  g `suffix_of` a ++ [x] →
  g = [] ∨ ∃ s, g = s ++ [x] ∧ length s ≤ length a.
Proof.
  intros [k Hk]. destruct g as [|y g] using rev_ind; [by left|]. right.
  rewrite app_assoc in Hk. apply app_inj_tail in Hk as [-> ->].
  exists g. split; [done|]. rewrite length_app. lia.
Qed.

Lemma skipGap_app_ne (d rest : list gostring) prefix :
  skipGap d prefix ≠ [] →
  skipGap (d ++ rest) prefix = skipGap d prefix ++ rest.
Proof.
  rewrite !skipGap_dropWhile. by intros [_ ->]%(dropWhile_app_ne _ d rest).
Qed.

Lemma captureSig_app (g rest : list gostring) :
  g ≠ [] → startsWith blank g = false →
  captureSig (g ++ rest) = ((captureSig g).1, (captureSig g).2 ++ rest).
Proof.
  destruct g as [|l g]; [done|]. intros _ Hl. cbn [startsWith] in Hl.
  cbn [app captureSig]. by rewrite Hl.
Qed.

Lemma emitted_app (lines rest : list gostring) prefix elements :
  skipGap (dropWhile (isDoc prefix) lines) prefix ≠ [] →
  emitted (lines ++ rest) prefix elements
  = ((emitted lines prefix elements).1,
     (emitted lines prefix elements).2 ++ rest).
Proof.
  intros Hgap. unfold emitted.
  assert (dropWhile (isDoc prefix) lines ≠ []) as Hrun
    by (by intros E; rewrite E in Hgap).
  destruct (dropWhile_app_ne (isDoc prefix) lines rest Hrun) as [-> ->].
  rewrite skipGap_app_ne by done.
  pose proof (skipGap_head (dropWhile (isDoc prefix) lines) prefix) as Hhead.
  rewrite captureSig_app; [done|done|].
  destruct (skipGap (dropWhile (isDoc prefix) lines) prefix) as [|l g];
    [done|]. cbn [startsWith] in Hhead |- *.
  by apply orb_false_iff in Hhead as [? _].
Qed.

(** The loop does not step over a line of code: it comes to the line
    after it with the elements found up to it. *)
Lemma loopFrom_code (p : list gostring) (code : gostring) rest prefix ign
    elements :
  codeLine prefix code = true →
  loopFrom (p ++ code :: rest) prefix ign elements
  = loopFrom rest prefix ign (loopFrom (p ++ [code]) prefix ign elements).1.
Proof.
  intros Hcode. apply andb_true_iff in Hcode as [Hblank Hdoc].
  apply negb_true_iff in Hblank, Hdoc.
  remember (length p) as n eqn:Hn. revert p Hn elements.
  induction (lt_wf n) as [n _ IH]. intros p -> elements.
  destruct p as [|l p].
  - cbn [app]. rewrite !loopFrom_skip by (by rewrite Hdoc). done.
  - cbn [app]. rewrite (loopFrom_cons l (p ++ code :: rest)).
    rewrite (loopFrom_cons l (p ++ [code])). rewrite !iteration_cases.
    destruct (isDoc prefix l && negb (excluded prefix ign l)) eqn:E.
    + apply andb_true_iff in E as [Hl _].
      assert (skipGap (dropWhile (isDoc prefix) (l :: p ++ [code])) prefix
              ≠ []) as Hgap.
      { destruct (dropWhile_snoc (isDoc prefix) (l :: p) code Hdoc)
          as [s Hs]. cbn [app] in Hs. rewrite Hs, skipGap_dropWhile.
        destruct (dropWhile_snoc (λ l, blank l || isDoc prefix l) s code)
          as [s' Hs']; [by rewrite Hblank, Hdoc|].
        rewrite Hs'. by destruct s'. }
      replace (l :: p ++ code :: rest) with ((l :: p ++ [code]) ++ rest)
        by (cbn [app]; by rewrite <- app_assoc).
      rewrite emitted_app by done. cbn [fst snd].
      pose proof (emitted_suffix l (p ++ [code]) prefix elements Hl) as Hsuf.
      apply suffix_snoc_cases in Hsuf as [-> | (s & -> & Hlen)]; [done|].
      rewrite <- app_assoc. cbn [app].
      apply (IH (length s)); [cbn [length]; lia|done].
    + apply (IH (length p)); [cbn [length]; lia|done].
Qed.

Lemma loopFrom_skips (junk rest : list gostring) prefix ign elements :
  Forall (λ l, skipped prefix ign l = true) junk →
  loopFrom (junk ++ rest) prefix ign elements
  = loopFrom rest prefix ign elements.
Proof.
  induction 1 as [|l junk Hl _ IH]; cbn [app]; [done|].
  rewrite loopFrom_skip; [done|]. by apply negb_true_iff in Hl.
Qed.

Lemma loopFrom_roundStart (before rest : list gostring) prefix ign elements :
  roundStart prefix ign before →
  loopFrom (before ++ rest) prefix ign elements
  = loopFrom rest prefix ign (loopFrom before prefix ign elements).1.
Proof.
  intros (pre & junk & -> & Hjunk & [-> | (p & code & -> & Hcode)]).
  - cbn [app]. rewrite loopFrom_skips by done.
    pose proof (loopFrom_skips junk [] prefix ign elements Hjunk) as H.
    rewrite app_nil_r in H. by rewrite H.
  - rewrite <- !app_assoc. cbn [app].
    rewrite (loopFrom_code p code (junk ++ rest)) by done.
    rewrite (loopFrom_code p code junk) by done.
    rewrite loopFrom_skips by done.
    pose proof (loopFrom_skips junk [] prefix ign
                  (loopFrom (p ++ [code]) prefix ign elements).1 Hjunk) as H.
    rewrite app_nil_r in H. by rewrite H.
Qed.

(** A run with nothing but blank and comment lines after it is the last
    the loop sees. *)
Lemma loopFrom_final (line : gostring) rest prefix ign elements :
  isDoc prefix line = true → excluded prefix ign line = false →
  Forall (λ l, blank l || isDoc prefix l = true) rest →
  loopFrom (line :: rest) prefix ign elements
  = (elements
     ++ [mkElement (Fmt.unnamed (length elements))
           (Join (content prefix <$> takeWhile (isDoc prefix) (line :: rest))
                 nl)
           []],
     []).
Proof.
  intros Hdoc Hex Hrest.
  rewrite loopFrom_cons, iteration_cases, Hdoc, Hex. cbn [andb negb].
  unfold emitted.
  assert (skipGap (dropWhile (isDoc prefix) (line :: rest)) prefix = [])
    as ->; [|done].
  apply skipGap_all. cbn [dropWhile]. rewrite Hdoc.
  destruct (dropWhile_suffix (isDoc prefix) rest) as [k Hk].
  rewrite Hk in Hrest. by apply Forall_app in Hrest as [_ ?].
Qed.

(** C9, amended. Every element comes from a run of comment lines that is
    not empty: its description is made of the lines of that run. A run
    with blank or comment lines only after it, up to the end of the
    input, still gives an element when the loop starts a round at its
    first line and the policy does not exclude that line: the last
    element, with the lines of the run for its description, an empty
    signature and the identifier [unnamed_<k>], where [k] counts the
    elements before it. The loop starts a round there when the lines
    before the run are lines the seek stage passes over, or hold a line of
    code after which only such lines follow. Comment lines that a blank
    line separates from the run before them give no element of their own,
    and neither does a run of indented comment lines that the policy
    excludes. *)
Theorem elements_come_from_runs :
  (∀ (lines : list gostring) prefix ign e,
      e ∈ (extractElements lines prefix ign).1 →
      ∃ before comments rest,
        lines = before ++ comments ++ rest
        ∧ comments ≠ []
        ∧ Forall (λ l, isDoc prefix l = true) comments
        ∧ Description e = Join (content prefix <$> comments) nl)
  ∧ (∀ (prefix : gostring) (ign : bool) (before : list gostring)
       (line : gostring) (rest : list gostring),
      roundStart prefix ign before →
      isDoc prefix line = true → excluded prefix ign line = false →
      Forall (λ l, blank l || isDoc prefix l = true) rest →
      extractElements (before ++ line :: rest) prefix ign
      = ((extractElements before prefix ign).1
         ++ [mkElement
               ("unnamed_"
                ++ Fmt.decimal (length (extractElements before prefix ign).1))
               (Join (content prefix
                        <$> takeWhile (isDoc prefix) (line :: rest)) nl)
               []],
         []))
  ∧ (extractElements (golines ["/// A"; ""; "/// B"]) "///" false).1
    = [mkElement "unnamed_0" "A" ""]
  ∧ (extractElements (golines ["  /// Closing remark."]) "///" true).1 = [].
Proof.
  split; [|split; [|split]].
  - intros lines prefix ign e He.
    assert (Forall (fromRun prefix lines)
              (loopFrom lines prefix ign []).1) as Hall
      by (by apply loopFrom_origin).
    rewrite Forall_forall in Hall.
    destruct (Hall e He) as (before & comments & rest & ? & ? & ? & _ & ? & _).
    by exists before, comments, rest.
  - intros prefix ign before line rest Hstart Hdoc Hex Hrest.
    change (loopFrom (before ++ line :: rest) prefix ign []
            = ((loopFrom before prefix ign []).1
               ++ [mkElement
                     (Fmt.unnamed (length (loopFrom before prefix ign []).1))
                     (Join (content prefix
                              <$> takeWhile (isDoc prefix) (line :: rest)) nl)
                     []],
               [])).
    rewrite loopFrom_roundStart by done.
    by apply loopFrom_final.
  - vm_compute; reflexivity.
  - vm_compute; reflexivity.
Qed.

Lemma elements_come_from_runs_witness :
  (∃ before comments rest,
      golines ["int x;"; "/// Counts."; "///  Twice."; ""; "int n = 0;"]
      = before ++ comments ++ rest
      ∧ comments ≠ []
      ∧ Forall (λ l, isDoc "///" l = true) comments
      ∧ ("Counts." ++ nl ++ " Twice." : gostring)
        = Join (content "///" <$> comments) nl)
  ∧ extractElements
      (golines ["/// Adds."; "int add()"; ""; "  /// skipped"]
         ++ ("/// Closing remark." : gostring)
            :: golines [""; "  /// and more"])
      "///" true
    = ([mkElement "add" "Adds." "int add()";
        mkElement "unnamed_1" "Closing remark." ""], []).
Proof.
  destruct elements_come_from_runs as (Horigin & Hend & _).
  split.
  - apply (Horigin
             (golines ["int x;"; "/// Counts."; "///  Twice."; ""; "int n = 0;"])
             ("///" : gostring) false
             (mkElement "int" ("Counts." ++ nl ++ " Twice.") "int n = 0;")).
    vm_compute. by left.
  - etrans; [apply (Hend ("///" : gostring) true
                      (golines ["/// Adds."; "int add()"; ""; "  /// skipped"])
                      ("/// Closing remark." : gostring)
                      (golines [""; "  /// and more"]))|].
    + exists (golines ["/// Adds."; "int add()"]),
             (golines [""; "  /// skipped"]).
      split; [reflexivity|]. split.
      * repeat constructor; vm_compute; reflexivity.
      * right. exists (golines ["/// Adds."]), ("int add()" : gostring).
        split; [reflexivity|]. vm_compute; reflexivity.
    + vm_compute; reflexivity.
    + vm_compute; reflexivity.
    + by repeat constructor.
    + vm_compute; reflexivity.
Defined.

(** * More of the program *)

(** ** [ParseFile]: the description of the module and the elements *)

(** X1. [ParseFile] on a file that can be read reports no error, sets the
    path and keeps the language and the metadata. The lines of the file
    split into the leading comment lines and the rest, which starts with a
    line that is not a comment line: the description of the module is made
    of leading lines only, and every element comes from a run of comment
    lines of the rest that lies after at least one other line, so the
    description of the module and the descriptions of the elements never
    share a line. *)
Theorem ParseFile_slices :
  ∀ (readFile : gostring → option gostring) (filePath : gostring) (f : File)
    (prefix : gostring) (ign : bool) (data : gostring),
    readFile filePath = Some data →
    ∃ leading rest,
      Split data nl = leading ++ rest
      ∧ Forall (λ l, isDoc prefix l = true) leading
      ∧ startsWith (isDoc prefix) rest = false
      ∧ (ParseFile readFile filePath f prefix ign).2 = false
      ∧ Path (ParseFile readFile filePath f prefix ign).1 = filePath
      ∧ Language (ParseFile readFile filePath f prefix ign).1 = Language f
      ∧ GitInfo (ParseFile readFile filePath f prefix ign).1 = GitInfo f
      ∧ ModuleDesc (ParseFile readFile filePath f prefix ign).1
        = Join (content prefix
                  <$> List.filter (λ l, negb (excluded prefix ign l)) leading)
               nl
      ∧ Elements (ParseFile readFile filePath f prefix ign).1
        = (extractElements rest prefix ign).1
      ∧ ∀ e, e ∈ Elements (ParseFile readFile filePath f prefix ign).1 →
             ∃ before comments after,
               rest = before ++ comments ++ after
               ∧ before ≠ [] ∧ comments ≠ []
               ∧ Forall (λ l, isDoc prefix l = true) comments
               ∧ Description e = Join (content prefix <$> comments) nl.
Proof.
  intros readFile filePath f prefix ign data Hread.
  exists (takeWhile (isDoc prefix) (Split data nl)),
         (dropWhile (isDoc prefix) (Split data nl)).
  split; [by rewrite takeWhile_dropWhile|].
  split; [apply takeWhile_Forall|].
  pose proof (dropWhile_head (isDoc prefix) (Split data nl)) as Hstop.
  split; [done|].
  unfold ParseFile. rewrite Hread. unfold extractTopComment.
  rewrite topLoop_spec.
  destruct (extractElements (dropWhile (isDoc prefix) (Split data nl))
              prefix ign) as [elements rest'] eqn:Hels.
  cbn [fst snd Path Language GitInfo ModuleDesc Elements].
  do 6 (split; [done|]).
  intros e He.
  assert (Forall (fromRun prefix (dropWhile (isDoc prefix) (Split data nl)))
            (loopFrom (dropWhile (isDoc prefix) (Split data nl)) prefix ign []).1)
    as Hall by (by apply loopFrom_origin).
  change (loopFrom ?l prefix ign []) with (extractElements l prefix ign) in Hall.
  rewrite Hels in Hall. rewrite Forall_forall in Hall.
  destruct (Hall e He)
    as (before & comments & after & Hsplit & Hne & Hdoc & _ & Hdesc & _).
  exists before, comments, after. split; [done|]. split; [|done].
  intros ->. cbn [app] in Hsplit. rewrite Hsplit in Hstop.
  destruct Hdoc as [|c comments Hc _]; [done|].
  cbn [app startsWith] in Hstop. congruence.
Qed.

Lemma ParseFile_slices_witness :
  ∃ leading rest,
    Split ("/// Vectors." ++ nl ++ "#pragma once" ++ nl ++ "/// Adds." ++ nl
           ++ "int add(int a);") nl
    = leading ++ rest
    ∧ ModuleDesc
        (ParseFile (λ _, Some ("/// Vectors." ++ nl ++ "#pragma once" ++ nl
                               ++ "/// Adds." ++ nl ++ "int add(int a);"))
           "vec.h" (mkFile "cpp" [] [] [] None) "///" false).1
      = Join (content "///"
                <$> List.filter (λ l, negb (excluded "///" false l)) leading)
             nl
    ∧ Elements
        (ParseFile (λ _, Some ("/// Vectors." ++ nl ++ "#pragma once" ++ nl
                               ++ "/// Adds." ++ nl ++ "int add(int a);"))
           "vec.h" (mkFile "cpp" [] [] [] None) "///" false).1
      = (extractElements rest "///" false).1.
Proof.
  destruct (ParseFile_slices
              (λ _, Some ("/// Vectors." ++ nl ++ "#pragma once" ++ nl
                          ++ "/// Adds." ++ nl ++ "int add(int a);"))
              ("vec.h" : gostring) (mkFile "cpp" [] [] [] None)
              ("///" : gostring) false _ eq_refl)
    as (leading & rest & Hsplit & _ & _ & _ & _ & _ & _ & Hdesc & Hels & _).
  by exists leading, rest.
Defined.

(** ** [ParseFile]: files that cannot be read, without or with nothing but
    comment lines *)

(** X2. A file that cannot be read makes [ParseFile] report the error and
    change nothing but the path. A file without comment lines gives an
    empty description and no element. A file made of comment lines only
    becomes the description of the module, as far as the indentation
    policy keeps the lines, and gives no element. *)
Theorem ParseFile_edges :
  (∀ (readFile : gostring → option gostring) (filePath : gostring) (f : File)
     (prefix : gostring) (ign : bool),
      readFile filePath = None →
      ParseFile readFile filePath f prefix ign
      = (mkFile (Language f) filePath (ModuleDesc f) (Elements f) (GitInfo f),
         true))
  ∧ (∀ (readFile : gostring → option gostring) (filePath : gostring)
       (f : File) (prefix : gostring) (ign : bool) (data : gostring),
      readFile filePath = Some data →
      Forall (λ l, isDoc prefix l = false) (Split data nl) →
      ModuleDesc (ParseFile readFile filePath f prefix ign).1 = []
      ∧ Elements (ParseFile readFile filePath f prefix ign).1 = [])
  ∧ (∀ (readFile : gostring → option gostring) (filePath : gostring)
       (f : File) (prefix : gostring) (ign : bool) (data : gostring),
      readFile filePath = Some data →
      Forall (λ l, isDoc prefix l = true) (Split data nl) →
      ModuleDesc (ParseFile readFile filePath f prefix ign).1
      = Join (content prefix
                <$> List.filter (λ l, negb (excluded prefix ign l))
                                (Split data nl)) nl
      ∧ Elements (ParseFile readFile filePath f prefix ign).1 = []).
Proof.
  split; [|split].
  - intros readFile filePath f prefix ign Hread. unfold ParseFile.
    by rewrite Hread.
  - intros readFile filePath f prefix ign data Hread Hnone.
    unfold ParseFile. rewrite Hread. unfold extractTopComment.
    rewrite topLoop_spec.
    assert (takeWhile (isDoc prefix) (Split data nl) = []
            ∧ dropWhile (isDoc prefix) (Split data nl) = Split data nl)
      as [-> ->].
    { destruct Hnone as [|l lines Hl _]; [done|]. cbn [takeWhile dropWhile].
      by rewrite Hl. }
    assert (extractElements (Split data nl) prefix ign = ([], [])) as ->.
    { pose proof (loopFrom_junk (Split data nl) [] prefix ign [] Hnone) as H.
      by rewrite app_nil_r in H. }
    done.
  - intros readFile filePath f prefix ign data Hread Hall.
    unfold ParseFile. rewrite Hread. unfold extractTopComment.
    rewrite topLoop_spec.
    destruct (takeWhile_app_all (isDoc prefix) (Split data nl) [] Hall)
      as [Ht Hd]. rewrite app_nil_r in Ht, Hd. cbn [takeWhile] in Ht.
    rewrite app_nil_r in Ht. cbn [dropWhile] in Hd. by rewrite Ht, Hd.
Qed.

Lemma ParseFile_edges_witness :
  ParseFile (λ _, None) "gone.h" (mkFile "cpp" "old.h" "Kept." [] None)
    "///" false
  = (mkFile "cpp" "gone.h" "Kept." [] None, true)
  ∧ Elements
      (ParseFile (λ _, Some ("int x;" ++ nl ++ "// plain" ++ nl)) "x.c"
         (mkFile "c" [] [] [] None) "///" true).1 = []
  ∧ ModuleDesc
      (ParseFile (λ _, Some ("/// One." ++ nl ++ "  /// Two.")) "x.c"
         (mkFile "c" [] [] [] None) "///" true).1 = "One.".
Proof.
  destruct ParseFile_edges as (Hgone & Hnone & Hall).
  split; [|split].
  - by apply Hgone.
  - refine (proj2 (Hnone (λ _, Some ("int x;" ++ nl ++ "// plain" ++ nl))
                     ("x.c" : gostring) (mkFile "c" [] [] [] None)
                     ("///" : gostring) true _ eq_refl _)).
    repeat constructor.
  - refine (eq_trans
              (proj1 (Hall (λ _, Some ("/// One." ++ nl ++ "  /// Two."))
                        ("x.c" : gostring) (mkFile "c" [] [] [] None)
                        ("///" : gostring) true _ eq_refl _)) _).
    + repeat constructor.
    + vm_compute; reflexivity.
Defined.

(** ** How many elements a file can give *)

(** After an element the loop goes on two lines further at least, unless
    the input is used up. *)
Lemma emitted_rest (line : gostring) rest prefix elements :
  isDoc prefix line = true →
  (emitted (line :: rest) prefix elements).2 = []
  ∨ length (emitted (line :: rest) prefix elements).2 + 1 ≤ length rest.
Proof.
  intros Hdoc. unfold emitted. cbn [dropWhile snd]. rewrite Hdoc.
  pose proof (skipGap_head (dropWhile (isDoc prefix) rest) prefix) as Hhead.
  pose proof (suffix_length _ _
                (skipGap_suffix_of (dropWhile (isDoc prefix) rest) prefix))
    as Hgap.
  pose proof (suffix_length _ _ (dropWhile_suffix (isDoc prefix) rest)) as Hrun.
  destruct (skipGap (dropWhile (isDoc prefix) rest) prefix) as [|l gap];
    [by left|].
  cbn [startsWith] in Hhead. apply orb_false_iff in Hhead as [Hblank _].
  cbn [captureSig]. rewrite Hblank. cbn [negb snd]. right.
  cbn [length] in Hgap. lia.
Qed.

Lemma emitted_length (lines : list gostring) prefix elements :
  length (emitted lines prefix elements).1 = S (length elements).
Proof. unfold emitted. cbn [fst]. rewrite length_app. simpl. lia. Qed.

Lemma filter_suffix_length {A} (p : A → bool) (l k : list A) :
  l `suffix_of` k → length (List.filter p l) ≤ length (List.filter p k).
Proof.
  intros [pre ->]. rewrite List.filter_app, length_app. lia.
Qed.

Lemma loopFrom_bounds (lines : list gostring) prefix ign elements :
  2 * length (loopFrom lines prefix ign elements).1
  ≤ 2 * length elements + length lines + 1
  ∧ length (loopFrom lines prefix ign elements).1
    ≤ length elements + length (List.filter (isDoc prefix) lines).
Proof.
  remember (length lines) as n eqn:Hn. revert lines Hn elements.
  induction (lt_wf n) as [n _ IH]. intros lines -> elements.
  destruct lines as [|line rest]; [cbn; lia|].
  rewrite loopFrom_cons, iteration_cases.
  destruct (isDoc prefix line && negb (excluded prefix ign line)) eqn:E.
  - apply andb_true_iff in E as [Hdoc _].
    pose proof (emitted_rest line rest prefix elements Hdoc) as Hrest.
    pose proof (emitted_suffix line rest prefix elements Hdoc) as Hsuf.
    pose proof (emitted_length (line :: rest) prefix elements) as Hlen.
    pose proof (filter_suffix_length (isDoc prefix) _ _ Hsuf) as Hcount.
    apply suffix_length in Hsuf.
    destruct (IH (length (emitted (line :: rest) prefix elements).2))
      with (lines := (emitted (line :: rest) prefix elements).2)
           (elements := (emitted (line :: rest) prefix elements).1)
      as [IH1 IH2]; [cbn [length]; lia|done|].
    rewrite Hlen in IH1, IH2. cbn [List.filter length]. rewrite Hdoc.
    cbn [length]. split; [|lia].
    destruct Hrest as [Hnil|Hrest]; [|lia].
    rewrite Hnil. change (loopFrom [] prefix ign ?x) with (x, @nil gostring).
    cbn [fst]. lia.
  - cbn [fst snd].
    destruct (IH (length rest)) with (lines := rest) (elements := elements)
      as [IH1 IH2]; [cbn [length]; lia|done|].
    cbn [List.filter length]. destruct (isDoc prefix line); cbn [length]; lia.
Qed.

(** X3. From [n] lines [extractElements] makes at most [(n + 1) / 2]
    elements, since every element but the last uses up a comment line and
    the line of its signature, and never more elements than there are
    comment lines. *)
Theorem extractElements_bounds :
  ∀ (lines : list gostring) (prefix : gostring) (ign : bool),
    2 * length (extractElements lines prefix ign).1 ≤ length lines + 1
    ∧ length (extractElements lines prefix ign).1
      ≤ length (List.filter (isDoc prefix) lines).
Proof.
  intros lines prefix ign.
  destruct (loopFrom_bounds lines prefix ign []) as [H1 H2].
  change (loopFrom lines prefix ign []) with (extractElements lines prefix ign)
    in H1, H2.
  cbn [length] in H1, H2. split; lia.
Qed.

(** ** The identifiers of the elements *)

Lemma decimal_inj (m n : nat) : Fmt.decimal m = Fmt.decimal n → m = n.
Proof.
  unfold Fmt.decimal. intros H.
  apply (f_equal string_of_list_ascii) in H.
  rewrite !string_of_list_ascii_of_string in H.
  apply (f_equal NilEmpty.uint_of_string) in H.
  rewrite !NilEmpty.usu in H. injection H as H.
  apply (f_equal Nat.of_uint) in H.
  by rewrite !DecimalNat.Unsigned.of_to in H.
Qed.

Lemma unnamed_inj (m n : nat) : Fmt.unnamed m = Fmt.unnamed n → m = n.
Proof. unfold Fmt.unnamed. intros H%app_inv_head. by apply decimal_inj. Qed.

(** What holds of the elements the loop starts with, and of each element
    a round appends at its position, holds of all the elements returned. *)
Lemma loopFrom_each (P : nat → Element → Prop)
    (lines : list gostring) prefix ign elements :
  (∀ ls els, match last (emitted ls prefix els).1 with
             | Some e => P (length els) e
             | None => True
             end) →
  (∀ k e, elements !! k = Some e → P k e) →
  ∀ k e, (loopFrom lines prefix ign elements).1 !! k = Some e → P k e.
Proof.
  intros Hround.
  remember (length lines) as n eqn:Hn. revert lines Hn elements.
  induction (lt_wf n) as [n _ IH]. intros lines -> elements Hels.
  destruct lines as [|line rest]; [done|].
  rewrite loopFrom_cons, iteration_cases.
  destruct (isDoc prefix line && negb (excluded prefix ign line)) eqn:E.
  - apply andb_true_iff in E as [Hdoc _].
    pose proof (emitted_suffix line rest prefix elements Hdoc) as Hsuf.
    apply suffix_length in Hsuf.
    apply (IH (length (emitted (line :: rest) prefix elements).2));
      [cbn [length]; lia|done|].
    intros k e. specialize (Hround (line :: rest) elements).
    unfold emitted in Hround |- *. cbn [fst] in Hround |- *.
    rewrite last_snoc in Hround.
    intros [Hk|[Hk He]]%lookup_app_Some; [by apply Hels|].
    apply list_lookup_singleton_Some in He as [Hk' <-].
    by replace k with (length elements) by lia.
  - by apply (IH (length rest)); [cbn [length]; lia|done|].
Qed.

Lemma loopFrom_identifiers (lines : list gostring) prefix ign elements :
  (∀ k e, elements !! k = Some e → ID e = identifierAt k (Signature e)) →
  ∀ k e, (loopFrom lines prefix ign elements).1 !! k = Some e →
         ID e = identifierAt k (Signature e).
Proof.
  apply (loopFrom_each (λ k e, ID e = identifierAt k (Signature e))).
  intros ls els. unfold emitted. cbn [fst]. by rewrite last_snoc.
Qed.

(** X4. In the result of [extractElements] the identifier of the element
    at position [k] is the one derived from its signature or, when none
    can be derived, [unnamed_<k>] with its own position. So two elements
    that both got a made-up identifier never share it. *)
Theorem extractElements_identifiers :
  ∀ (lines : list gostring) (prefix : gostring) (ign : bool),
    (∀ k e, (extractElements lines prefix ign).1 !! k = Some e →
            ID e = if bool_decide (extractIDFromSig (Signature e) = [])
                   then "unnamed_" ++ Fmt.decimal k
                   else extractIDFromSig (Signature e))
    ∧ (∀ j k e1 e2,
          (extractElements lines prefix ign).1 !! j = Some e1 →
          (extractElements lines prefix ign).1 !! k = Some e2 →
          extractIDFromSig (Signature e1) = [] →
          extractIDFromSig (Signature e2) = [] →
          ID e1 = ID e2 → j = k).
Proof.
  intros lines prefix ign.
  assert (∀ k e, (extractElements lines prefix ign).1 !! k = Some e →
                 ID e = identifierAt k (Signature e)) as Hid.
  { apply (loopFrom_identifiers lines prefix ign []). by intros k e. }
  split; [exact Hid|].
  intros j k e1 e2 H1 H2 Hs1 Hs2 Heq.
  rewrite (Hid _ _ H1), (Hid _ _ H2) in Heq. unfold identifierAt in Heq.
  rewrite Hs1, Hs2 in Heq. by apply unnamed_inj.
Qed.

Lemma extractElements_identifiers_witness :
  ID (mkElement "unnamed_2" "Last." "")
  = if bool_decide (extractIDFromSig [] = [])
    then "unnamed_" ++ Fmt.decimal 2 else extractIDFromSig [].
Proof.
  refine (proj1 (extractElements_identifiers
                   (golines ["/// A."; "int a();"; "/// B."; "b = 1;";
                             "/// Last."])
                   ("///" : gostring) false)
                2 (mkElement "unnamed_2" "Last." "") _).
  vm_compute; reflexivity.
Defined.

(** ** The shape of an identifier *)

Lemma perlWord_not_asciiSpace c : perlWord c = true → asciiSpace c = false.
Proof. by destruct c as [[] [] [] [] [] [] [] []]. Qed.

Lemma asciiSpace_not_word c : asciiSpace c = true → perlWord c = false.
Proof. by destruct c as [[] [] [] [] [] [] [] []]. Qed.

Lemma high_not_word c : 128 ≤ nat_of_ascii c → perlWord c = false.
Proof.
  intros H. destruct (perlWord c) eqn:E; [|done]. exfalso.
  unfold perlWord in E.
  rewrite !orb_true_iff, !andb_true_iff, !Nat.leb_le, Nat.eqb_eq in E. lia.
Qed.

Lemma space2_high a b :
  space2 a b = true → 128 ≤ nat_of_ascii a ∧ 128 ≤ nat_of_ascii b.
Proof.
  unfold space2, byte_is.
  rewrite !andb_true_iff, !orb_true_iff, !Nat.eqb_eq. lia.
Qed.

Lemma space3_high a b c :
  space3 a b c = true
  → 128 ≤ nat_of_ascii a ∧ 128 ≤ nat_of_ascii b ∧ 128 ≤ nat_of_ascii c.
Proof.
  unfold space3, byte_is.
  rewrite !orb_true_iff, !andb_true_iff, !orb_true_iff, !andb_true_iff,
    !Nat.eqb_eq, !Nat.leb_le. lia.
Qed.

(** A white-space rune holds no word byte. *)
Lemma spaceRune_split (s rest : gostring) :
  spaceRune s = Some rest →
  ∃ r, s = r ++ rest ∧ Forall (λ c, perlWord c = false) r.
Proof.
  destruct s as [|a t]; [done|]. cbn [spaceRune].
  destruct (asciiSpace a) eqn:Ea.
  { intros [= <-]. exists [a]. split; [done|].
    repeat constructor. by apply asciiSpace_not_word. }
  destruct t as [|b t2]; [done|].
  destruct (space2 a b) eqn:E2.
  { intros [= <-]. exists [a; b]. split; [done|].
    apply space2_high in E2 as [? ?].
    repeat constructor; by apply high_not_word. }
  destruct t2 as [|c t3]; [done|].
  destruct (space3 a b c) eqn:E3; [|done].
  intros [= <-]. exists [a; b; c]. split; [done|].
  apply space3_high in E3 as (? & ? & ?).
  repeat constructor; by apply high_not_word.
Qed.

Lemma spaceRune_None_head c (s : gostring) :
  spaceRune (c :: s) = None → asciiSpace c = false.
Proof. cbn [spaceRune]. by destruct (asciiSpace c). Qed.

(** The fields are not empty and hold no ASCII white space. *)
Lemma fieldsFrom_clean fuel (s : gostring) cur :
  (∀ w, cur = Some w → w ≠ [] ∧ spaceFree w) →
  Forall (λ f, f ≠ [] ∧ spaceFree f) (fieldsFrom fuel s cur).
Proof.
  assert (∀ cur : option gostring,
            (∀ w, cur = Some w → w ≠ [] ∧ spaceFree w) →
            Forall (λ f, f ≠ [] ∧ spaceFree f)
                   match cur with Some w => [w] | None => [] end) as Hend.
  { intros [w|] H; [|done]. constructor; [by apply H|done]. }
  revert s cur. induction fuel as [|fuel IH]; intros s cur Hcur;
    cbn [fieldsFrom]; [by apply Hend|].
  destruct s as [|c s]; [by apply Hend|].
  destruct (spaceRune (c :: s)) as [rest|] eqn:E.
  - destruct cur as [w|]; [constructor; [by apply Hcur|]|]; by apply IH.
  - apply IH. intros w [= <-]. split; [by destruct (default [] cur)|].
    apply Forall_app. split.
    + destruct cur as [w|]; [by apply Hcur|constructor].
    + repeat constructor. by apply (spaceRune_None_head c s).
Qed.

(** The field being read goes on with the text; the later fields are
    parts of the text. *)
Lemma fieldsFrom_part fuel (s : gostring) cur f :
  f ∈ fieldsFrom fuel s cur →
  (∃ w p q, cur = Some w ∧ f = w ++ p ∧ s = p ++ q) ∨ partOf f s.
Proof.
  assert (∀ (s : gostring) cur,
            f ∈ match cur with Some w => [w] | None => [] end →
            ∃ w p q, cur = Some w ∧ f = w ++ p ∧ s = p ++ q) as Hend.
  { intros s' [w|]; [|by intros ?%elem_of_nil].
    intros ->%list_elem_of_singleton. exists w, [], s'.
    by rewrite app_nil_r. }
  revert s cur. induction fuel as [|fuel IH]; intros s cur;
    cbn [fieldsFrom]; [left; by apply Hend|].
  destruct s as [|c s]; [left; by apply Hend|].
  destruct (spaceRune (c :: s)) as [rest|] eqn:E.
  - apply spaceRune_split in E as (r & Hr & _).
    assert (f ∈ fieldsFrom fuel rest None → partOf f (c :: s)) as Hlater.
    { intros [(w & p & q & ? & _) | (a & b & ->)]%IH; [done|].
      exists (r ++ a), b. by rewrite Hr, <- app_assoc. }
    destruct cur as [w|]; [|right; by apply Hlater].
    intros [Hf | H]%elem_of_cons; [|right; by apply Hlater].
    left. exists w, [], (c :: s). by rewrite app_nil_r.
  - intros [(w & p & q & [= <-] & -> & ->) | (a & b & ->)]%IH.
    + destruct cur as [w|]; cbn [default].
      * left. exists w, (c :: p), q. by rewrite <- app_assoc.
      * right. by exists [], q.
    + right. by exists (c :: a), b.
Qed.

Lemma Fields_part (s f : gostring) : f ∈ Fields s → partOf f s.
Proof.
  by intros [(w & p & q & ? & _) | H]%fieldsFrom_part.
Qed.

(** Where text has no field it has no word byte either. *)
Lemma fieldsFrom_nil fuel (s : gostring) :
  length s ≤ fuel → fieldsFrom fuel s None = [] →
  Forall (λ c, perlWord c = false) s.
Proof.
  revert s. induction fuel as [|fuel IH]; intros s Hlen.
  { destruct s; [done|simpl in Hlen; lia]. }
  destruct s as [|c s]; [done|]. cbn [fieldsFrom].
  destruct (spaceRune (c :: s)) as [rest|] eqn:E.
  - pose proof (spaceRune_length _ _ E) as Hrest.
    apply spaceRune_split in E as (r & Hs & Hr). intros H.
    rewrite Hs. apply Forall_app. split; [done|]. apply IH; [|done].
    simpl in Hlen, Hrest. lia.
  - intros H. exfalso.
    pose proof (fieldsFrom_clean fuel s (Some ([] ++ [c]))) as Hc.
    assert (∀ (g : gostring) cur', fieldsFrom fuel g (Some cur') ≠ []) as Hne.
    { clear. induction fuel as [|fuel IH]; intros g cur'; [done|].
      cbn [fieldsFrom]. destruct g as [|c g]; [done|].
      destruct (spaceRune (c :: g)); [done|]. apply IH. }
    by apply (Hne s ([] ++ [c])).
Qed.

(** The three rules of [extractIDFromSig], as cases. *)
Lemma extractIDFromSig_cases (sig : gostring) :
  (∃ id, classMatch sig id ∧ extractIDFromSig sig = id)
  ∨ (∃ id, firstCall sig id ∧ extractIDFromSig sig = id)
  ∨ extractIDFromSig sig = default [] (head (Fields sig)).
Proof.
  destruct (classAt sig) as [[rest cap]|] eqn:Ec.
  - left. assert (∃ id, cap = Some id) as [id ->].
    { unfold classAt in Ec.
      assert (∃ s', spaceWord s' = Some (rest, cap)) as [s' Hs'].
      { destruct (HasPrefix sig "class"); [eauto|].
        destruct (HasPrefix sig "struct"); [eauto|done]. }
      apply spaceWord_spec in Hs' as (ws & id & -> & _). eauto. }
    assert (classMatch sig id) as H by (apply classAt_spec; eauto).
    exists id. split; [done|]. by apply extractIDFromSig_class.
  - right. pose proof (no_classMatch sig Ec) as Hclass.
    destruct (search funcRe (length sig) sig) as [f|] eqn:E.
    + left.
      apply (search_inv _ _ funcAt (matchAt_funcRe _) funcAt_suffix) in E
        as (Hs & Hm & Hout).
      pose proof Hm as (id & ws & Hg & _)%funcAt_spec.
      assert (firstCall sig id) as H.
      { exists (before f), (matched f ++ after f). split; [done|].
        split; [apply funcAt_callAt; exists (after f); by rewrite Hm, Hg|].
        intros a b Hab Hb. apply funcAt_None. by apply (Hout a b). }
      exists id. split; [done|]. by apply extractIDFromSig_call.
    + right. unfold extractIDFromSig.
      rewrite FindStringSubmatch_classRe, Ec. cbn [length].
      unfold FindStringSubmatch. rewrite E. cbn [length].
      by destruct (Fields sig).
Qed.

Lemma word_spaceFree (id : gostring) :
  Forall (λ c, perlWord c = true) id → spaceFree id.
Proof.
  intros H. eapply Forall_impl; [exact H|].
  intros c. apply perlWord_not_asciiSpace.
Qed.

Lemma no_word_part (id s : gostring) :
  partOf id s → id ≠ [] → Forall (λ c, perlWord c = true) id →
  ¬ Forall (λ c, perlWord c = false) s.
Proof.
  intros (a & b & ->) Hne Hid Hs.
  apply Forall_app in Hs as [_ [Hs _]%Forall_app].
  destruct Hid as [|c id Hc _]; [done|].
  apply Forall_cons in Hs as [Hs _]. congruence.
Qed.

Lemma classMatch_part (sig id : gostring) : classMatch sig id → partOf id sig.
Proof.
  intros (kw & ws & rest & _ & _ & _ & _ & _ & _ & ->).
  exists (kw ++ ws), rest. by rewrite <- app_assoc.
Qed.

Lemma firstCall_part (sig id : gostring) : firstCall sig id → partOf id sig.
Proof.
  intros (pre & tail & -> & (ws & rest & _ & _ & _ & ->) & _).
  by exists pre, (ws ++ "(" ++ rest).
Qed.

Lemma Fields_fields (sig : gostring) :
  Forall (λ f, f ≠ [] ∧ spaceFree f) (Fields sig).
Proof. apply fieldsFrom_clean. by intros w. Qed.

Lemma extractIDFromSig_part (sig : gostring) :
  partOf (extractIDFromSig sig) sig.
Proof.
  destruct (extractIDFromSig_cases sig)
    as [(id & Hm & ->) | [(id & Hm & ->) | ->]].
  - by apply classMatch_part.
  - by apply firstCall_part.
  - destruct (Fields sig) as [|f fs] eqn:E; cbn [head default].
    + by exists [], sig.
    + apply Fields_part. rewrite E. by left.
Qed.

Lemma extractIDFromSig_spaceFree (sig : gostring) :
  spaceFree (extractIDFromSig sig).
Proof.
  destruct (extractIDFromSig_cases sig)
    as [(id & Hm & ->) | [(id & Hm & ->) | ->]].
  - destruct Hm as (kw & ws & rest & _ & _ & _ & _ & Hword & _ & _).
    by apply word_spaceFree.
  - destruct Hm as (pre & tail & _ & (ws & rest & _ & Hword & _) & _).
    by apply word_spaceFree.
  - pose proof (Fields_fields sig) as Hfields.
    destruct (Fields sig) as [|f fs]; cbn [head default]; [constructor|].
    by apply Forall_cons in Hfields as [[_ Hfree] _].
Qed.

Lemma extractIDFromSig_nil (sig : gostring) :
  extractIDFromSig sig = [] ↔ Fields sig = [].
Proof.
  destruct (extractIDFromSig_cases sig)
    as [(id & Hm & ->) | [(id & Hm & ->) | ->]].
  - pose proof (classMatch_part _ _ Hm) as Hpart.
    destruct Hm as (kw & ws & rest & _ & _ & _ & Hne & Hword & _ & _).
    split; [done|]. intros Hnil. exfalso.
    apply (no_word_part id sig); [done..|].
    by apply (fieldsFrom_nil (length sig)).
  - pose proof (firstCall_part _ _ Hm) as Hpart.
    destruct Hm as (pre & tail & _ & (ws & rest & Hne & Hword & _) & _).
    split; [done|]. intros Hnil. exfalso.
    apply (no_word_part id sig); [done..|].
    by apply (fieldsFrom_nil (length sig)).
  - pose proof (Fields_fields sig) as Hfields.
    destruct (Fields sig) as [|f fs]; cbn [head default]; [done|].
    by apply Forall_cons in Hfields as [[Hne _] _].
Qed.

(** X5. The identifier [extractIDFromSig] derives from a signature is a
    contiguous part of the signature, holds none of the ASCII white-space
    bytes, and is empty only for a signature without any field, that is,
    one that is empty or all white space. *)
Theorem extractIDFromSig_shape :
  ∀ sig : gostring,
    (∃ a b, sig = a ++ extractIDFromSig sig ++ b)
    ∧ Forall (λ c, asciiSpace c = false) (extractIDFromSig sig)
    ∧ (extractIDFromSig sig = [] ↔ Fields sig = []).
Proof.
  intros sig. split; [apply extractIDFromSig_part|].
  split; [apply extractIDFromSig_spaceFree|apply extractIDFromSig_nil].
Qed.

(** ** Signatures and identifiers of the elements *)

Lemma trimLeft_head (s : gostring) :
  trimLeft s = [] ∨ spaceRune (trimLeft s) = None.
Proof.
  remember (length s) as n eqn:Hn. revert s Hn.
  induction (lt_wf n) as [n _ IH]. intros s ->.
  destruct s as [|a t]; [by left|]. cbn [trimLeft].
  destruct (asciiSpace a) eqn:Ea;
    [by apply (IH (length t)); [simpl; lia|]|].
  destruct t as [|b t2]; [right; cbn [spaceRune]; by rewrite Ea|].
  destruct (space2 a b) eqn:E2;
    [by apply (IH (length t2)); [simpl; lia|]|].
  destruct t2 as [|c t3]; [right; cbn [spaceRune]; by rewrite Ea, E2|].
  destruct (space3 a b c) eqn:E3;
    [by apply (IH (length t3)); [simpl; lia|]|].
  right. cbn [spaceRune]. by rewrite Ea, E2, E3.
Qed.

Lemma trimLeftRev_suffix (r : gostring) : trimLeftRev r `suffix_of` r.
Proof.
  remember (length r) as n eqn:Hn. revert r Hn.
  induction (lt_wf n) as [n _ IH]. intros r ->.
  destruct r as [|a t]; [done|]. cbn [trimLeftRev].
  destruct (asciiSpace a).
  { apply suffix_cons_r. by apply (IH (length t)); [simpl; lia|]. }
  destruct t as [|b t2]; [done|].
  destruct (space2 b a).
  { do 2 apply suffix_cons_r. by apply (IH (length t2)); [simpl; lia|]. }
  destruct t2 as [|c t3]; [done|].
  destruct (space3 c b a); [|done].
  do 3 apply suffix_cons_r. by apply (IH (length t3)); [simpl; lia|].
Qed.

Lemma trimRight_prefix (s : gostring) : trimRight s `prefix_of` s.
Proof.
  unfold trimRight. destruct (trimLeftRev_suffix (rev s)) as [k Hk].
  exists (rev k). apply (f_equal (λ l, rev l)) in Hk. cbv beta in Hk.
  by rewrite rev_involutive, rev_app_distr in Hk.
Qed.

Lemma spaceRune_prefix (p q : gostring) :
  spaceRune (p ++ q) = None → spaceRune p = None.
Proof.
  destruct p as [|a [|b [|c p]]]; cbn [app spaceRune]; [done| | |].
  - by destruct (asciiSpace a).
  - destruct (asciiSpace a); [done|]. by destruct (space2 a b).
  - destruct (asciiSpace a); [done|]. destruct (space2 a b); [done|].
    by destruct (space3 a b c).
Qed.

(** A part at the head of a trimmed text starts a field. *)
Lemma TrimSpace_head (line p q : gostring) :
  TrimSpace line = p ++ q → p = [] ∨ spaceRune p = None.
Proof.
  unfold TrimSpace. intros H.
  destruct (trimRight_prefix (trimLeft line)) as [k Hk].
  rewrite H, <- app_assoc in Hk.
  destruct (trimLeft_head line) as [Hnil | Hhead].
  - rewrite Hnil in Hk. left. symmetry in Hk. by apply app_eq_nil in Hk as [? _].
  - right. rewrite Hk in Hhead. by apply spaceRune_prefix in Hhead.
Qed.

Lemma Fields_head (s : gostring) :
  s ≠ [] → spaceRune s = None → Fields s ≠ [].
Proof.
  intros Hne Hhead. destruct s as [|c s]; [done|].
  unfold Fields. cbn [length fieldsFrom]. rewrite Hhead.
  generalize (default [] None ++ [c]).
  generalize (length s). clear. intros fuel. revert s.
  induction fuel as [|fuel IH]; intros s w; cbn [fieldsFrom]; [done|].
  destruct s as [|d s]; [done|].
  destruct (spaceRune (d :: s)); [done|]. apply IH.
Qed.

(** The signature read after a run is empty or has a field. *)
Lemma captureSig_fields (lines : list gostring) :
  (captureSig lines).1 = [] ∨ Fields (captureSig lines).1 ≠ [].
Proof.
  destruct lines as [|line rest]; [by left|]. cbn [captureSig].
  destruct (blank line) eqn:Hblank; cbn [negb fst]; [by left|].
  destruct (endsWith (Ascii.eqb "{") (TrimSpace line)) eqn:Hend.
  - apply brace_cases in Hend as (body & ws & Ht & Hws & Hbody).
    rewrite Ht, (ReplaceAllString_braceRe_strip body ws Hws Hbody).
    destruct (TrimSpace_head line body _ Ht) as [-> | Hhead]; [by left|].
    destruct body as [|c body]; [by left|]. right. by apply Fields_head.
  - rewrite ReplaceAllString_braceRe_keep by done.
    unfold blank in Hblank. apply bool_decide_eq_false in Hblank.
    right. apply Fields_head; [done|].
    destruct (TrimSpace_head line (TrimSpace line) []) as [? | ?];
      [by rewrite app_nil_r|done|done].
Qed.

Lemma loopFrom_signatures (lines : list gostring) prefix ign elements :
  (∀ k e, elements !! k = Some e
          → Signature e = [] ∨ Fields (Signature e) ≠ []) →
  ∀ k e, (loopFrom lines prefix ign elements).1 !! k = Some e →
         Signature e = [] ∨ Fields (Signature e) ≠ [].
Proof.
  apply (loopFrom_each
           (λ _ e, Signature e = [] ∨ Fields (Signature e) ≠ [])).
  intros ls els. unfold emitted. cbn [fst]. rewrite last_snoc.
  cbn [Signature]. apply captureSig_fields.
Qed.

Lemma decimal_spaceFree (n : nat) : spaceFree (Fmt.decimal n).
Proof.
  unfold Fmt.decimal. generalize (Nat.to_uint n). intros d.
  induction d; cbn; by repeat constructor.
Qed.

Lemma unnamed_spaceFree (n : nat) : spaceFree (Fmt.unnamed n).
Proof.
  unfold Fmt.unnamed. apply Forall_app. split; [|apply decimal_spaceFree].
  cbn. by repeat constructor.
Qed.

(** Without a space there is nothing for [ReplaceAll] to replace. *)
Lemma ReplaceAll_spaceFree (s new : gostring) :
  spaceFree s → ReplaceAll s " " new = s.
Proof.
  unfold ReplaceAll. induction 1 as [|c s Hc _ IH]; [done|].
  cbn [replaceFrom Nat.ltb Nat.leb HasPrefix list_ascii_of_string].
  assert (Ascii.eqb c " " = false) as ->
    by (revert Hc; by destruct c as [[] [] [] [] [] [] [] []]).
  cbn [andb]. f_equal. exact IH.
Qed.

(** X6. Every element that [extractElements] returns has an identifier
    that is not empty and holds no ASCII white space, so that the
    replacement of spaces by dashes in the link index leaves it as it is.
    The element at position [k] is called [unnamed_<k>] when its signature
    is empty, and otherwise its identifier is a contiguous part of its
    signature. *)
Theorem element_identifier_shape :
  ∀ (lines : list gostring) (prefix : gostring) (ign : bool)
    (k : nat) (e : Element),
    (extractElements lines prefix ign).1 !! k = Some e →
    ID e ≠ []
    ∧ Forall (λ c, asciiSpace c = false) (ID e)
    ∧ ReplaceAll (ID e) " " "-" = ID e
    ∧ (Signature e = [] → ID e = "unnamed_" ++ Fmt.decimal k)
    ∧ (Signature e ≠ [] → ∃ a b, Signature e = a ++ ID e ++ b).
Proof.
  intros lines prefix ign k e He.
  pose proof (loopFrom_identifiers lines prefix ign [] (λ _ _ H, match H with
    eq_refl => I end) k e He) as Hid.
  pose proof (loopFrom_signatures lines prefix ign []) as Hsig.
  specialize (Hsig (λ _ _ H, match H with eq_refl => I end) k e He).
  unfold identifierAt in Hid.
  assert (ID e ≠ [] ∧ spaceFree (ID e)) as [Hne Hfree].
  { rewrite Hid. case_bool_decide as Hnil.
    - split; [done|apply unnamed_spaceFree].
    - split; [done|apply extractIDFromSig_spaceFree]. }
  split; [done|]. split; [done|].
  split; [by apply ReplaceAll_spaceFree|].
  split.
  - intros Hs. rewrite Hid, Hs. done.
  - intros Hs. destruct Hsig as [?|Hfields]; [done|].
    rewrite Hid. rewrite bool_decide_eq_false_2
      by (by rewrite extractIDFromSig_nil).
    apply extractIDFromSig_part.
Qed.

Lemma element_identifier_shape_witness :
  ID (mkElement "area" "Area of a disc." "double area(double r)") ≠ []
  ∧ Forall (λ c, asciiSpace c = false)
           (ID (mkElement "area" "Area of a disc." "double area(double r)"))
  ∧ ReplaceAll (ID (mkElement "area" "Area of a disc."
                              "double area(double r)")) " " "-"
    = ID (mkElement "area" "Area of a disc." "double area(double r)")
  ∧ (Signature (mkElement "area" "Area of a disc." "double area(double r)")
     = [] →
     ID (mkElement "area" "Area of a disc." "double area(double r)")
     = "unnamed_" ++ Fmt.decimal 1)
  ∧ (Signature (mkElement "area" "Area of a disc." "double area(double r)")
     ≠ [] →
     ∃ a b,
       Signature (mkElement "area" "Area of a disc." "double area(double r)")
       = a ++ ID (mkElement "area" "Area of a disc." "double area(double r)")
           ++ b).
Proof.
  apply (element_identifier_shape
           (golines ["/// Pi."; "{"; "/// Area of a disc.";
                     "double area(double r) {"; "  return r * r;"; "}"])
           ("///" : gostring) false 1).
  vm_compute; reflexivity.
Defined.

(** ** What the backlink pass keeps *)

(** The pass, token by token: a property of a text and its rewriting that
    holds where nothing is matched, and goes from the text after the first
    token to the whole text, holds of every description. *)
Lemma ProcessBacklinks_scan (P : gostring → gostring → Prop)
    (linkIndex : gmap gostring gostring) (prefix : gostring) :
  (∀ s, P s s) →
  (∀ out t rest r,
      token t → P rest r →
      P (out ++ "["%char :: t ++ "]"%char :: rest)
        (out ++ match linkIndex !! t with
                | Some link => Fmt.link t link
                | None => "["%char :: t ++ ["]"%char]
                end ++ r)) →
  ∀ desc, P desc (ProcessBacklinks desc linkIndex prefix).
Proof.
  intros Hnone Hstep desc.
  remember (length desc) as n eqn:Hn. revert desc Hn.
  induction (lt_wf n) as [n _ IH]. intros desc ->.
  destruct (search linkRe (length desc) desc) as [f|] eqn:E.
  - apply search_linkRe_inv in E as (t & Ht & _ & Hs & Hout).
    rewrite Hs at 2. rewrite Hs at 1.
    rewrite ProcessBacklinks_found by done.
    apply Hstep; [done|]. apply (IH (length (after f))); [|done].
    rewrite Hs, length_app. cbn [length]. rewrite length_app.
    cbn [length]. lia.
  - rewrite ProcessBacklinks_eq, replaceLoop_S, E. apply Hnone.
Qed.

(** X7. [ProcessBacklinks] leaves a description as it is when none of the
    texts that stand between brackets in it is a key of the index; so it
    does with the empty index. *)
Theorem ProcessBacklinks_unchanged :
  ∀ (desc : gostring) (linkIndex : gmap gostring gostring)
    (prefix : gostring),
    (∀ a t b, desc = a ++ "[" ++ t ++ "]" ++ b → linkIndex !! t = None) →
    ProcessBacklinks desc linkIndex prefix = desc.
Proof.
  intros desc linkIndex prefix.
  apply (ProcessBacklinks_scan
           (λ s r, (∀ a t b, s = a ++ "[" ++ t ++ "]" ++ b
                             → linkIndex !! t = None) → r = s)).
  - done.
  - intros out t rest r Ht IH Hkeys.
    rewrite (Hkeys out t rest eq_refl). rewrite IH.
    + cbn [app]. by rewrite <- app_assoc.
    + intros a t' b ->. apply (Hkeys (out ++ "[" ++ t ++ "]" ++ a) t' b).
      cbn [app list_ascii_of_string]. rewrite <- !app_assoc.
      cbn [app]. by rewrite <- !app_assoc.
Qed.

Lemma ProcessBacklinks_unchanged_witness :
  ProcessBacklinks "See [add] and [missing]." ∅ "///"
  = "See [add] and [missing].".
Proof.
  apply (ProcessBacklinks_unchanged "See [add] and [missing]." ∅ "///").
  intros a t b _. apply lookup_empty.
Defined.

(** X8. [ProcessBacklinks] only adds text: the description it is given can
    be read in its result, byte after byte in the same order, and the
    result is no shorter. *)
Theorem ProcessBacklinks_adds_only :
  ∀ (desc : gostring) (linkIndex : gmap gostring gostring)
    (prefix : gostring),
    desc `sublist_of` ProcessBacklinks desc linkIndex prefix
    ∧ length desc ≤ length (ProcessBacklinks desc linkIndex prefix).
Proof.
  intros desc linkIndex prefix.
  assert (desc `sublist_of` ProcessBacklinks desc linkIndex prefix) as H.
  { apply (ProcessBacklinks_scan (λ s r, s `sublist_of` r)); [done|].
    intros out t rest r Ht IH. apply sublist_app; [done|].
    destruct (linkIndex !! t) as [link|].
    - unfold Fmt.link. cbn [app list_ascii_of_string].
      apply sublist_skip. rewrite <- !app_assoc.
      apply sublist_app; [done|]. cbn [app]. apply sublist_skip.
      apply sublist_cons. by apply sublist_inserts_l.
    - cbn [app]. apply sublist_skip. rewrite <- app_assoc.
      by apply sublist_app; [|apply sublist_skip]. }
  split; [done|]. by apply sublist_length.
Qed.

(** ** The index of the links *)

Lemma indexElement_lookup (Base ToLower : gostring → gostring) (outFile : gostring)
    (linkIndex : gmap gostring gostring) (e : Element) (id : gostring) :
  Generate.indexElement Base ToLower outFile linkIndex e !! id
  = if bool_decide (ID e = id)
    then Some (Base outFile ++ "#" ++ ToLower (ReplaceAll id " " "-"))
    else linkIndex !! id.
Proof.
  unfold Generate.indexElement. case_bool_decide as H.
  - subst id. by rewrite lookup_insert_eq.
  - by rewrite lookup_insert_ne.
Qed.

(** The entries of one file: without an element called [id] the entry for
    [id] is as before; with one, it points into the file. *)
Lemma indexElements_absent (Base ToLower : gostring → gostring) (outFile : gostring)
    (es : list Element) linkIndex (id : gostring) :
  (∀ e, e ∈ es → ID e ≠ id) →
  foldl (Generate.indexElement Base ToLower outFile) linkIndex es !! id
  = linkIndex !! id.
Proof.
  revert linkIndex. induction es as [|e es IH]; intros linkIndex H; [done|].
  cbn [foldl]. rewrite IH by (intros e' He'; apply H; by right).
  rewrite indexElement_lookup, bool_decide_eq_false_2; [done|].
  apply H. by left.
Qed.

Lemma indexElements_present (Base ToLower : gostring → gostring)
    (outFile : gostring) (es : list Element) linkIndex (id : gostring) e :
  e ∈ es → ID e = id →
  foldl (Generate.indexElement Base ToLower outFile) linkIndex es !! id
  = Some (Base outFile ++ "#" ++ ToLower (ReplaceAll id " " "-")).
Proof.
  intros He Hid. induction es as [|e' es IH] using rev_ind;
    [by apply elem_of_nil in He|].
  rewrite foldl_snoc, indexElement_lookup. case_bool_decide as H; [done|].
  apply IH. apply elem_of_app in He as [He | He]; [done|].
  apply list_elem_of_singleton in He. congruence.
Qed.

(** The entries of all the files. *)
Lemma indexFiles_absent Rel JoinPath ToSlash Ext
    (Base ToLower : gostring → gostring) (scan_root out : gostring)
    (files : list File) linkIndex (id : gostring) :
  (∀ f e, f ∈ files → e ∈ Elements f → ID e ≠ id) →
  foldl (Generate.indexFile Rel JoinPath ToSlash Ext Base ToLower
           scan_root out) linkIndex files !! id
  = linkIndex !! id.
Proof.
  revert linkIndex. induction files as [|f files IH]; intros linkIndex H;
    [done|].
  cbn [foldl]. rewrite IH by (intros f' e' Hf'; apply H; by right).
  unfold Generate.indexFile. apply indexElements_absent.
  intros e He. apply (H f e); [by left|done].
Qed.

Lemma indexFiles_last Rel JoinPath ToSlash Ext
    (Base ToLower : gostring → gostring) (scan_root out : gostring)
    (before : list File) f (after : list File) linkIndex (id : gostring) e :
  e ∈ Elements f → ID e = id →
  (∀ f' e', f' ∈ after → e' ∈ Elements f' → ID e' ≠ id) →
  foldl (Generate.indexFile Rel JoinPath ToSlash Ext Base ToLower
           scan_root out) linkIndex (before ++ f :: after) !! id
  = Some (Base (Generate.outputFilename Rel JoinPath ToSlash scan_root
                  (Path f) out (Ext (Path f)))
          ++ "#" ++ ToLower (ReplaceAll id " " "-")).
Proof.
  intros He Hid Hafter. rewrite foldl_app. cbn [foldl].
  rewrite indexFiles_absent by done.
  unfold Generate.indexFile at 1. by apply (indexElements_present _ _ _ _ _ _ e).
Qed.

Lemma indexFiles_keys Rel JoinPath ToSlash Ext
    (Base ToLower : gostring → gostring) (scan_root out : gostring)
    (files : list File) (id : gostring) :
  is_Some (Generate.buildLinkIndex Rel JoinPath ToSlash Ext Base ToLower
             scan_root out files !! id)
  ↔ ∃ f e, f ∈ files ∧ e ∈ Elements f ∧ ID e = id.
Proof.
  unfold Generate.buildLinkIndex.
  induction files as [|f files IH] using rev_ind.
  - split; [by intros [? ?]|]. by intros (f & e & ?%elem_of_nil & _).
  - rewrite foldl_snoc. unfold Generate.indexFile at 1.
    destruct (decide (Exists (λ e, ID e = id) (Elements f))) as [Hin|Hout].
    + apply Exists_exists in Hin as (e & He & Hid).
      rewrite (indexElements_present _ _ _ _ _ _ e) by done.
      split; [|done]. intros _. exists f, e.
      split; [apply elem_of_app; right; by left|done].
    + rewrite indexElements_absent
        by (intros e He Hid; apply Hout, Exists_exists; eauto).
      rewrite IH. split.
      * intros (f' & e & Hf' & He & Hid). exists f', e.
        split; [apply elem_of_app; by left|done].
      * intros (f' & e & [Hf'|Hf']%elem_of_app & He & Hid); [by eauto|].
        apply list_elem_of_singleton in Hf' as ->.
        destruct Hout. apply Exists_exists. eauto.
Qed.

(** X9. The index of the links that [generate] builds has an entry for
    an identifier exactly when an element of one of the files is called
    so. Where several elements share an identifier the last one, in the
    order of the files and of the elements in a file, gives the entry:
    the base name of the page written for its file, [#], and the
    identifier in lower case with dashes for spaces. *)
Theorem buildLinkIndex_lookup :
  ∀ (Rel JoinPath : gostring → gostring → gostring)
    (ToSlash Ext Base ToLower : gostring → gostring)
    (scan_root out : gostring) (files : list File) (id : gostring),
    let linkIndex :=
      Generate.buildLinkIndex Rel JoinPath ToSlash Ext Base ToLower
        scan_root out files in
    (is_Some (linkIndex !! id)
     ↔ ∃ f e, f ∈ files ∧ e ∈ Elements f ∧ ID e = id)
    ∧ (∀ before f after es1 e es2,
          files = before ++ f :: after →
          Elements f = es1 ++ e :: es2 →
          ID e = id →
          (∀ e', e' ∈ es2 → ID e' ≠ id) →
          (∀ f' e', f' ∈ after → e' ∈ Elements f' → ID e' ≠ id) →
          linkIndex !! id
          = Some (Base (Generate.outputFilename Rel JoinPath ToSlash scan_root
                          (Path f) out (Ext (Path f)))
                  ++ "#" ++ ToLower (ReplaceAll (ID e) " " "-"))).
Proof.
  intros Rel JoinPath ToSlash Ext Base ToLower scan_root out files id
    linkIndex.
  split; [apply indexFiles_keys|].
  intros before f after es1 e es2 -> Hes Hid _ Hafter. rewrite Hid.
  apply (indexFiles_last _ _ _ _ _ _ _ _ _ _ _ _ _ e); [|done..].
  rewrite Hes. apply elem_of_app. right. by left.
Qed.

Lemma buildLinkIndex_lookup_witness :
  Generate.buildLinkIndex (λ _ p, p) (λ a b, a ++ "/" ++ b) (λ p, p)
    (λ _, ".c") (λ p, p) (λ s, s) "src" "docs"
    [mkFile "c" "one.c" []
       [mkElement "init" "Starts." "void init()";
        mkElement "stop" "Stops." "void stop()"] None;
     mkFile "c" "two.c" []
       [mkElement "init" "Starts again." "void init(int n)"] None]
    !! ("init" : gostring)
  = Some ("docs/two.md#init" : gostring).
Proof.
  refine (proj2 (buildLinkIndex_lookup (λ _ p, p) (λ a b, a ++ "/" ++ b)
                   (λ p, p) (λ _, ".c") (λ p, p) (λ s, s) "src" "docs" _
                   "init")
            [mkFile "c" "one.c" []
               [mkElement "init" "Starts." "void init()";
                mkElement "stop" "Stops." "void stop()"] None]
            (mkFile "c" "two.c" []
               [mkElement "init" "Starts again." "void init(int n)"] None)
            [] [] (mkElement "init" "Starts again." "void init(int n)") []
            eq_refl eq_refl eq_refl _ _).
  - by intros e' ?%elem_of_nil.
  - by intros f' e' ?%elem_of_nil.
Defined.

(** X10. References are resolved whatever the order of the files: with
    the index built from all the files, [ProcessBacklinks] turns the first
    bracketed token of a description into a link when an element of any
    file is called so, and into a link to the page of a file that holds
    such an element; it keeps the token when no element is called so. *)
Theorem backlinks_resolve :
  ∀ (Rel JoinPath : gostring → gostring → gostring)
    (ToSlash Ext Base ToLower : gostring → gostring)
    (scan_root out docComment : gostring) (files : list File)
    (before text rest : gostring),
    let linkIndex :=
      Generate.buildLinkIndex Rel JoinPath ToSlash Ext Base ToLower
        scan_root out files in
    token text → outside before ("[" ++ text ++ "]" ++ rest) →
    ((∃ f e, f ∈ files ∧ e ∈ Elements f ∧ ID e = text) →
     ∃ f e, f ∈ files ∧ e ∈ Elements f ∧ ID e = text
       ∧ ProcessBacklinks (before ++ "[" ++ text ++ "]" ++ rest)
           linkIndex docComment
         = before ++ "[" ++ text ++ "]("
           ++ Base (Generate.outputFilename Rel JoinPath ToSlash scan_root
                      (Path f) out (Ext (Path f)))
           ++ "#" ++ ToLower (ReplaceAll text " " "-") ++ ")"
           ++ ProcessBacklinks rest linkIndex docComment)
    ∧ ((¬ ∃ f e, f ∈ files ∧ e ∈ Elements f ∧ ID e = text) →
       ProcessBacklinks (before ++ "[" ++ text ++ "]" ++ rest)
         linkIndex docComment
       = before ++ "[" ++ text ++ "]"
         ++ ProcessBacklinks rest linkIndex docComment).
Proof.
  intros Rel JoinPath ToSlash Ext Base ToLower scan_root out docComment
    files before text rest linkIndex Htok Hout.
  pose proof (ProcessBacklinks_found linkIndex docComment before text rest
                Htok Hout) as Hfound.
  pose proof (indexFiles_keys Rel JoinPath ToSlash Ext Base ToLower
                scan_root out files text) as Hkeys.
  fold linkIndex in Hkeys. split.
  - intros Hin. pose proof (proj2 Hkeys Hin) as [target Htarget].
    assert (∃ f e, f ∈ files ∧ e ∈ Elements f ∧ ID e = text
              ∧ target = Base (Generate.outputFilename Rel JoinPath ToSlash
                                 scan_root (Path f) out (Ext (Path f)))
                         ++ "#" ++ ToLower (ReplaceAll text " " "-"))
      as (f & e & Hf & He & Hid & ->).
    { clear Hfound Hkeys Hin. revert Htarget. unfold linkIndex.
      unfold Generate.buildLinkIndex.
      induction files as [|f files IH] using rev_ind; [done|].
      rewrite foldl_snoc. unfold Generate.indexFile at 1.
      destruct (decide (Exists (λ e, ID e = text) (Elements f)))
        as [Hex|Hno].
      - apply Exists_exists in Hex as (e & He & Hid).
        rewrite (indexElements_present _ _ _ _ _ _ e) by done.
        intros [= <-]. exists f, e.
        split; [apply elem_of_app; right; by left|done].
      - rewrite indexElements_absent
          by (intros e He Hid; apply Hno, Exists_exists; eauto).
        intros (f' & e & Hf' & H)%IH. exists f', e.
        split; [apply elem_of_app; by left|done]. }
    exists f, e. split; [done|]. split; [done|]. split; [done|].
    cbn [app list_ascii_of_string] in Hfound |- *.
    rewrite Hfound, Htarget. unfold Fmt.link.
    cbn [app list_ascii_of_string].
    repeat first [rewrite <- app_assoc | progress cbn [app]]. done.
  - intros Hno. assert (linkIndex !! text = None) as Hnone.
    { destruct (linkIndex !! text) as [target|] eqn:E; [|done].
      destruct Hno. apply Hkeys. by exists target. }
    cbn [app list_ascii_of_string] in Hfound |- *.
    rewrite Hfound, Hnone. cbn [app]. by rewrite <- !app_assoc.
Qed.

Lemma backlinks_resolve_witness :
  ∃ f e,
    f ∈ [mkFile "c" "one.c" "Uses [stop]."
           [mkElement "init" "Starts." "void init()"] None;
         mkFile "c" "two.c" []
           [mkElement "stop" "Stops." "void stop()"] None]
    ∧ e ∈ Elements f ∧ ID e = ("stop" : gostring)
    ∧ ProcessBacklinks ("Uses " ++ "[" ++ "stop" ++ "]" ++ ".")
        (Generate.buildLinkIndex (λ _ p, p) (λ a b, a ++ "/" ++ b) (λ p, p)
           (λ _, ".c") (λ p, p) (λ s, s) "src" "docs"
           [mkFile "c" "one.c" "Uses [stop]."
              [mkElement "init" "Starts." "void init()"] None;
            mkFile "c" "two.c" []
              [mkElement "stop" "Stops." "void stop()"] None])
        "///"
      = "Uses " ++ "[" ++ "stop" ++ "]("
        ++ Generate.outputFilename (λ _ p, p) (λ a b, a ++ "/" ++ b)
             (λ p, p) "src" (Path f) "docs" ".c"
        ++ "#" ++ ReplaceAll "stop" " " "-" ++ ")"
        ++ ProcessBacklinks "."
             (Generate.buildLinkIndex (λ _ p, p) (λ a b, a ++ "/" ++ b)
                (λ p, p) (λ _, ".c") (λ p, p) (λ s, s) "src" "docs"
                [mkFile "c" "one.c" "Uses [stop]."
                   [mkElement "init" "Starts." "void init()"] None;
                 mkFile "c" "two.c" []
                   [mkElement "stop" "Stops." "void stop()"] None])
             "///".
Proof.
  refine (proj1 (backlinks_resolve (λ _ p, p) (λ a b, a ++ "/" ++ b)
                   (λ p, p) (λ _, ".c") (λ p, p) (λ s, s) "src" "docs" "///"
                   [mkFile "c" "one.c" "Uses [stop]."
                      [mkElement "init" "Starts." "void init()"] None;
                    mkFile "c" "two.c" []
                      [mkElement "stop" "Stops." "void stop()"] None]
                   "Uses " "stop" "." _ _) _).
  - split; [done|]. by apply notClose_Forall; repeat constructor.
  - apply outsideb_spec. vm_compute; reflexivity.
  - exists (mkFile "c" "two.c" []
              [mkElement "stop" "Stops." "void stop()"] None),
           (mkElement "stop" "Stops." "void stop()").
    split; [right; by left|]. split; [by left|done].
Defined.

(** ** The name of a page *)

Lemma HasSuffix_app (p suffix : gostring) : HasSuffix (p ++ suffix) suffix = true.
Proof.
  unfold HasSuffix. rewrite length_app.
  apply andb_true_iff. split; [apply Nat.leb_le; lia|].
  apply bool_decide_eq_true.
  replace (length p + length suffix - length suffix) with (length p) by lia.
  by rewrite drop_app_length.
Qed.

Lemma TrimSuffix_app (p suffix : gostring) : TrimSuffix (p ++ suffix) suffix = p.
Proof.
  unfold TrimSuffix. rewrite HasSuffix_app, length_app.
  replace (length p + length suffix - length suffix) with (length p) by lia.
  by rewrite take_app_length.
Qed.

(** X11. [outputFilename] takes the extension off the path relative to
    the scanned directory and puts [.md] in its place, so two sources that
    differ in their extension only are written to the same page. *)
Theorem outputFilename_drops_extension :
  ∀ (Rel JoinPath : gostring → gostring → gostring)
    (ToSlash : gostring → gostring)
    (scan_root out stem path1 ext1 path2 ext2 : gostring),
    Rel scan_root path1 = stem ++ ext1 →
    Rel scan_root path2 = stem ++ ext2 →
    Generate.outputFilename Rel JoinPath ToSlash scan_root path1 out ext1
    = ToSlash (JoinPath out (stem ++ ".md"))
    ∧ Generate.outputFilename Rel JoinPath ToSlash scan_root path1 out ext1
      = Generate.outputFilename Rel JoinPath ToSlash scan_root path2 out ext2.
Proof.
  intros Rel JoinPath ToSlash scan_root out stem path1 ext1 path2 ext2 H1 H2.
  unfold Generate.outputFilename. by rewrite H1, H2, !TrimSuffix_app.
Qed.

Lemma outputFilename_drops_extension_witness :
  Generate.outputFilename (λ _ p, p) (λ a b, a ++ "/" ++ b) (λ p, p)
    "src" "util/list.c" "docs" ".c"
  = ("docs/util/list.md" : gostring)
  ∧ Generate.outputFilename (λ _ p, p) (λ a b, a ++ "/" ++ b) (λ p, p)
      "src" "util/list.c" "docs" ".c"
    = Generate.outputFilename (λ _ p, p) (λ a b, a ++ "/" ++ b) (λ p, p)
        "src" "util/list.h" "docs" ".h".
Proof.
  exact (outputFilename_drops_extension (λ _ p, p) (λ a b, a ++ "/" ++ b)
           (λ p, p) "src" "docs" "util/list" "util/list.c" ".c"
           "util/list.h" ".h" eq_refl eq_refl).
Defined.

(** ** The addresses on the hosting service *)

Lemma streq_true (a b : gostring) : Git.streq a b = true ↔ a = b.
Proof. unfold Git.streq. apply bool_decide_eq_true. Qed.

Lemma streq_false (a b : gostring) : Git.streq a b = false ↔ a ≠ b.
Proof. unfold Git.streq. apply bool_decide_eq_false. Qed.

Ltac urls_cases :=
  repeat split; intros;
  repeat match goal with
         | H : _ ∧ _ |- _ => destruct H
         | H : _ ∨ _ |- _ => destruct H
         end;
  first [done | congruence].

(** X12. [GetCommitURL] gives an address exactly for the providers
    github, gitlab and gitea, [GetFileURL] exactly for github and gitlab,
    both only when the owner and the name of the repository are known.
    Where a file has an address, it and the address of the commit name
    the same repository page. *)
Theorem repository_urls :
  ∀ (repoInfo : Git.RepoInfo) (commitHash filePath : gostring),
    (Git.GetCommitURL repoInfo commitHash ≠ []
     ↔ (Git.Provider repoInfo = ("github" : gostring)
        ∨ Git.Provider repoInfo = ("gitlab" : gostring)
        ∨ Git.Provider repoInfo = ("gitea" : gostring))
       ∧ Git.RepoOwner repoInfo ≠ [] ∧ Git.RepoName repoInfo ≠ [])
    ∧ (Git.GetFileURL repoInfo commitHash filePath ≠ []
       ↔ (Git.Provider repoInfo = ("github" : gostring)
          ∨ Git.Provider repoInfo = ("gitlab" : gostring))
         ∧ Git.RepoOwner repoInfo ≠ [] ∧ Git.RepoName repoInfo ≠ [])
    ∧ (Git.GetFileURL repoInfo commitHash filePath ≠ [] →
       ∃ page,
         Git.GetCommitURL repoInfo commitHash
         = page ++ "commit/" ++ commitHash
         ∧ Git.GetFileURL repoInfo commitHash filePath
           = page ++ "blob/" ++ commitHash ++ "/" ++ filePath).
Proof.
  intros [isRepo url provider owner name branch root] commitHash filePath.
  unfold Git.GetCommitURL, Git.GetFileURL.
  cbn [Git.Provider Git.RepoOwner Git.RepoName].
  destruct (Git.streq owner "") eqn:Eo.
  { apply streq_true in Eo as ->. rewrite orb_true_r. cbn [orb].
    urls_cases. }
  destruct (Git.streq name "") eqn:En.
  { apply streq_true in En as ->. rewrite orb_true_r. urls_cases. }
  apply streq_false in Eo, En. rewrite !orb_false_r.
  destruct (Git.streq provider "unknown") eqn:Eu.
  { apply streq_true in Eu as ->. urls_cases. }
  destruct (Git.streq provider "github") eqn:E1.
  { apply streq_true in E1 as ->.
    split; [split; [by eauto|done]|]. split; [split; [by eauto|done]|].
    intros _. exists ("https://github.com/" ++ owner ++ "/" ++ name ++ "/").
    cbn [app list_ascii_of_string].
    split; repeat first [rewrite <- app_assoc | progress cbn [app]]; done. }
  destruct (Git.streq provider "gitlab") eqn:E2.
  { apply streq_true in E2 as ->.
    split; [split; [by eauto|done]|]. split; [split; [by eauto|done]|].
    intros _. exists ("https://gitlab.com/" ++ owner ++ "/" ++ name ++ "/-/").
    cbn [app list_ascii_of_string].
    split; repeat first [rewrite <- app_assoc | progress cbn [app]]; done. }
  apply streq_false in E1, E2.
  destruct (Git.streq provider "gitea") eqn:E3.
  { apply streq_true in E3 as ->.
    split; [split; [by eauto 6|done]|]. urls_cases. }
  apply streq_false in E3. urls_cases.
Qed.

(** ** The picture of an author *)

Lemma splitFrom_first (u tail cur : gostring) c :
  c ∉ u →
  splitFrom (u ++ c :: tail) [c] 0 cur
  = (cur ++ u) :: splitFrom tail [c] 0 [].
Proof.
  revert cur. induction u as [|d u IH]; intros cur Hc.
  - cbn [app splitFrom Nat.ltb Nat.leb HasPrefix].
    rewrite Ascii.eqb_refl. cbn [andb length Nat.sub]. by rewrite app_nil_r.
  - apply not_elem_of_cons in Hc as [Hd Hu].
    cbn [app splitFrom Nat.ltb Nat.leb HasPrefix].
    assert (Ascii.eqb d c = false) as ->
      by (apply Ascii.eqb_neq; congruence).
    cbn [andb]. rewrite IH by done. by rewrite <- app_assoc.
Qed.

Lemma Index_first (pre rest : gostring) c :
  c ∉ pre → Index (pre ++ c :: rest) [c] = Z.of_nat (length pre).
Proof.
  induction pre as [|d pre IH]; intros Hc.
  - cbn [app]. destruct rest; cbn [Index HasPrefix];
      by rewrite Ascii.eqb_refl.
  - apply not_elem_of_cons in Hc as [Hd Hpre].
    cbn [app Index HasPrefix].
    assert (Ascii.eqb d c = false) as ->
      by (apply Ascii.eqb_neq; congruence).
    cbn [andb]. rewrite IH by done.
    assert ((Z.of_nat (length pre) <? 0)%Z = false) as ->
      by (apply Z.ltb_ge; lia).
    cbn [length]. lia.
Qed.

Lemma Index_absent (s : gostring) c : c ∉ s → Index s [c] = (-1)%Z.
Proof.
  induction s as [|d s IH]; intros Hc; [done|].
  apply not_elem_of_cons in Hc as [Hd Hs].
  cbn [Index HasPrefix].
  assert (Ascii.eqb d c = false) as -> by (apply Ascii.eqb_neq; congruence).
  cbn [andb]. by rewrite IH.
Qed.

(** X13. On github an address [<number>+<user>@users.noreply.github.com] gets
    the picture of the account [<user>]; an address
    [<user>@users.noreply.github.com] without a plus sign, an address of
    another kind and every address on another provider get the one that
    Gravatar keeps for the address. *)
Theorem GetAvatarURL_cases :
  ∀ (ToLower md5hex : gostring → gostring) (repoInfo : Git.RepoInfo)
    (author : Git.Author) (size : Z),
    (∀ number user : gostring,
        Git.Provider repoInfo = ("github" : gostring) →
        Git.Email author
        = number ++ "+" ++ user ++ "@users.noreply.github.com" →
        "+"%char ∉ number → "@"%char ∉ number → "@"%char ∉ user →
        Git.GetAvatarURL ToLower md5hex repoInfo author size
        = "https://github.com/" ++ user ++ ".png?size=" ++ Fmt.decimalZ size)
    ∧ (∀ user : gostring,
          Git.Email author = user ++ "@users.noreply.github.com" →
          "+"%char ∉ user → "@"%char ∉ user →
          Git.GetAvatarURL ToLower md5hex repoInfo author size
          = Git.getGravatarURL ToLower md5hex (Git.Email author) size)
    ∧ (HasSuffix (Git.Email author) "@users.noreply.github.com" = false →
       Git.GetAvatarURL ToLower md5hex repoInfo author size
       = Git.getGravatarURL ToLower md5hex (Git.Email author) size)
    ∧ (Git.Provider repoInfo ≠ ("github" : gostring) →
       Git.GetAvatarURL ToLower md5hex repoInfo author size
       = Git.getGravatarURL ToLower md5hex (Git.Email author) size).
Proof.
  intros ToLower md5hex repoInfo author size. unfold Git.GetAvatarURL.
  split; [|split; [|split]].
  - intros number user Hp He Hplus Hat Hat'.
    apply streq_true in Hp. rewrite Hp.
    assert (HasSuffix (Git.Email author) "@users.noreply.github.com" = true)
      as ->.
    { rewrite He.
      replace (number ++ "+" ++ user ++ "@users.noreply.github.com")
        with ((number ++ "+" ++ user) ++ "@users.noreply.github.com")
        by (by rewrite <- !app_assoc).
      apply HasSuffix_app. }
    assert (Split (Git.Email author) "@"
            = (number ++ "+" ++ user) :: Split "users.noreply.github.com" "@")
      as ->.
    { rewrite He. unfold Split.
      replace (number ++ "+" ++ user ++ "@users.noreply.github.com")
        with ((number ++ "+" ++ user)
                ++ "@"%char :: ("users.noreply.github.com" : gostring))
        by (by rewrite <- !app_assoc).
      rewrite (splitFrom_first (number ++ "+" ++ user)); [done|].
      rewrite !not_elem_of_app. split; [done|]. split; [|done].
      by intros [=]%list_elem_of_singleton. }
    cbn [length Nat.ltb Nat.leb lookup list_lookup default from_option id].
    change ("+" ++ user) with ("+"%char :: user).
    change (list_ascii_of_string "+") with ["+"%char].
    rewrite (Index_first number user "+") by done.
    assert ((Z.of_nat (length number) =? -1)%Z = false) as ->
      by (apply Z.eqb_neq; lia).
    cbn [negb].
    replace (Z.to_nat (Z.of_nat (length number) + 1))
      with (length (number ++ ["+"%char]))
      by (rewrite length_app; cbn [length]; lia).
    replace (number ++ "+"%char :: user) with ((number ++ ["+"%char]) ++ user)
      by (by rewrite <- app_assoc).
    by rewrite drop_app_length.
  - intros user He Hplus Hat.
    destruct (Git.streq (Git.Provider repoInfo) "github");
      [|by destruct (Git.streq (Git.Provider repoInfo) "gitlab")].
    rewrite He, HasSuffix_app.
    assert (Split (user ++ "@users.noreply.github.com") "@"
            = user :: Split "users.noreply.github.com" "@") as ->.
    { unfold Split.
      change (user ++ "@users.noreply.github.com")
        with (user ++ "@"%char :: ("users.noreply.github.com" : gostring)).
      change (list_ascii_of_string "@") with ["@"%char].
      by rewrite (splitFrom_first user). }
    cbn [length Nat.ltb Nat.leb lookup list_lookup default from_option id].
    change (list_ascii_of_string "+") with ["+"%char].
    by rewrite Index_absent.
  - intros Hs. rewrite Hs.
    destruct (Git.streq (Git.Provider repoInfo) "github"); [done|].
    by destruct (Git.streq (Git.Provider repoInfo) "gitlab").
  - intros Hp. apply streq_false in Hp. rewrite Hp.
    by destruct (Git.streq (Git.Provider repoInfo) "gitlab").
Qed.

Lemma GetAvatarURL_cases_witness :
  Git.GetAvatarURL (λ s, s) (λ s, s)
    (Git.mkRepoInfo true "https://github.com/octo/cat" "github" "octo" "cat"
       "main" "/src")
    (Git.mkAuthor "Mona" "583231+mona@users.noreply.github.com") 40
  = ("https://github.com/mona.png?size=40" : gostring).
Proof.
  refine (proj1 (GetAvatarURL_cases (λ s, s) (λ s, s)
                   (Git.mkRepoInfo true "https://github.com/octo/cat" "github"
                      "octo" "cat" "main" "/src")
                   (Git.mkAuthor "Mona" "583231+mona@users.noreply.github.com")
                   40)
            "583231" "mona" eq_refl eq_refl _ _ _).
  - apply (bool_decide_unpack ("+"%char ∉ ("583231" : gostring))).
    vm_compute. exact I.
  - apply (bool_decide_unpack ("@"%char ∉ ("583231" : gostring))).
    vm_compute. exact I.
  - apply (bool_decide_unpack ("@"%char ∉ ("mona" : gostring))).
    vm_compute. exact I.
Defined.

(** ** An empty comment prefix *)

Lemma content_nil (line : gostring) : content [] line = TrimSpace line.
Proof.
  unfold content. cbn [length drop].
  destruct (TrimSpace line) as [|c t] eqn:E; [done|].
  destruct (TrimSpace_head line [c] t E) as [? | Hhead]; [done|].
  cbn [spaceRune] in Hhead. cbn [drop].
  destruct (Ascii.eqb c " ") eqn:Ec; [|done].
  apply Ascii.eqb_eq in Ec as ->. done.
Qed.

Lemma excluded_nil ign (line : gostring) : excluded [] ign line = false.
Proof.
  unfold excluded, indented. destruct line; cbn; by rewrite andb_false_r.
Qed.

(** X14. With an empty comment prefix every line counts as a comment line,
    indented or not: [ParseFile] turns the whole file, each line trimmed,
    into the description of the module and finds no element. *)
Theorem ParseFile_empty_prefix :
  ∀ (readFile : gostring → option gostring) (filePath : gostring) (f : File)
    (ign : bool) (data : gostring),
    readFile filePath = Some data →
    ModuleDesc (ParseFile readFile filePath f [] ign).1
    = Join (TrimSpace <$> Split data nl) nl
    ∧ Elements (ParseFile readFile filePath f [] ign).1 = [].
Proof.
  intros readFile filePath f ign data Hread.
  unfold ParseFile. rewrite Hread. unfold extractTopComment.
  rewrite topLoop_spec.
  assert (Forall (λ l, isDoc [] l = true) (Split data nl)) as Hall.
  { apply Forall_forall. by intros l _. }
  destruct (takeWhile_app_all (isDoc []) (Split data nl) [] Hall)
    as [Ht Hd]. rewrite app_nil_r in Ht, Hd. cbn [takeWhile] in Ht.
  rewrite app_nil_r in Ht. cbn [dropWhile] in Hd. rewrite Ht, Hd.
  cbn [extractElements length elementsLoop fst snd ModuleDesc Elements].
  split; [|done]. f_equal. cbn [app]. clear Hall Ht Hd.
  induction (Split data nl) as [|l ls IH]; [done|].
  cbn [List.filter]. rewrite excluded_nil. cbn [negb fmap list_fmap].
  rewrite content_nil. f_equal. exact IH.
Qed.

Lemma ParseFile_empty_prefix_witness :
  ModuleDesc
    (ParseFile (λ _, Some ("  int x;" ++ nl ++ "// note ")) "x.c"
       (mkFile "c" [] [] [] None) [] true).1
  = Join (TrimSpace <$> Split ("  int x;" ++ nl ++ "// note ") nl) nl
  ∧ Elements
      (ParseFile (λ _, Some ("  int x;" ++ nl ++ "// note ")) "x.c"
         (mkFile "c" [] [] [] None) [] true).1 = [].
Proof.
  exact (ParseFile_empty_prefix (λ _, Some ("  int x;" ++ nl ++ "// note "))
           ("x.c" : gostring) (mkFile "c" [] [] [] None) true _ eq_refl).
Defined.

(** ** What [GetFileInfo] reads from the log *)

(** A text is split at the bytes [c]: the first piece ends before the
    first of them, or with the text. *)
Lemma splitFrom_sep (s cur : gostring) c :
  splitFrom s [c] 0 cur
  = (cur ++ takeWhile (notSep c) s)
    :: match dropWhile (notSep c) s with
       | [] => []
       | _ :: rest => splitFrom rest [c] 0 []
       end.
Proof.
  revert cur. induction s as [|d s IH]; intros cur.
  - cbn [splitFrom takeWhile dropWhile]. by rewrite app_nil_r.
  - cbn [splitFrom Nat.ltb Nat.leb HasPrefix takeWhile dropWhile].
    unfold notSep at 1 3. destruct (Ascii.eqb d c); cbn [andb negb].
    + cbn [length Nat.sub]. by rewrite app_nil_r.
    + rewrite IH. by rewrite <- app_assoc.
Qed.

Lemma notSep_Forall (s : gostring) c :
  c ∉ s → Forall (λ d, notSep c d = true) s.
Proof.
  intros H. apply Forall_forall. intros d Hd. unfold notSep.
  apply negb_true_iff, Ascii.eqb_neq. by intros ->.
Qed.

Lemma splitFrom_length (s cur : gostring) c :
  length (splitFrom s [c] 0 cur)
  = S (length (List.filter (λ d, Ascii.eqb d c) s)).
Proof.
  revert cur. induction s as [|d s IH]; intros cur; [done|].
  cbn [splitFrom Nat.ltb Nat.leb HasPrefix List.filter].
  destruct (Ascii.eqb d c); cbn [andb length Nat.sub]; by rewrite IH.
Qed.

(** X15. From the line [hash|name|email|date|subject] that [git log]
    prints for the last commit, [GetFileInfo] takes the four first parts
    as they stand, and of the subject only what comes before its first
    bar. *)
Theorem GetFileInfo_last_commit :
  ∀ (authorsOf : gostring → list Git.Author) (out : gostring)
    (followLog shortLog : option gostring)
    (hash name email date subject : gostring),
    out ≠ [] →
    TrimSpace out
    = hash ++ "|" ++ name ++ "|" ++ email ++ "|" ++ date ++ "|" ++ subject →
    "|"%char ∉ hash → "|"%char ∉ name → "|"%char ∉ email →
    "|"%char ∉ date →
    ∃ info,
      Git.GetFileInfo authorsOf (Some out) followLog shortLog = inr info
      ∧ Git.LastCommitHash info = hash
      ∧ Git.LastAuthorName info = name
      ∧ Git.LastAuthorEmail info = email
      ∧ Git.LastCommitDate info = date
      ∧ Git.LastCommitMessage info
        = takeWhile (λ c, negb (Ascii.eqb c "|")) subject.
Proof.
  intros authorsOf out followLog shortLog hash name email date subject
    Hout Hline Hh Hn He Hd.
  unfold Git.GetFileInfo.
  assert ((length out =? 0) = false) as ->
    by (apply Nat.eqb_neq; by destruct out).
  rewrite Hline. unfold Split.
  cbn [app list_ascii_of_string].
  rewrite !splitFrom_first by done. cbn [app].
  rewrite (splitFrom_sep subject). cbn [app].
  cbn [length Nat.leb lookup list_lookup default from_option id].
  destruct followLog, shortLog; eexists; (split; [reflexivity|]); done.
Qed.

Lemma GetFileInfo_last_commit_witness :
  ∃ info,
    Git.GetFileInfo (λ _, [])
      (Some ("abc123|Ann|ann@x.org|2024-01-02|Fix a|b" ++ nl)) None None
    = inr info
    ∧ Git.LastCommitHash info = ("abc123" : gostring)
    ∧ Git.LastAuthorName info = ("Ann" : gostring)
    ∧ Git.LastAuthorEmail info = ("ann@x.org" : gostring)
    ∧ Git.LastCommitDate info = ("2024-01-02" : gostring)
    ∧ Git.LastCommitMessage info
      = takeWhile (λ c, negb (Ascii.eqb c "|")) ("Fix a|b" : gostring).
Proof.
  apply (GetFileInfo_last_commit (λ _, [])
           ("abc123|Ann|ann@x.org|2024-01-02|Fix a|b" ++ nl) None None
           "abc123" "Ann" "ann@x.org" "2024-01-02" "Fix a|b").
  - discriminate.
  - vm_compute; reflexivity.
  - apply (bool_decide_unpack ("|"%char ∉ ("abc123" : gostring))).
    vm_compute. exact I.
  - apply (bool_decide_unpack ("|"%char ∉ ("Ann" : gostring))).
    vm_compute. exact I.
  - apply (bool_decide_unpack ("|"%char ∉ ("ann@x.org" : gostring))).
    vm_compute. exact I.
  - apply (bool_decide_unpack ("|"%char ∉ ("2024-01-02" : gostring))).
    vm_compute. exact I.
Defined.

(** X16. [GetFileInfo] fails when the first command fails or prints
    nothing, and only then. Otherwise it leaves the five fields of the
    last commit empty when the line has fewer than four bars; it counts
    the commits as one more than the line breaks inside the trimmed
    output of the second command, so never as zero when that command
    succeeds, and as zero when it fails; and the authors are those read
    from the output of the third command, none when it fails. *)
Theorem GetFileInfo_edges :
  ∀ (authorsOf : gostring → list Git.Author)
    (followLog shortLog : option gostring),
    Git.GetFileInfo authorsOf None followLog shortLog
    = inl Git.LastCommitFailed
    ∧ Git.GetFileInfo authorsOf (Some []) followLog shortLog
      = inl Git.NoHistory
    ∧ ∀ out : gostring,
        out ≠ [] →
        ∃ info,
          Git.GetFileInfo authorsOf (Some out) followLog shortLog = inr info
          ∧ (length (List.filter (λ c, Ascii.eqb c "|") (TrimSpace out)) < 4 →
             Git.LastCommitHash info = [] ∧ Git.LastAuthorName info = []
             ∧ Git.LastAuthorEmail info = [] ∧ Git.LastCommitDate info = []
             ∧ Git.LastCommitMessage info = [])
          ∧ Git.TotalCommits info
            = match followLog with
              | Some log =>
                  (1 + Z.of_nat
                         (length (List.filter (λ c, Ascii.eqb c (ascii_of_nat 10))
                                    (TrimSpace log))))%Z
              | None => 0%Z
              end
          ∧ Git.Authors info
            = match shortLog with
              | Some log => authorsOf log
              | None => []
              end.
Proof.
  intros authorsOf followLog shortLog. split; [done|]. split; [done|].
  intros out Hout. unfold Git.GetFileInfo.
  assert ((length out =? 0) = false) as ->
    by (apply Nat.eqb_neq; by destruct out).
  eexists. split; [reflexivity|].
  split; [|split].
  - intros Hbars.
    assert ((5 <=? length (Split (TrimSpace out) "|")) = false) as Hfew.
    { apply Nat.leb_gt. unfold Split.
      change (list_ascii_of_string "|") with ["|"%char].
      rewrite splitFrom_length. lia. }
    rewrite Hfew. by destruct followLog, shortLog.
  - destruct followLog as [log|].
    + assert (length (Split (TrimSpace log) nl)
              = S (length (List.filter (λ c, Ascii.eqb c (ascii_of_nat 10))
                             (TrimSpace log)))) as Hlen
        by apply splitFrom_length.
      destruct shortLog; cbn [Git.TotalCommits]; rewrite Hlen; lia.
    + destruct shortLog;
        by destruct (5 <=? length (Split (TrimSpace out) "|")).
  - destruct shortLog; [|destruct followLog];
      try by destruct (5 <=? length (Split (TrimSpace out) "|")).
    destruct followLog;
      by destruct (5 <=? length (Split (TrimSpace out) "|")).
Qed.

Lemma GetFileInfo_edges_witness :
  ∃ info,
    Git.GetFileInfo (λ _, []) (Some nl) (Some []) None = inr info
    ∧ (length (List.filter (λ c, Ascii.eqb c "|") (TrimSpace nl)) < 4 →
       Git.LastCommitHash info = [] ∧ Git.LastAuthorName info = []
       ∧ Git.LastAuthorEmail info = [] ∧ Git.LastCommitDate info = []
       ∧ Git.LastCommitMessage info = [])
    ∧ Git.TotalCommits info
      = (1 + Z.of_nat
               (length (List.filter (λ c, Ascii.eqb c (ascii_of_nat 10))
                          (TrimSpace []))))%Z
    ∧ Git.Authors info = [].
Proof.
  refine (proj2 (proj2 (GetFileInfo_edges (λ _, []) (Some []) None)) nl _).
  discriminate.
Defined.

(** ** The matcher with several groups *)

Lemma submatch_cat r1 r2 (s : gostring) caps k :
  Submatch.exec (Submatch.Cat r1 r2) s caps k
  = Submatch.exec r1 s caps (λ s' caps', Submatch.exec r2 s' caps' k).
Proof. done. Qed.

Lemma submatch_lit c (s : gostring) caps k :
  Submatch.exec (Submatch.Lit c) s caps k
  = match s with
    | d :: s' => if Ascii.eqb c d then k s' caps else None
    | [] => None
    end.
Proof. done. Qed.

Lemma submatch_str (w : gostring) (s : gostring) caps k :
  Submatch.exec (Submatch.Str w) s caps k
  = if HasPrefix s w then k (drop (length w) s) caps else None.
Proof.
  revert s. induction w as [|c w IH]; intros s; [done|].
  cbn [Submatch.Str foldr]. rewrite submatch_cat, submatch_lit.
  destruct s as [|d s]; [done|]. cbn [HasPrefix length drop].
  rewrite Ascii.eqb_sym. destruct (Ascii.eqb d c); [|done]. apply IH.
Qed.

Lemma submatch_opt r (s : gostring) caps k :
  Submatch.exec (Submatch.Opt r) s caps k
  = match Submatch.exec r s caps k with
    | Some m => Some m
    | None => k s caps
    end.
Proof. done. Qed.

Lemma submatch_eol (s : gostring) caps k :
  Submatch.exec Submatch.Eol s caps k
  = match s with [] => k s caps | _ :: _ => None end.
Proof. done. Qed.

(** Greedy repetition of a class, followed by something that cannot start
    with a byte of the class, takes the whole run. *)
Lemma submatch_starLoop_class p fuel (s : gostring) caps k :
  length s < fuel → exclusiveOf p k →
  Submatch.starLoop (Submatch.exec (Submatch.Class p)) fuel s caps k
  = k (dropWhile p s) caps.
Proof.
  intros Hfuel Hk. revert fuel Hfuel.
  induction s as [|c s IH]; intros fuel Hfuel.
  - destruct fuel; [simpl in Hfuel; lia|]. done.
  - destruct fuel as [|fuel]; [lia|].
    cbn [Submatch.starLoop Submatch.exec dropWhile].
    destruct (p c) eqn:Hc; [|done].
    assert ((length s <? length (c :: s)) = true) as ->
      by (apply Nat.ltb_lt; simpl; lia).
    rewrite IH by (simpl in Hfuel; lia).
    destruct (k (dropWhile p s) caps) eqn:E; [done|].
    by apply Hk.
Qed.

Lemma submatch_star_class p (s : gostring) caps k :
  exclusiveOf p k →
  Submatch.exec (Submatch.Star (Submatch.Class p)) s caps k
  = k (dropWhile p s) caps.
Proof.
  intros Hk.
  change (Submatch.exec (Submatch.Star (Submatch.Class p)) s caps k)
    with (Submatch.starLoop (Submatch.exec (Submatch.Class p))
            (S (length s)) s caps k).
  apply submatch_starLoop_class; [lia|done].
Qed.

Lemma submatch_plus_class p (s : gostring) caps k :
  exclusiveOf p k →
  Submatch.exec (Submatch.Plus (Submatch.Class p)) s caps k
  = if startsWith p s then k (dropWhile p s) caps else None.
Proof.
  intros Hk. unfold Submatch.Plus. rewrite submatch_cat.
  destruct s as [|c s]; [done|]. cbn [Submatch.exec startsWith dropWhile].
  destruct (p c); [|done].
  change (Submatch.starLoop _ _ _ _ _)
    with (Submatch.exec (Submatch.Star (Submatch.Class p)) s caps k).
  by apply submatch_star_class.
Qed.

Lemma submatch_group_plus_class n p (s : gostring) caps k :
  exclusiveOf p k →
  Submatch.exec (Submatch.Group n (Submatch.Plus (Submatch.Class p))) s caps k
  = if startsWith p s
    then k (dropWhile p s) ((n, takeWhile p s) :: caps) else None.
Proof.
  intros Hk.
  change (Submatch.exec (Submatch.Group n (Submatch.Plus (Submatch.Class p)))
            s caps k)
    with (Submatch.exec (Submatch.Plus (Submatch.Class p)) s caps
            (λ s' caps', k s' ((n, take (length s - length s') s) :: caps'))).
  rewrite submatch_plus_class.
  - by rewrite take_length_dropWhile.
  - intros c s' caps' Hc. by apply Hk.
Qed.

(** Lazy repetition of a class. *)
Lemma submatch_lazyLoop_class p fuel (s : gostring) caps k :
  length s < fuel →
  Submatch.lazyLoop (Submatch.exec (Submatch.Class p)) fuel s caps k
  = lazyAt p (λ s', k s' caps) s.
Proof.
  revert fuel. induction s as [|c s IH]; intros fuel Hfuel.
  - destruct fuel; [simpl in Hfuel; lia|].
    cbn [Submatch.lazyLoop Submatch.exec lazyAt]. by destruct (k [] caps).
  - destruct fuel as [|fuel]; [lia|].
    cbn [Submatch.lazyLoop Submatch.exec lazyAt].
    destruct (k (c :: s) caps); [done|]. destruct (p c); [|done].
    assert ((length s <? length (c :: s)) = true) as ->
      by (apply Nat.ltb_lt; simpl; lia).
    apply IH. simpl in Hfuel. lia.
Qed.

Lemma lazyAt_Some p k (s : gostring) m :
  lazyAt p k s = Some m →
  ∃ a b, s = a ++ b ∧ Forall (λ c, p c = true) a ∧ k b = Some m.
Proof.
  induction s as [|c s IH]; cbn [lazyAt].
  - destruct (k []) eqn:E; [|done]. intros [= <-]. by exists [], [].
  - destruct (k (c :: s)) eqn:E.
    + intros [= <-]. by exists [], (c :: s).
    + destruct (p c) eqn:Hc; [|done].
      intros (a & b & -> & Ha & Hb)%IH. exists (c :: a), b.
      split; [done|]. split; [by constructor|done].
Qed.

Lemma lazyAt_first p k (a b : gostring) m :
  Forall (λ c, p c = true) a →
  (∀ a1 a2, a = a1 ++ a2 → a2 ≠ [] → k (a2 ++ b) = None) →
  k b = Some m →
  lazyAt p k (a ++ b) = Some m.
Proof.
  intros Ha. induction Ha as [|c a Hc _ IH]; intros Hnot Hb.
  - cbn [app]. destruct b; cbn [lazyAt]; by rewrite Hb.
  - assert (k (c :: a ++ b) = None) as H0 by (by apply (Hnot [] (c :: a))).
    cbn [app lazyAt]. rewrite H0, Hc.
    apply IH; [|done]. intros a1 a2 -> Ha2. by apply (Hnot (c :: a1) a2).
Qed.

(** ** The two patterns of [parseRemoteURL] *)

Lemma notSlash_Forall (t : gostring) :
  "/"%char ∉ t ↔ Forall (λ c, Git.notSlash c = true) t.
Proof.
  rewrite Forall_forall. unfold Git.notSlash. split.
  - intros Hn c Hc. apply negb_true_iff, Ascii.eqb_neq. by intros ->.
  - intros H Hin. apply H in Hin. by rewrite Ascii.eqb_refl in Hin.
Qed.

Lemma notColon_Forall (t : gostring) :
  ":"%char ∉ t ↔ Forall (λ c, Git.notColon c = true) t.
Proof.
  rewrite Forall_forall. unfold Git.notColon. split.
  - intros Hn c Hc. apply negb_true_iff, Ascii.eqb_neq. by intros ->.
  - intros H Hin. apply H in Hin. by rewrite Ascii.eqb_refl in Hin.
Qed.

(** [(?:\.git)?$] matches the empty text and [.git], nothing else. *)
Lemma submatch_end (s : gostring) caps :
  Submatch.exec
    (Submatch.Cat (Submatch.Opt (Submatch.Str ".git")) Submatch.Eol)
    s caps accept
  = if bool_decide (s = [] ∨ s = (".git" : gostring))
    then Some ([], caps) else None.
Proof.
  rewrite submatch_cat, submatch_opt, submatch_str.
  destruct (HasPrefix s ".git") eqn:E.
  - apply HasPrefix_inv in E as [t ->]. rewrite drop_app_length.
    rewrite !submatch_eol. destruct t as [|c t].
    + by rewrite bool_decide_eq_true_2 by (by right).
    + rewrite bool_decide_eq_false_2; [done|]. by intros [?|?].
  - rewrite submatch_eol. destruct s as [|c s].
    + by rewrite bool_decide_eq_true_2 by (by left).
    + rewrite bool_decide_eq_false_2; [done|].
      intros [?|Hs]; [done|]. by rewrite Hs in E.
Qed.

Lemma submatch_group_lazy n p (s : gostring) caps k :
  Submatch.exec (Submatch.Group n (Submatch.LazyPlus (Submatch.Class p)))
    s caps k
  = match s with
    | c :: s' =>
        if p c
        then lazyAt p
               (λ s'', k s'' ((n, take (length s - length s'') s) :: caps)) s'
        else None
    | [] => None
    end.
Proof.
  destruct s as [|c s']; [done|].
  change (Submatch.exec
            (Submatch.Group n (Submatch.LazyPlus (Submatch.Class p)))
            (c :: s') caps k)
    with (if p c
          then Submatch.lazyLoop (Submatch.exec (Submatch.Class p))
                 (S (length s')) s' caps
                 (λ s'' caps',
                    k s'' ((n, take (length (c :: s') - length s'') (c :: s'))
                           :: caps'))
          else None).
  destruct (p c); [|done]. by rewrite submatch_lazyLoop_class by lia.
Qed.

Lemma exclusive_slash k : exclusiveOf Git.notSlash
  (λ s caps, Submatch.exec (Submatch.Lit "/") s caps k).
Proof.
  intros c s caps Hc. rewrite submatch_lit.
  unfold Git.notSlash in Hc. apply negb_true_iff in Hc.
  by rewrite Ascii.eqb_sym, Hc.
Qed.

Lemma take_repo (c : ascii) (a b : gostring) :
  take (length (c :: a ++ b) - length b) (c :: a ++ b) = c :: a.
Proof.
  change (c :: a ++ b) with ((c :: a) ++ b). rewrite length_app.
  replace (length (c :: a) + length b - length b) with (length (c :: a))
    by lia.
  by rewrite take_app_length.
Qed.

(** The end of a match: owner, slash, repository, and [.git] or nothing. *)
Lemma pathRe_sound (s rest : gostring) caps caps' :
  Submatch.exec pathRe s caps accept = Some (rest, caps') →
  ∃ owner repo tail,
    s = owner ++ "/" ++ repo ++ tail
    ∧ segment owner ∧ segment repo
    ∧ (tail = [] ∨ tail = (".git" : gostring))
    ∧ rest = [] ∧ caps' = (3, repo) :: (2, owner) :: caps.
Proof.
  unfold pathRe.
  rewrite submatch_cat, submatch_group_plus_class by apply exclusive_slash.
  destruct (startsWith Git.notSlash s) eqn:Hs; [|done].
  rewrite submatch_cat, submatch_lit.
  pose proof (takeWhile_dropWhile Git.notSlash s) as Hsplit.
  pose proof (takeWhile_Forall Git.notSlash s) as Howner.
  destruct (dropWhile Git.notSlash s) as [|d s2]; [done|].
  destruct (Ascii.eqb "/" d) eqn:Ed; [|done].
  apply Ascii.eqb_eq in Ed as <-.
  rewrite submatch_cat, submatch_group_lazy.
  destruct s2 as [|c s3]; [done|].
  destruct (Git.notSlash c) eqn:Hc; [|done].
  intros (a & b & -> & Ha & Hend)%lazyAt_Some.
  change (λ s' caps', Submatch.exec
            (Submatch.Cat (Submatch.Opt (Submatch.Str ".git")) Submatch.Eol)
            s' caps' (λ s'' caps'', Some (s'', caps'')))
    with (λ s' caps', Submatch.exec
            (Submatch.Cat (Submatch.Opt (Submatch.Str ".git")) Submatch.Eol)
            s' caps' accept) in Hend.
  cbv beta in Hend. rewrite submatch_end, take_repo in Hend.
  case_bool_decide as Htail; [|done]. injection Hend as <- <-.
  exists (takeWhile Git.notSlash s), (c :: a), b.
  split; [by rewrite <- Hsplit at 1|].
  split. { split; [|by apply notSlash_Forall].
           destruct s as [|e s]; [done|]. cbn in Hs |- *. by rewrite Hs. }
  split. { split; [done|]. apply notSlash_Forall. by constructor. }
  done.
Qed.

Lemma pathRe_complete (owner repo tail : gostring) caps :
  segment owner → segment repo →
  tail = (".git" : gostring)
  ∨ (tail = [] ∧ HasSuffix repo ".git" = false) →
  Submatch.exec pathRe (owner ++ "/" ++ repo ++ tail) caps accept
  = Some ([], (3, repo) :: (2, owner) :: caps).
Proof.
  intros [Hone Howner%notSlash_Forall] [Hrne Hrepo%notSlash_Forall] Htail.
  unfold pathRe.
  rewrite submatch_cat, submatch_group_plus_class by apply exclusive_slash.
  rewrite Forall_startsWith by done.
  destruct (takeWhile_app_stop Git.notSlash owner ("/" ++ repo ++ tail)
              Howner eq_refl) as [-> ->].
  rewrite submatch_cat, submatch_lit. cbn [app list_ascii_of_string].
  rewrite Ascii.eqb_refl, submatch_cat, submatch_group_lazy.
  destruct repo as [|c a]; [done|]. apply Forall_cons in Hrepo as [Hc Ha].
  cbn [app]. rewrite Hc.
  apply lazyAt_first; [done| |].
  - intros a1 a2 -> Ha2.
    change (λ s' caps', Submatch.exec
              (Submatch.Cat (Submatch.Opt (Submatch.Str ".git")) Submatch.Eol)
              s' caps' (λ s'' caps'', Some (s'', caps'')))
      with (λ s' caps', Submatch.exec
              (Submatch.Cat (Submatch.Opt (Submatch.Str ".git")) Submatch.Eol)
              s' caps' accept).
    cbv beta. rewrite submatch_end, bool_decide_eq_false_2; [done|].
    intros [Hnil | Hgit].
    + by apply app_eq_nil in Hnil as [? _].
    + destruct Htail as [-> | [-> Hsuf]].
      * apply (f_equal length) in Hgit. rewrite length_app in Hgit.
        destruct a2; [done|]. cbn in Hgit. lia.
      * rewrite app_nil_r in Hgit. subst a2.
        change (c :: a1 ++ ".git") with ((c :: a1) ++ ".git") in Hsuf.
        by rewrite HasSuffix_app in Hsuf.
  - change (λ s' caps', Submatch.exec
              (Submatch.Cat (Submatch.Opt (Submatch.Str ".git")) Submatch.Eol)
              s' caps' (λ s'' caps'', Some (s'', caps'')))
      with (λ s' caps', Submatch.exec
              (Submatch.Cat (Submatch.Opt (Submatch.Str ".git")) Submatch.Eol)
              s' caps' accept).
    cbv beta. rewrite submatch_end, take_repo.
    rewrite bool_decide_eq_true_2; [done|].
    destruct Htail as [-> | [-> _]]; [by right|by left].
Qed.

Lemma exclusive_sep p sep k :
  (∀ c, p c = true → Ascii.eqb sep c = false) →
  exclusiveOf p (λ s caps, Submatch.exec (Submatch.Lit sep) s caps k).
Proof. intros Hp c s caps Hc. rewrite submatch_lit. by rewrite Hp. Qed.

Lemma authorityRe_sound p sep (s rest : gostring) caps caps' :
  (∀ c, p c = true → Ascii.eqb sep c = false) →
  Submatch.exec (authorityRe p sep) s caps accept = Some (rest, caps') →
  ∃ host owner repo tail,
    s = host ++ sep :: owner ++ "/" ++ repo ++ tail
    ∧ host ≠ [] ∧ Forall (λ c, p c = true) host
    ∧ segment owner ∧ segment repo
    ∧ (tail = [] ∨ tail = (".git" : gostring))
    ∧ rest = [] ∧ caps' = (3, repo) :: (2, owner) :: (1, host) :: caps.
Proof.
  intros Hp. unfold authorityRe.
  rewrite submatch_cat, submatch_group_plus_class by by apply exclusive_sep.
  destruct (startsWith p s) eqn:Hs; [|done].
  rewrite submatch_cat, submatch_lit.
  pose proof (takeWhile_dropWhile p s) as Hsplit.
  pose proof (takeWhile_Forall p s) as Hhost.
  destruct (dropWhile p s) as [|d s2]; [done|].
  destruct (Ascii.eqb sep d) eqn:Ed; [|done].
  apply Ascii.eqb_eq in Ed as <-.
  intros (owner & repo & tail & -> & Ho & Hr & Ht & -> & ->)%pathRe_sound.
  exists (takeWhile p s), owner, repo, tail.
  split; [by rewrite <- Hsplit at 1|].
  split; [destruct s as [|e s]; [done|]; cbn in Hs |- *; by rewrite Hs|].
  done.
Qed.

Lemma authorityRe_complete p sep (host owner repo tail : gostring) caps :
  (∀ c, p c = true → Ascii.eqb sep c = false) → p sep = false →
  host ≠ [] → Forall (λ c, p c = true) host →
  segment owner → segment repo →
  tail = (".git" : gostring)
  ∨ (tail = [] ∧ HasSuffix repo ".git" = false) →
  Submatch.exec (authorityRe p sep)
    (host ++ sep :: owner ++ "/" ++ repo ++ tail) caps accept
  = Some ([], (3, repo) :: (2, owner) :: (1, host) :: caps).
Proof.
  intros Hp Hsep Hne Hhost Ho Hr Ht. unfold authorityRe.
  rewrite submatch_cat, submatch_group_plus_class by by apply exclusive_sep.
  rewrite Forall_startsWith by done.
  assert (startsWith p (sep :: owner ++ "/" ++ repo ++ tail) = false)
    as Hstop by done.
  destruct (takeWhile_app_stop p host _ Hhost Hstop) as [-> ->].
  rewrite submatch_cat, submatch_lit, Ascii.eqb_refl.
  by apply pathRe_complete.
Qed.

Lemma notSlash_sep c : Git.notSlash c = true → Ascii.eqb "/" c = false.
Proof.
  unfold Git.notSlash. intros H%negb_true_iff. by rewrite Ascii.eqb_sym.
Qed.

Lemma notColon_sep c : Git.notColon c = true → Ascii.eqb ":" c = false.
Proof.
  unfold Git.notColon. intros H%negb_true_iff. by rewrite Ascii.eqb_sym.
Qed.

(** A text that starts like an address of the web or of [ssh], down to its
    end. *)
Lemma httpsRe_sound (s rest : gostring) caps :
  Submatch.matchAt Git.httpsRe s = Some (rest, caps) →
  ∃ scheme host owner repo tail,
    s = scheme ++ "://" ++ host ++ "/" ++ owner ++ "/" ++ repo ++ tail
    ∧ (scheme = ("http" : gostring) ∨ scheme = ("https" : gostring))
    ∧ segment host ∧ segment owner ∧ segment repo
    ∧ (tail = [] ∨ tail = (".git" : gostring))
    ∧ rest = [] ∧ caps = [(3, repo); (2, owner); (1, host)].
Proof.
  unfold Submatch.matchAt.
  change Git.httpsRe
    with (Submatch.Cat (Submatch.Str "http")
            (Submatch.Cat (Submatch.Opt (Submatch.Lit "s"))
               (Submatch.Cat (Submatch.Str "://")
                  (authorityRe Git.notSlash "/")))).
  rewrite submatch_cat, submatch_str.
  destruct (HasPrefix s "http") eqn:E; [|done].
  apply HasPrefix_inv in E as [s1 ->]. rewrite drop_app_length.
  rewrite submatch_cat, submatch_opt.
  assert (∀ x : gostring,
            Submatch.exec
              (Submatch.Cat (Submatch.Str "://") (authorityRe Git.notSlash "/"))
              x [] accept = Some (rest, caps) →
            ∃ host owner repo tail,
              x = "://" ++ host ++ "/" ++ owner ++ "/" ++ repo ++ tail
              ∧ segment host ∧ segment owner ∧ segment repo
              ∧ (tail = [] ∨ tail = (".git" : gostring))
              ∧ rest = [] ∧ caps = [(3, repo); (2, owner); (1, host)])
    as Hrest.
  { intros x. rewrite submatch_cat, submatch_str.
    destruct (HasPrefix x "://") eqn:E; [|done].
    apply HasPrefix_inv in E as [x1 ->]. rewrite drop_app_length.
    intros (host & owner & repo & tail & -> & Hne & Hh & Ho & Hr & Ht & -> & ->)
             %authorityRe_sound; [|apply notSlash_sep].
    exists host, owner, repo, tail. split; [done|].
    split; [split; [done|by apply notSlash_Forall]|done]. }
  change (λ s' caps', Submatch.exec
            (Submatch.Cat (Submatch.Str "://") (authorityRe Git.notSlash "/"))
            s' caps' (λ s'' caps'', Some (s'', caps'')))
    with (λ s' caps', Submatch.exec
            (Submatch.Cat (Submatch.Str "://") (authorityRe Git.notSlash "/"))
            s' caps' accept).
  rewrite submatch_lit.
  destruct s1 as [|c s2].
  { intros (host & owner & repo & tail & Hx & _)%Hrest. discriminate Hx. }
  destruct (Ascii.eqb "s" c) eqn:Ec.
  - apply Ascii.eqb_eq in Ec as <-.
    destruct (Submatch.exec _ s2 [] accept) as [m|] eqn:E2.
    + intros [= ->]. apply Hrest in E2
        as (host & owner & repo & tail & -> & H).
      exists ("https" : gostring), host, owner, repo, tail.
      split; [reflexivity|]. split; [by right|done].
    + intros (host & owner & repo & tail & Hx & _)%Hrest. discriminate Hx.
  - intros (host & owner & repo & tail & -> & H)%Hrest.
    exists ("http" : gostring), host, owner, repo, tail.
    split; [reflexivity|]. split; [by left|done].
Qed.

Lemma submatch_str_app (w t : gostring) caps k :
  Submatch.exec (Submatch.Str w) (w ++ t) caps k = k t caps.
Proof. by rewrite submatch_str, HasPrefix_app, drop_app_length. Qed.

Lemma httpsRe_complete (scheme host owner repo tail : gostring) :
  scheme = ("http" : gostring) ∨ scheme = ("https" : gostring) →
  segment host → segment owner → segment repo →
  tail = (".git" : gostring)
  ∨ (tail = [] ∧ HasSuffix repo ".git" = false) →
  Submatch.matchAt Git.httpsRe
    (scheme ++ "://" ++ host ++ "/" ++ owner ++ "/" ++ repo ++ tail)
  = Some ([], [(3, repo); (2, owner); (1, host)]).
Proof.
  intros Hscheme [Hne Hh%notSlash_Forall] Ho Hr Ht.
  unfold Submatch.matchAt.
  change Git.httpsRe
    with (Submatch.Cat (Submatch.Str "http")
            (Submatch.Cat (Submatch.Opt (Submatch.Lit "s"))
               (Submatch.Cat (Submatch.Str "://")
                  (authorityRe Git.notSlash "/")))).
  change (λ s' caps', Some (s', caps')) with accept.
  pose proof (authorityRe_complete Git.notSlash "/" host owner repo tail []
                notSlash_sep eq_refl Hne Hh Ho Hr Ht) as Hauth.
  set (x := host ++ "/" ++ owner ++ "/" ++ repo ++ tail) in *.
  assert (Submatch.exec
            (Submatch.Cat (Submatch.Str "://") (authorityRe Git.notSlash "/"))
            ("://" ++ x) [] accept
          = Some ([], [(3, repo); (2, owner); (1, host)])) as Hrest
    by (by rewrite submatch_cat, submatch_str_app).
  destruct Hscheme as [-> | ->].
  - rewrite submatch_cat, submatch_str_app, submatch_cat, submatch_opt.
    rewrite submatch_lit. exact Hrest.
  - change (("https" : gostring) ++ "://" ++ x)
      with (("http" : gostring) ++ ("s"%char :: ("://" ++ x))).
    rewrite submatch_cat, submatch_str_app, submatch_cat, submatch_opt.
    rewrite submatch_lit, Ascii.eqb_refl.
    change (λ s' caps', Submatch.exec
              (Submatch.Cat (Submatch.Str "://")
                 (authorityRe Git.notSlash "/"))
              s' caps' (λ s'' caps'', Some (s'', caps'')))
      with (λ s' caps', Submatch.exec
              (Submatch.Cat (Submatch.Str "://")
                 (authorityRe Git.notSlash "/"))
              s' caps' accept).
    cbv beta. by rewrite Hrest.
Qed.

Lemma sshRe_sound (s rest : gostring) caps :
  Submatch.matchAt Git.sshRe s = Some (rest, caps) →
  ∃ host owner repo tail,
    s = "git@" ++ host ++ ":" ++ owner ++ "/" ++ repo ++ tail
    ∧ host ≠ [] ∧ (":"%char ∉ host) ∧ segment owner ∧ segment repo
    ∧ (tail = [] ∨ tail = (".git" : gostring))
    ∧ rest = [] ∧ caps = [(3, repo); (2, owner); (1, host)].
Proof.
  unfold Submatch.matchAt.
  change Git.sshRe
    with (Submatch.Cat (Submatch.Str "git@") (authorityRe Git.notColon ":")).
  rewrite submatch_cat, submatch_str.
  destruct (HasPrefix s "git@") eqn:E; [|done].
  apply HasPrefix_inv in E as [s1 ->]. rewrite drop_app_length.
  intros (host & owner & repo & tail & -> & Hne & Hh & Ho & Hr & Ht & -> & ->)
           %authorityRe_sound; [|apply notColon_sep].
  exists host, owner, repo, tail. split; [done|]. split; [done|].
  split; [by apply notColon_Forall|done].
Qed.

Lemma sshRe_complete (host owner repo tail : gostring) :
  host ≠ [] → ":"%char ∉ host → segment owner → segment repo →
  tail = (".git" : gostring)
  ∨ (tail = [] ∧ HasSuffix repo ".git" = false) →
  Submatch.matchAt Git.sshRe
    ("git@" ++ host ++ ":" ++ owner ++ "/" ++ repo ++ tail)
  = Some ([], [(3, repo); (2, owner); (1, host)]).
Proof.
  intros Hne Hh%notColon_Forall Ho Hr Ht.
  unfold Submatch.matchAt.
  change Git.sshRe
    with (Submatch.Cat (Submatch.Str "git@") (authorityRe Git.notColon ":")).
  change (λ s' caps', Some (s', caps')) with accept.
  rewrite submatch_cat, submatch_str, HasPrefix_app, drop_app_length.
  by apply authorityRe_complete; [apply notColon_sep|..].
Qed.

(** ** The leftmost match *)

Lemma submatch_search_here r (s rest : gostring) caps :
  Submatch.matchAt r s = Some (rest, caps) →
  Submatch.search r s = Some (take (length s - length rest) s, caps).
Proof. intros H. destruct s; cbn [Submatch.search]; by rewrite H. Qed.

Lemma submatch_search_sound r (s m : gostring) caps :
  Submatch.search r s = Some (m, caps) →
  ∃ pre t rest, s = pre ++ t ∧ Submatch.matchAt r t = Some (rest, caps).
Proof.
  induction s as [|c s IH]; cbn [Submatch.search].
  - destruct (Submatch.matchAt r []) as [[rest caps']|] eqn:E; [|done].
    intros [= _ <-]. by exists [], [], rest.
  - destruct (Submatch.matchAt r (c :: s)) as [[rest caps']|] eqn:E.
    + intros [= _ <-]. by exists [], (c :: s), rest.
    + intros (pre & t & rest & -> & H)%IH. by exists (c :: pre), t, rest.
Qed.

Lemma colonSlash_none (s : gostring) : ":"%char ∉ s → colonSlash s = false.
Proof.
  induction s as [|c s IH]; [done|]. intros [Hc Hs]%not_elem_of_cons.
  cbn [colonSlash]. rewrite IH by done.
  assert (Ascii.eqb c ":" = false) as -> by (apply Ascii.eqb_neq; congruence).
  done.
Qed.

Lemma colonSlash_app (p t : gostring) :
  ":"%char ∉ p → colonSlash (p ++ t) = colonSlash t.
Proof.
  induction p as [|c p IH]; [done|]. intros [Hc Hp]%not_elem_of_cons.
  cbn [app colonSlash]. rewrite IH by done.
  assert (Ascii.eqb c ":" = false) as -> by (apply Ascii.eqb_neq; congruence).
  done.
Qed.

(** Without a colon before a slash the pattern for the web matches
    nowhere. *)
Lemma httpsRe_colonSlash (s rest : gostring) caps :
  Submatch.matchAt Git.httpsRe s = Some (rest, caps) → colonSlash s = true.
Proof.
  intros (scheme & host & owner & repo & tail & -> & [-> | ->] & _)
           %httpsRe_sound; cbn; by rewrite ?orb_true_r.
Qed.

Lemma httpsRe_search_none (s : gostring) :
  colonSlash s = false → Submatch.search Git.httpsRe s = None.
Proof.
  induction s as [|c s IH]; intros H; cbn [Submatch.search].
  - destruct (Submatch.matchAt Git.httpsRe []) as [[rest caps]|] eqn:E;
      [|done]. apply httpsRe_colonSlash in E. congruence.
  - destruct (Submatch.matchAt Git.httpsRe (c :: s)) as [[rest caps]|] eqn:E.
    + apply httpsRe_colonSlash in E. congruence.
    + apply IH. cbn [colonSlash] in H. by apply orb_false_iff in H as [_ ?].
Qed.

(** ** [parseRemoteURL] *)

Lemma hostProvider_cases (host : gostring) :
  hostProvider host = ("github" : gostring)
  ∨ hostProvider host = ("gitlab" : gostring)
  ∨ hostProvider host = ("gitea" : gostring)
  ∨ hostProvider host = ("other" : gostring).
Proof.
  unfold hostProvider. destruct (Contains host "github.com"); [auto|].
  destruct (Contains host "gitlab.com"); [auto|].
  destruct (Contains host "gitea"); auto.
Qed.

(** [parseRemoteURL], by what the two searches find. *)
Lemma parseRemoteURL_eq (url : gostring) :
  Git.parseRemoteURL url
  = match Submatch.search Git.httpsRe url with
    | Some (_, caps) =>
        (hostProvider (Submatch.group caps 1),
         Submatch.group caps 2, Submatch.group caps 3)
    | None =>
        match Submatch.search Git.sshRe url with
        | Some (_, caps) =>
            (hostProvider (Submatch.group caps 1),
             Submatch.group caps 2, Submatch.group caps 3)
        | None => ("unknown" : gostring, [], [])
        end
    end.
Proof.
  unfold Git.parseRemoteURL, Submatch.FindStringSubmatch, hostProvider.
  destruct (Submatch.search Git.httpsRe url) as [[m caps]|].
  - change (Submatch.NumSubexp Git.httpsRe) with 3.
    cbn [length Nat.eqb fmap list_fmap seq lookup list_lookup default
           from_option id].
    destruct (Contains (Submatch.group caps 1) "github.com"); [done|].
    destruct (Contains (Submatch.group caps 1) "gitlab.com"); [done|].
    by destruct (Contains (Submatch.group caps 1) "gitea").
  - cbn [length Nat.eqb].
    destruct (Submatch.search Git.sshRe url) as [[m caps]|]; [|done].
    change (Submatch.NumSubexp Git.sshRe) with 3.
    cbn [length Nat.eqb fmap list_fmap seq lookup list_lookup default
           from_option id].
    destruct (Contains (Submatch.group caps 1) "github.com"); [done|].
    destruct (Contains (Submatch.group caps 1) "gitlab.com"); [done|].
    by destruct (Contains (Submatch.group caps 1) "gitea").
Qed.

(** What [parseRemoteURL] answers comes from a match of one of the two
    patterns. *)
Lemma parseRemoteURL_match (url provider owner repo : gostring) :
  Git.parseRemoteURL url = (provider, owner, repo) →
  (provider = ("unknown" : gostring) ∧ owner = [] ∧ repo = [])
  ∨ ∃ before host tail,
      provider = hostProvider host
      ∧ segment owner ∧ segment repo
      ∧ url = before ++ owner ++ "/" ++ repo ++ tail
      ∧ (tail = [] ∨ tail = (".git" : gostring)).
Proof.
  rewrite parseRemoteURL_eq.
  destruct (Submatch.search Git.httpsRe url) as [[m caps]|] eqn:E1.
  - apply submatch_search_sound in E1 as (pre & t & rest & -> & Hm).
    apply httpsRe_sound in Hm
      as (scheme & host & o & r & tail & -> & _ & _ & Ho & Hr & Ht & _ & ->).
    cbn [Submatch.group Nat.eqb]. intros [= <- <- <-]. right.
    exists (pre ++ scheme ++ "://" ++ host ++ "/"), host, tail.
    do 3 (split; [done|]). split; [|done]. by rewrite <- !app_assoc.
  - destruct (Submatch.search Git.sshRe url) as [[m caps]|] eqn:E2.
    + apply submatch_search_sound in E2 as (pre & t & rest & -> & Hm).
      apply sshRe_sound in Hm
        as (host & o & r & tail & -> & _ & _ & Ho & Hr & Ht & _ & ->).
      cbn [Submatch.group Nat.eqb]. intros [= <- <- <-]. right.
      exists (pre ++ "git@" ++ host ++ ":"), host, tail.
      do 3 (split; [done|]). split; [|done]. by rewrite <- !app_assoc.
    + intros [= <- <- <-]. by left.
Qed.

(** X17. Whatever the address, [parseRemoteURL] answers either
    [unknown] with no owner and no repository, or one of the providers
    github, gitlab, gitea and other with an owner and a repository that
    are not empty, hold no slash, and stand in the address as
    [owner/repository] before its end or before a last [.git]. *)
Theorem parseRemoteURL_sound :
  ∀ url provider owner repo : gostring,
    Git.parseRemoteURL url = (provider, owner, repo) →
    (provider = ("unknown" : gostring) ∧ owner = [] ∧ repo = [])
    ∨ ((provider = ("github" : gostring) ∨ provider = ("gitlab" : gostring)
        ∨ provider = ("gitea" : gostring) ∨ provider = ("other" : gostring))
       ∧ owner ≠ [] ∧ ("/"%char ∉ owner) ∧ repo ≠ [] ∧ ("/"%char ∉ repo)
       ∧ ∃ before tail,
           url = before ++ owner ++ "/" ++ repo ++ tail
           ∧ (tail = [] ∨ tail = (".git" : gostring))).
Proof.
  intros url provider owner repo
    [H | (before & host & tail & -> & [? ?] & [? ?] & Hurl & Ht)]
      %parseRemoteURL_match; [by left|].
  right. split; [apply hostProvider_cases|]. do 4 (split; [done|]).
  by exists before, tail.
Qed.

Lemma parseRemoteURL_sound_witness :
  (("github" : gostring) = ("unknown" : gostring)
   ∧ ("kociumba" : gostring) = [] ∧ ("kdoc" : gostring) = [])
  ∨ ((("github" : gostring) = ("github" : gostring)
      ∨ ("github" : gostring) = ("gitlab" : gostring)
      ∨ ("github" : gostring) = ("gitea" : gostring)
      ∨ ("github" : gostring) = ("other" : gostring))
     ∧ ("kociumba" : gostring) ≠ [] ∧ ("/"%char ∉ ("kociumba" : gostring))
     ∧ ("kdoc" : gostring) ≠ [] ∧ ("/"%char ∉ ("kdoc" : gostring))
     ∧ ∃ before tail,
         ("git@github.com:kociumba/kdoc.git" : gostring)
         = before ++ "kociumba" ++ "/" ++ "kdoc" ++ tail
         ∧ (tail = [] ∨ tail = (".git" : gostring))).
Proof.
  apply (parseRemoteURL_sound "git@github.com:kociumba/kdoc.git"
           "github" "kociumba" "kdoc").
  vm_compute; reflexivity.
Defined.

(** X18. An address of the web [http(s)://host/owner/repository], with
    or without [.git] at its end, is read as it is written: the provider
    comes from the host, the owner and the repository are the two parts
    of the path. The three parts are not empty and hold no slash; a
    repository written without [.git] does not end with [.git]. *)
Theorem parseRemoteURL_https :
  ∀ scheme host owner repo tail : gostring,
    scheme = ("http" : gostring) ∨ scheme = ("https" : gostring) →
    host ≠ [] → "/"%char ∉ host →
    owner ≠ [] → "/"%char ∉ owner →
    repo ≠ [] → "/"%char ∉ repo →
    tail = (".git" : gostring)
    ∨ (tail = [] ∧ HasSuffix repo ".git" = false) →
    Git.parseRemoteURL
      (scheme ++ "://" ++ host ++ "/" ++ owner ++ "/" ++ repo ++ tail)
    = (if Contains host "github.com" then ("github" : gostring)
       else if Contains host "gitlab.com" then ("gitlab" : gostring)
       else if Contains host "gitea" then ("gitea" : gostring)
       else ("other" : gostring),
       owner, repo).
Proof.
  intros scheme host owner repo tail Hs Hh1 Hh2 Ho1 Ho2 Hr1 Hr2 Ht.
  rewrite parseRemoteURL_eq.
  by rewrite (submatch_search_here _ _ _ _
                (httpsRe_complete scheme host owner repo tail Hs
                   (conj Hh1 Hh2) (conj Ho1 Ho2) (conj Hr1 Hr2) Ht)).
Qed.

Lemma parseRemoteURL_https_witness :
  Git.parseRemoteURL
    ("https" ++ "://" ++ "gitlab.com" ++ "/" ++ "octo" ++ "/" ++ "cat" ++ [])
  = (if Contains "gitlab.com" "github.com" then ("github" : gostring)
     else if Contains "gitlab.com" "gitlab.com" then ("gitlab" : gostring)
     else if Contains "gitlab.com" "gitea" then ("gitea" : gostring)
     else ("other" : gostring),
     ("octo" : gostring), ("cat" : gostring)).
Proof.
  apply (parseRemoteURL_https "https" "gitlab.com" "octo" "cat" []).
  - by right.
  - discriminate.
  - apply (bool_decide_unpack ("/"%char ∉ ("gitlab.com" : gostring))).
    vm_compute. exact I.
  - discriminate.
  - apply (bool_decide_unpack ("/"%char ∉ ("octo" : gostring))).
    vm_compute. exact I.
  - discriminate.
  - apply (bool_decide_unpack ("/"%char ∉ ("cat" : gostring))).
    vm_compute. exact I.
  - right. split; [reflexivity|]. vm_compute; reflexivity.
Defined.

(** X19. An address [git@host:owner/repository], with or without [.git]
    at its end, is read as it is written, provided that no part holds a
    colon, and the owner and the repository no slash either: the pattern
    for the web, which is tried first, then finds nothing. *)
Theorem parseRemoteURL_ssh :
  ∀ host owner repo tail : gostring,
    host ≠ [] → ":"%char ∉ host →
    owner ≠ [] → "/"%char ∉ owner → ":"%char ∉ owner →
    repo ≠ [] → "/"%char ∉ repo → ":"%char ∉ repo →
    tail = (".git" : gostring)
    ∨ (tail = [] ∧ HasSuffix repo ".git" = false) →
    Git.parseRemoteURL
      ("git@" ++ host ++ ":" ++ owner ++ "/" ++ repo ++ tail)
    = (if Contains host "github.com" then ("github" : gostring)
       else if Contains host "gitlab.com" then ("gitlab" : gostring)
       else if Contains host "gitea" then ("gitea" : gostring)
       else ("other" : gostring),
       owner, repo).
Proof.
  intros host owner repo tail Hh1 Hh2 Ho1 Ho2 Ho3 Hr1 Hr2 Hr3 Ht.
  rewrite parseRemoteURL_eq.
  rewrite httpsRe_search_none.
  - by rewrite (submatch_search_here _ _ _ _
                  (sshRe_complete host owner repo tail Hh1 Hh2
                     (conj Ho1 Ho2) (conj Hr1 Hr2) Ht)).
  - replace ("git@" ++ host ++ ":" ++ owner ++ "/" ++ repo ++ tail)
      with (("git@" ++ host) ++ ":"%char :: owner ++ "/" ++ repo ++ tail)
      by (by rewrite <- app_assoc).
    rewrite colonSlash_app
      by (apply not_elem_of_app; split; [|done];
          apply (bool_decide_unpack (":"%char ∉ ("git@" : gostring)));
          vm_compute; exact I).
    destruct owner as [|c owner]; [done|].
    apply not_elem_of_cons in Ho2 as [Hc _].
    change (colonSlash (":"%char :: (c :: owner) ++ "/" ++ repo ++ tail))
      with (true && Ascii.eqb c "/"
            || colonSlash ((c :: owner) ++ "/" ++ repo ++ tail)).
    assert (Ascii.eqb c "/" = false) as ->
      by (apply Ascii.eqb_neq; congruence).
    cbn [andb orb].
    apply colonSlash_none. rewrite !not_elem_of_app.
    split; [done|]. split; [by intros [=]%list_elem_of_singleton|].
    split; [done|].
    destruct Ht as [-> | [-> _]]; [|apply not_elem_of_nil].
    apply (bool_decide_unpack (":"%char ∉ (".git" : gostring))).
    vm_compute. exact I.
Qed.

Lemma parseRemoteURL_ssh_witness :
  Git.parseRemoteURL
    ("git@" ++ "github.com" ++ ":" ++ "kociumba" ++ "/" ++ "kdoc" ++ ".git")
  = (if Contains "github.com" "github.com" then ("github" : gostring)
     else if Contains "github.com" "gitlab.com" then ("gitlab" : gostring)
     else if Contains "github.com" "gitea" then ("gitea" : gostring)
     else ("other" : gostring),
     ("kociumba" : gostring), ("kdoc" : gostring)).
Proof.
  apply (parseRemoteURL_ssh "github.com" "kociumba" "kdoc" ".git").
  - discriminate.
  - apply (bool_decide_unpack (":"%char ∉ ("github.com" : gostring))).
    vm_compute. exact I.
  - discriminate.
  - apply (bool_decide_unpack ("/"%char ∉ ("kociumba" : gostring))).
    vm_compute. exact I.
  - apply (bool_decide_unpack (":"%char ∉ ("kociumba" : gostring))).
    vm_compute. exact I.
  - discriminate.
  - apply (bool_decide_unpack ("/"%char ∉ ("kdoc" : gostring))).
    vm_compute. exact I.
  - apply (bool_decide_unpack (":"%char ∉ ("kdoc" : gostring))).
    vm_compute. exact I.
  - by left.
Defined.

(** ** The repository found and its links *)

(** X20. For the repository [detectRepoInfo] describes, an address of a
    commit exists exactly when the provider is github, gitlab or gitea,
    and an address of a file exactly when it is github or gitlab: the
    owner and the name are never missing then. Outside a repository and
    without a remote the provider is empty and there is no address; an
    address of the remote that is not understood gives the provider
    [unknown], and none either. *)
Theorem detected_repository_links :
  ∀ (gitDir : bool) (toplevel branch remote : option gostring)
    (repoPath commitHash filePath : gostring),
    let info := Git.detectRepoInfo gitDir toplevel branch remote repoPath in
    Git.IsRepo info = gitDir
    ∧ (Git.GetCommitURL info commitHash ≠ []
       ↔ Git.Provider info = ("github" : gostring)
         ∨ Git.Provider info = ("gitlab" : gostring)
         ∨ Git.Provider info = ("gitea" : gostring))
    ∧ (Git.GetFileURL info commitHash filePath ≠ []
       ↔ Git.Provider info = ("github" : gostring)
         ∨ Git.Provider info = ("gitlab" : gostring))
    ∧ (gitDir = false ∨ remote = None →
       Git.Provider info = [] ∧ Git.RepoOwner info = []
       ∧ Git.RepoName info = [])
    ∧ (∀ out, gitDir = true → remote = Some out →
       Git.RemoteURL info = TrimSpace out
       ∧ Git.parseRemoteURL (TrimSpace out)
         = (Git.Provider info, Git.RepoOwner info, Git.RepoName info)).
Proof.
  intros gitDir toplevel branch remote repoPath commitHash filePath info.
  assert (Git.IsRepo info = gitDir
          ∧ ((Git.Provider info = [] ∧ Git.RepoOwner info = []
              ∧ Git.RepoName info = [] ∧ (gitDir = false ∨ remote = None))
             ∨ ∃ out, gitDir = true ∧ remote = Some out
                 ∧ Git.RemoteURL info = TrimSpace out
                 ∧ Git.parseRemoteURL (TrimSpace out)
                   = (Git.Provider info, Git.RepoOwner info,
                      Git.RepoName info))) as [Hrepo Hcases].
  { unfold info, Git.detectRepoInfo. destruct gitDir; cbn [negb].
    - destruct remote as [out|].
      + destruct (Git.parseRemoteURL (TrimSpace out)) as [[p o] r] eqn:E.
        split; [done|]. right. by exists out.
      + split; [done|]. left. auto.
    - split; [done|]. left. auto. }
  split; [done|].
  assert (Git.Provider info = ("unknown" : gostring)
          ∨ Git.Provider info = []
          ∨ (Git.RepoOwner info ≠ [] ∧ Git.RepoName info ≠ [])) as Hparts.
  { destruct Hcases as [(-> & _) | (out & _ & _ & _ & Hparse)]; [auto|].
    apply parseRemoteURL_match in Hparse
      as [(-> & _) | (before & host & tail & _ & [? _] & [? _] & _)]; auto. }
  clearbody info.
  destruct info as [isRepo url provider owner name cur root].
  cbn [Git.Provider Git.RepoOwner Git.RepoName Git.RemoteURL] in *.
  unfold Git.GetCommitURL, Git.GetFileURL.
  cbn [Git.Provider Git.RepoOwner Git.RepoName].
  split; [|split; [|split]].
  - repeat match goal with
           | |- context [Git.streq ?a ?b] =>
               let E := fresh "E" in
               destruct (Git.streq a b) eqn:E;
               [apply streq_true in E | apply streq_false in E]
           end; cbn [orb]; subst;
      (split; [intros ?|intros [?|[?|?]]]);
      first [done | congruence | by auto
            | by destruct Hparts as [? | [? | [? ?]]]].
  - repeat match goal with
           | |- context [Git.streq ?a ?b] =>
               let E := fresh "E" in
               destruct (Git.streq a b) eqn:E;
               [apply streq_true in E | apply streq_false in E]
           end; cbn [orb]; subst;
      (split; [intros ?|intros [?|?]]);
      first [done | congruence | by auto
            | by destruct Hparts as [? | [? | [? ?]]]].
  - intros Hno. destruct Hcases as [(? & ? & ? & _) | (out & -> & -> & _)];
      [done|]. by destruct Hno.
  - intros out -> ->.
    destruct Hcases as [(_ & _ & _ & [?|?]) | (out' & _ & [= <-] & ? & ?)];
      done.
Qed.

Lemma detected_repository_links_witness :
  Git.RemoteURL
    (Git.detectRepoInfo true None None
       (Some ("git@github.com:kociumba/kdoc.git" ++ nl)) ".")
  = TrimSpace ("git@github.com:kociumba/kdoc.git" ++ nl)
  ∧ Git.parseRemoteURL (TrimSpace ("git@github.com:kociumba/kdoc.git" ++ nl))
    = (Git.Provider
         (Git.detectRepoInfo true None None
            (Some ("git@github.com:kociumba/kdoc.git" ++ nl)) "."),
       Git.RepoOwner
         (Git.detectRepoInfo true None None
            (Some ("git@github.com:kociumba/kdoc.git" ++ nl)) "."),
       Git.RepoName
         (Git.detectRepoInfo true None None
            (Some ("git@github.com:kociumba/kdoc.git" ++ nl)) ".")).
Proof.
  exact (proj2 (proj2 (proj2 (proj2
           (detected_repository_links true None None
              (Some ("git@github.com:kociumba/kdoc.git" ++ nl)) "." [] []))))
           ("git@github.com:kociumba/kdoc.git" ++ nl) eq_refl eq_refl).
Defined.

(** ** Between a run and its signature *)

Lemma skipGap_app (gap rest : list gostring) prefix :
  Forall (λ l, blank l || isDoc prefix l = true) gap →
  skipGap (gap ++ rest) prefix = skipGap rest prefix.
Proof.
  induction 1 as [|l gap Hl _ IH]; [done|]. cbn [app skipGap].
  by rewrite Hl.
Qed.

Lemma emitted_gap (run gap : list gostring) (sigLine : gostring) rest prefix
    elements :
  Forall (λ l, isDoc prefix l = true) run →
  startsWith (isDoc prefix) gap = false →
  Forall (λ l, blank l || isDoc prefix l = true) gap →
  isDoc prefix sigLine = false →
  emitted (run ++ gap ++ sigLine :: rest) prefix elements
  = emitted (run ++ sigLine :: rest) prefix elements.
Proof.
  intros Hrun Hhead Hgap Hsig. unfold emitted.
  assert (startsWith (isDoc prefix) (gap ++ sigLine :: rest) = false) as Hstop
    by (by destruct gap).
  destruct (takeWhile_app_stop (isDoc prefix) run _ Hrun Hstop) as [-> ->].
  assert (startsWith (isDoc prefix) (sigLine :: rest) = false) as Hstop'
    by done.
  destruct (takeWhile_app_stop (isDoc prefix) run _ Hrun Hstop') as [-> ->].
  by rewrite skipGap_app.
Qed.

Lemma emitted_eq (lines1 lines2 : list gostring) prefix elements :
  takeWhile (isDoc prefix) lines1 = takeWhile (isDoc prefix) lines2 →
  skipGap (dropWhile (isDoc prefix) lines1) prefix
  = skipGap (dropWhile (isDoc prefix) lines2) prefix →
  emitted lines1 prefix elements = emitted lines2 prefix elements.
Proof. intros H1 H2. unfold emitted. by rewrite H1, H2. Qed.

Lemma skipGap_nil (lines : list gostring) prefix :
  skipGap lines prefix = [] →
  Forall (λ l, blank l || isDoc prefix l = true) lines.
Proof.
  intros H. destruct (skipGap_suffix lines prefix) as (gap & Heq & Hgap).
  rewrite H, app_nil_r in Heq. by rewrite Heq.
Qed.

Lemma isDoc_gap (run : list gostring) prefix :
  Forall (λ l, isDoc prefix l = true) run →
  Forall (λ l, blank l || isDoc prefix l = true) run.
Proof.
  intros H. eapply Forall_impl; [exact H|]. intros l Hl. cbv beta.
  by rewrite Hl, orb_true_r.
Qed.

(** A round that begins before the run and goes on into it reads the
    same with the gap as without. *)
Lemma emitted_through (lines run gap : list gostring) (sigLine : gostring)
    rest prefix elements :
  skipGap (dropWhile (isDoc prefix) lines) prefix = [] →
  Forall (λ l, isDoc prefix l = true) run →
  startsWith (isDoc prefix) gap = false →
  Forall (λ l, blank l || isDoc prefix l = true) gap →
  isDoc prefix sigLine = false →
  emitted (lines ++ run ++ gap ++ sigLine :: rest) prefix elements
  = emitted (lines ++ run ++ sigLine :: rest) prefix elements.
Proof.
  intros Hnil Hrun Hhead Hgap Hsig.
  assert (startsWith (isDoc prefix) (gap ++ sigLine :: rest) = false) as Hstop
    by (by destruct gap).
  destruct (takeWhile_app_stop (isDoc prefix) run _ Hrun Hstop) as [Ht1 Hd1].
  assert (startsWith (isDoc prefix) (sigLine :: rest) = false) as Hstop'
    by done.
  destruct (takeWhile_app_stop (isDoc prefix) run _ Hrun Hstop') as [Ht2 Hd2].
  apply emitted_eq.
  - destruct (dropWhile (isDoc prefix) lines) as [|l d] eqn:Hd.
    + assert (Forall (λ l, isDoc prefix l = true) lines) as Hall.
      { rewrite <- (takeWhile_dropWhile (isDoc prefix) lines), Hd, app_nil_r.
        apply takeWhile_Forall. }
      destruct (takeWhile_app_all (isDoc prefix) lines
                  (run ++ gap ++ sigLine :: rest) Hall) as [-> _].
      destruct (takeWhile_app_all (isDoc prefix) lines
                  (run ++ sigLine :: rest) Hall) as [-> _].
      by rewrite Ht1, Ht2.
    + assert (dropWhile (isDoc prefix) lines ≠ []) as Hne by (by rewrite Hd).
      destruct (dropWhile_app_ne (isDoc prefix) lines
                  (run ++ gap ++ sigLine :: rest) Hne) as [-> _].
      by destruct (dropWhile_app_ne (isDoc prefix) lines
                     (run ++ sigLine :: rest) Hne) as [-> _].
  - destruct (dropWhile (isDoc prefix) lines) as [|l d] eqn:Hd.
    + assert (Forall (λ l, isDoc prefix l = true) lines) as Hall.
      { rewrite <- (takeWhile_dropWhile (isDoc prefix) lines), Hd, app_nil_r.
        apply takeWhile_Forall. }
      destruct (takeWhile_app_all (isDoc prefix) lines
                  (run ++ gap ++ sigLine :: rest) Hall) as [_ ->].
      destruct (takeWhile_app_all (isDoc prefix) lines
                  (run ++ sigLine :: rest) Hall) as [_ ->].
      rewrite Hd1, Hd2. by apply skipGap_app.
    + assert (dropWhile (isDoc prefix) lines ≠ []) as Hne by (by rewrite Hd).
      destruct (dropWhile_app_ne (isDoc prefix) lines
                  (run ++ gap ++ sigLine :: rest) Hne) as [_ ->].
      destruct (dropWhile_app_ne (isDoc prefix) lines
                  (run ++ sigLine :: rest) Hne) as [_ ->].
      rewrite Hd. apply skipGap_nil in Hnil.
      rewrite (skipGap_app (l :: d) (run ++ gap ++ sigLine :: rest)) by done.
      rewrite (skipGap_app (l :: d) (run ++ sigLine :: rest)) by done.
      rewrite (skipGap_app run (gap ++ sigLine :: rest))
        by (by apply isDoc_gap).
      rewrite (skipGap_app run (sigLine :: rest)) by (by apply isDoc_gap).
      by apply skipGap_app.
Qed.

(** The loop, from any lines before the run and with any elements found
    so far. *)
Lemma loopFrom_gap (before run gap : list gostring) (sigLine : gostring)
    rest prefix ign elements :
  run ≠ [] → Forall (λ l, isDoc prefix l = true) run →
  startsWith (excluded prefix ign) run = false →
  startsWith (isDoc prefix) gap = false →
  Forall (λ l, blank l || isDoc prefix l = true) gap →
  isDoc prefix sigLine = false →
  loopFrom (before ++ run ++ gap ++ sigLine :: rest) prefix ign elements
  = loopFrom (before ++ run ++ sigLine :: rest) prefix ign elements.
Proof.
  intros Hne Hrun Hfirst Hhead Hgap Hsig.
  remember (length before) as n eqn:Hn. revert before Hn elements.
  induction (lt_wf n) as [n _ IH]. intros before -> elements.
  destruct before as [|l before].
  - destruct run as [|line run']; [done|].
    pose proof (Forall_inv Hrun) as Hdoc. cbn [startsWith] in Hfirst.
    cbn [app].
    rewrite (loopFrom_emit line (run' ++ gap ++ sigLine :: rest)) by done.
    rewrite (loopFrom_emit line (run' ++ sigLine :: rest)) by done.
    change (line :: run' ++ gap ++ sigLine :: rest)
      with ((line :: run') ++ gap ++ sigLine :: rest).
    change (line :: run' ++ sigLine :: rest)
      with ((line :: run') ++ sigLine :: rest).
    by rewrite emitted_gap.
  - cbn [app].
    rewrite (loopFrom_cons l (before ++ run ++ gap ++ sigLine :: rest)).
    rewrite (loopFrom_cons l (before ++ run ++ sigLine :: rest)).
    rewrite !iteration_cases.
    destruct (isDoc prefix l && negb (excluded prefix ign l)) eqn:E;
      [|apply (IH (length before)); [cbn [length]; lia|done]].
    apply andb_true_iff in E as [Hl _].
    change (l :: before ++ run ++ gap ++ sigLine :: rest)
      with ((l :: before) ++ run ++ gap ++ sigLine :: rest).
    change (l :: before ++ run ++ sigLine :: rest)
      with ((l :: before) ++ run ++ sigLine :: rest).
    destruct (skipGap (dropWhile (isDoc prefix) (l :: before)) prefix)
      as [|h g] eqn:Hg.
    + by rewrite (emitted_through (l :: before) run gap sigLine rest).
    + rewrite !emitted_app by (by rewrite Hg). cbn [fst snd].
      pose proof (emitted_suffix l before prefix elements Hl) as Hsuf.
      apply suffix_length in Hsuf.
      apply (IH (length (emitted (l :: before) prefix elements).2));
        [cbn [length]; lia|done].
Qed.

(** X21. Blank lines between a run of comment lines and the next line
    that is not a comment line, and the comment lines that follow such a
    blank line, are passed over: wherever the run stands in the input,
    they change nothing in what [extractElements] returns, so a comment
    that a blank line separates from its run is in no description. The
    first line of the run is one the policy does not exclude. *)
Theorem gap_changes_nothing :
  ∀ (prefix : gostring) (ign : bool) (before run gap : list gostring)
    (sigLine : gostring) (rest : list gostring),
    run ≠ [] → Forall (λ l, isDoc prefix l = true) run →
    startsWith (excluded prefix ign) run = false →
    startsWith (isDoc prefix) gap = false →
    Forall (λ l, blank l || isDoc prefix l = true) gap →
    isDoc prefix sigLine = false →
    extractElements (before ++ run ++ gap ++ sigLine :: rest) prefix ign
    = extractElements (before ++ run ++ sigLine :: rest) prefix ign.
Proof.
  intros prefix ign before run gap sigLine rest Hne Hrun Hfirst Hhead Hgap
    Hsig.
  change (loopFrom (before ++ run ++ gap ++ sigLine :: rest) prefix ign []
          = loopFrom (before ++ run ++ sigLine :: rest) prefix ign []).
  by apply loopFrom_gap.
Qed.

Lemma gap_changes_nothing_witness :
  extractElements
    (golines ["/// one"; "int a();"] ++ golines ["/// two"]
       ++ golines [""; "/// lost"]
       ++ ("int b();" : gostring) :: golines ["/// Next."; "int next;"])
    "///" true
  = extractElements
      (golines ["/// one"; "int a();"] ++ golines ["/// two"]
         ++ ("int b();" : gostring) :: golines ["/// Next."; "int next;"])
      "///" true.
Proof.
  apply (gap_changes_nothing "///" true (golines ["/// one"; "int a();"])
           (golines ["/// two"]) (golines [""; "/// lost"]) "int b();"
           (golines ["/// Next."; "int next;"])).
  - discriminate.
  - repeat constructor.
  - vm_compute; reflexivity.
  - vm_compute; reflexivity.
  - repeat constructor.
  - vm_compute; reflexivity.
Defined.
